(** * Version synchronisation of the selfcare monorepo: a shallow embedding

    The release tooling of the repository keeps a [pom.xml] and a
    [package.json] in step by regular-expression search and replace.  This
    development embeds the JavaScript of

    - [tools/nx-maven-version/src/release-version-actions.js],
    - [tools/nx-maven-version/src/version-resolver.js],
    - [tools/nx-maven-version/src/generators/version/generator.js],
    - [scripts/sync-pom-version.js] (the sync script and the release script)

    and proves the properties the specification states about them.

    A JavaScript string is a sequence of UTF-16 code units; it is modelled
    as a list of numbers.  The regular expressions of the sources are flat
    sequences of literals and quantified character classes; they are run by
    a backtracking matcher with the priorities of the ECMAScript one. *)

From Stdlib Require Import NArith ZArith Lia List String Ascii Bool.
From stdpp Require Import base tactics option list gmap.

Local Open Scope list_scope.

(** ** Strings *)

Module Js.

(** A UTF-16 code unit. *)
Definition char := N.

(** A JavaScript string value. *)
Definition str := list char.

(** The code units of a source literal (all literals of the sources that
    take part in matching are ASCII). *)
Fixpoint lit (s : string) : str :=
  match s with
  | EmptyString => []
  | String a s' => N_of_ascii a :: lit s'
  end.

Definition ch (a : ascii) : char := N_of_ascii a.

(** [\s]: WhiteSpace and LineTerminator of ECMAScript. *)
Definition is_space (c : char) : bool :=
  ((9 <=? c) && (c <=? 13) || (c =? 32) || (c =? 160) || (c =? 5760)
   || (8192 <=? c) && (c <=? 8202) || (c =? 8232) || (c =? 8233)
   || (c =? 8239) || (c =? 8287) || (c =? 12288) || (c =? 65279))%N.

(** [\d] *)
Definition is_digit (c : char) : bool := ((48 <=? c) && (c <=? 57))%N.

(** [a-zA-Z] *)
Definition is_alpha (c : char) : bool :=
  ((65 <=? c) && (c <=? 90) || (97 <=? c) && (c <=? 122))%N.

(** [\w] *)
Definition is_word (c : char) : bool :=
  is_alpha c || is_digit c || (c =? 95)%N.

(** [[\s\S]] *)
Definition any (_ : char) : bool := true.

(** [[^<]] *)
Definition not_lt (c : char) : bool := negb (c =? 60)%N.

(** The class of the single and the double quote, and its complement. *)
Definition is_quote (c : char) : bool := ((c =? 39) || (c =? 34))%N.
Definition not_quote (c : char) : bool := negb (is_quote c).

(** [[\d\.\-a-zA-Z]] *)
Definition is_version_char (c : char) : bool :=
  is_digit c || (c =? 46)%N || (c =? 45)%N || is_alpha c.

(** [s.startsWith(l)], returning what follows [l]. *)
Fixpoint strip_prefix (l s : str) : option str :=
  match l, s with
  | [], _ => Some s
  | a :: l', b :: s' => if (a =? b)%N then strip_prefix l' s' else None
  | _ :: _, [] => None
  end.

(** [s.startsWith(l)] *)
Definition starts_with (l s : str) : bool :=
  match strip_prefix l s with Some _ => true | None => false end.

(** [s.indexOf(l)], as the text before and after the first occurrence. *)
Fixpoint index_of (l s : str) : option (str * str) :=
  match strip_prefix l s with
  | Some rest => Some ([], rest)
  | None =>
      match s with
      | [] => None
      | x :: s' =>
          match index_of l s' with
          | Some (pre, post) => Some (x :: pre, post)
          | None => None
          end
      end
  end.

(** [s.includes(l)] *)
Definition includes (l s : str) : bool :=
  match index_of l s with Some _ => true | None => false end.

(** [s.endsWith(l)] *)
Definition ends_with (l s : str) : bool :=
  match strip_prefix (rev l) (rev s) with Some _ => true | None => false end.

(** [s.split(sep)] for a separator of one code unit. *)
Fixpoint split_on (sep : char) (s : str) : list str :=
  match s with
  | [] => [[]]
  | x :: s' =>
      if (x =? sep)%N then [] :: split_on sep s'
      else match split_on sep s' with
           | p :: ps => (x :: p) :: ps
           | [] => [[x]]
           end
  end.

End Js.

(** ** Regular expressions *)

Module Re.
Import Js.

(** The atoms the patterns of the sources are made of. *)
Inductive atom :=
  | Lit (l : str)                (* a literal text *)
  | One (c : char -> bool)       (* one code unit of a class *)
  | Star (c : char -> bool)      (* [c*], greedy *)
  | Plus (c : char -> bool)      (* [c+], greedy *)
  | Lazy (c : char -> bool).     (* [c*?], non-greedy *)

(** A pattern is a sequence of atoms; a match gives the text each atom
    consumed, in order. *)
Definition regex := list atom.
Definition pieces := list str.

Definition push (x : char) (r : str * pieces) : str * pieces :=
  (x :: r.1, r.2).

Definition close (r : str * pieces) : pieces := r.1 :: r.2.

(** [c*] followed by the continuation [k]: the longest run first, one code
    unit given back at a time. *)
Fixpoint greedy (c : char -> bool) (k : str -> option pieces) (s : str)
  : option (str * pieces) :=
  match s with
  | x :: s' =>
      if c x then
        match greedy c k s' with
        | Some r => Some (push x r)
        | None => pair [] <$> k s
        end
      else pair [] <$> k s
  | [] => pair [] <$> k s
  end.

(** [c*?] followed by [k]: the shortest run first. *)
Fixpoint lazy (c : char -> bool) (k : str -> option pieces) (s : str)
  : option (str * pieces) :=
  match k s with
  | Some ps => Some ([], ps)
  | None =>
      match s with
      | x :: s' => if c x then push x <$> lazy c k s' else None
      | [] => None
      end
  end.

(** The backtracking matcher, anchored at the head of [s]. *)
Fixpoint match_here (r : regex) : str -> option pieces :=
  match r with
  | [] => fun _ => Some []
  | a :: r' =>
      let k := match_here r' in
      match a with
      | Lit l => fun s =>
          match strip_prefix l s with
          | Some s' => cons l <$> k s'
          | None => None
          end
      | One c => fun s =>
          match s with
          | x :: s' => if c x then cons [x] <$> k s' else None
          | [] => None
          end
      | Star c => fun s => close <$> greedy c k s
      | Plus c => fun s =>
          match s with
          | x :: s' => if c x then close <$> (push x <$> greedy c k s') else None
          | [] => None
          end
      | Lazy c => fun s => close <$> lazy c k s
      end
  end.

(** The result of [RegExp.prototype.exec] without the [g] flag: the text
    before the match, the pieces of the match and the text after it. *)
Record found := Found { before : str; parts : pieces; after : str }.

Definition whole (f : found) : str := concat (parts f).

Definition here (r : regex) (s : str) : option found :=
  (fun ps => Found [] ps (drop (length (concat ps)) s)) <$> match_here r s.

Definition shift (x : char) (f : found) : found :=
  Found (x :: before f) (parts f) (after f).

(** The leftmost match: every start position in turn. *)
Fixpoint exec (r : regex) (s : str) : option found :=
  match here r s with
  | Some f => Some f
  | None =>
      match s with
      | [] => None
      | x :: s' => shift x <$> exec r s'
      end
  end.

(** [regex.test(s)] *)
Definition test (r : regex) (s : str) : bool :=
  match exec r s with Some _ => true | None => false end.

(** A capture group, as the range of atoms it encloses: the atoms
    [from, from + len). *)
Definition group (from len : nat) (ps : pieces) : str :=
  concat (take len (drop from ps)).

End Re.

(** ** [String.prototype.replace] *)

Module Replace.
Import Js Re.

Definition digit_val (c : char) : nat := N.to_nat (c - 48).

(** The capture [i] (counted from 1) when there is one. *)
Definition capture (caps : list str) (i : nat) : option str :=
  match i with
  | O => None
  | S j => caps !! j
  end.

(** GetSubstitution of ECMAScript, for a pattern without named groups:
    [$$], [$&], [$`], [$'], [$n] and [$nn] are replacement patterns, a
    two-digit reference beyond the number of groups is read as a one-digit
    one followed by a digit, and any other [$] stands for itself. *)
Fixpoint expand (matched pre post : str) (caps : list str) (t : str) : str :=
  match t with
  | [] => []
  | x :: t1 =>
      if negb (x =? 36)%N then x :: expand matched pre post caps t1
      else
        match t1 with
        | [] => [x]
        | y :: t2 =>
            if (y =? 36)%N then 36%N :: expand matched pre post caps t2
            else if (y =? 38)%N then matched ++ expand matched pre post caps t2
            else if (y =? 96)%N then pre ++ expand matched pre post caps t2
            else if (y =? 39)%N then post ++ expand matched pre post caps t2
            else if is_digit y then
              let one :=
                match capture caps (digit_val y) with
                | Some g => g ++ expand matched pre post caps t2
                | None => x :: y :: expand matched pre post caps t2
                end in
              match t2 with
              | z :: t3 =>
                  if is_digit z then
                    let idx := (10 * digit_val y + digit_val z)%nat in
                    if (length caps <? idx)%nat then one
                    else
                      match capture caps idx with
                      | Some g => g ++ expand matched pre post caps t3
                      | None => x :: y :: z :: expand matched pre post caps t3
                      end
                  else one
              | [] => one
              end
            else x :: expand matched pre post caps t1
        end
  end.

(** [s.replace(r, template)] for a regular expression without the [g]
    flag whose capture groups are the atom ranges [groups]. *)
Definition replace_re (r : regex) (groups : list (nat * nat)) (template s : str)
  : str :=
  match exec r s with
  | None => s
  | Some f =>
      before f
      ++ expand (whole f) (before f) (after f)
           (map (fun g => group g.1 g.2 (parts f)) groups) template
      ++ after f
  end.

(** [s.replace(pattern, template)] for a string pattern: the first
    occurrence only, the template expanded without capture groups. *)
Definition replace_str (pattern template s : str) : str :=
  match index_of pattern s with
  | None => s
  | Some (pre, post) => pre ++ expand pattern pre post [] template ++ post
  end.

End Replace.

(** ** [release-version-actions.js]: the functions on the manifest text *)

Module Pom.
Import Js Re Replace.

Record coords := Coords { groupId : str; artifactId : str }.

(** [!s] for a string: only the empty string is falsy. *)
Definition falsy (s : str) : bool := match s with [] => true | _ => false end.

(** [parseMavenCoords]: [null] is [None]. *)
Definition parseMavenCoords (projectName : str) : option coords :=
  if falsy projectName || negb (includes (lit ":") projectName) then None
  else
    match take 2 (split_on (ch ":") projectName) with
    | [g; a] => if falsy g || falsy a then None else Some (Coords g a)
    | _ => None
    end.

(** The coordinate parser as section 4.1 of the specification words it:
    the name is split at the first [:], and the result is [null] when there
    is no [:] or a half is empty. *)
Definition parseCoordinate_spec (projectName : str) : option coords :=
  match index_of (lit ":") projectName with
  | Some (namespace, name) =>
      if falsy namespace || falsy name then None else Some (Coords namespace name)
  | None => None
  end.

(** The pattern of [readProjectVersionFromPom] and
    [updateProjectVersionInPom].  [escapeRegExp] puts a backslash before
    every character that is an operator of the pattern syntax, so that the
    escaped coordinate stands for its own text: a literal. *)
Definition project_pattern (c : coords) : regex :=
  [ Lit (lit "<groupId>"); Star is_space; Lit (groupId c); Star is_space;
    Lit (lit "</groupId>"); Lazy any;
    Lit (lit "<artifactId>"); Star is_space; Lit (artifactId c); Star is_space;
    Lit (lit "</artifactId>"); Star is_space; Lit (lit "<version>");
    Plus not_lt; Lit (lit "</version>") ].

(** [match?.[1] ?? null]: the only group is the version text. *)
Definition readProjectVersionFromPom (pomXml : str) (c : coords) : option str :=
  (fun f => group 13 1 (parts f)) <$> exec (project_pattern c) pomXml.

(** The three groups of the pattern of [updateProjectVersionInPom]. *)
Definition project_groups : list (nat * nat) := [(0, 13); (13, 1); (14, 1)]%nat.

(** The template [`$1${newVersion}$3`]. *)
Definition version_template (newVersion : str) : str :=
  lit "$1" ++ newVersion ++ lit "$3".

Definition updateProjectVersionInPom (pomXml : str) (c : coords)
  (newVersion : str) : option str :=
  if negb (test (project_pattern c) pomXml) then None
  else Some (replace_re (project_pattern c) project_groups
               (version_template newVersion) pomXml).

(** The pattern that narrows to a [<dependency>] block. *)
Definition dependency_pattern (c : coords) : regex :=
  [ Lit (lit "<dependency>"); Star is_space; Lazy any;
    Lit (lit "<groupId>"); Star is_space; Lit (groupId c); Star is_space;
    Lit (lit "</groupId>"); Star is_space; Lazy any;
    Lit (lit "<artifactId>"); Star is_space; Lit (artifactId c); Star is_space;
    Lit (lit "</artifactId>"); Lazy any; Lit (lit "</dependency>") ].

(** [/<version>\s*([^<]+)\s*<\/version>/] and its grouping in the update. *)
Definition block_version_pattern : regex :=
  [ Lit (lit "<version>"); Star is_space; Plus not_lt; Star is_space;
    Lit (lit "</version>") ].

Definition block_version_groups : list (nat * nat) :=
  [(0, 2); (2, 1); (3, 2)]%nat.

Definition readDependencyVersionFromPom (pomXml : str) (c : coords)
  : option str :=
  match exec (dependency_pattern c) pomXml with
  | None => None
  | Some f =>
      (fun v => group 2 1 (parts v)) <$> exec block_version_pattern (whole f)
  end.

Definition updateDependencyVersionInPom (pomXml : str) (c : coords)
  (newVersion : str) : option str :=
  match exec (dependency_pattern c) pomXml with
  | None => None
  | Some f =>
      let depBlock := whole f in
      if test block_version_pattern depBlock then
        let updatedBlock :=
          replace_re block_version_pattern block_version_groups
            (version_template newVersion) depBlock in
        Some (replace_str depBlock updatedBlock pomXml)
      else Some pomXml
  end.

End Pom.

(** ** Files *)

Module Files.
Import Js.

(** A file system, or the staged files of an Nx tree: the text of every
    file that exists, by path. *)
Abbreviation files := (gmap str str).

(** [path.join], without the normalisation of [.] and [..] segments. *)
Definition join (dir name : str) : str := dir ++ lit "/" ++ name.

Definition exists_file (fs : files) (path : str) : bool :=
  match fs !! path with Some _ => true | None => false end.

End Files.

(** ** [release-version-actions.js]: the class [MavenVersionActions] *)

Module Actions.
Import Js Re Replace Pom Files.

(** The conditions the methods throw an [Error] for. *)
Inductive error :=
  | NoCoordinates (projectName : str)
  | CannotReadManifest (path : str)
  | CannotUpdateVersion (projectName path : str).

(** The lines the methods return for the log. *)
Inductive message :=
  | VersionWritten (newVersion path : str)
  | DependenciesUpdated (count : nat) (path : str).

(** A method run: the tree as the method leaves it, and what it returned
    or threw. *)
Record run (A : Type) := Run { tree_after : files; outcome : A + error }.
Arguments Run {A}.
Arguments tree_after {A}.
Arguments outcome {A}.

(** [readText]: a missing file reads as [null]. *)
Definition readText (tree : files) (path : str) : option str := tree !! path.

Definition writeText (tree : files) (path content : str) : files :=
  <[path := content]> tree.

(** The loop of [updateProjectVersion] over [manifestsToUpdate]. *)
Fixpoint update_manifests (projectName : str) (c : coords) (newVersion : str)
  (manifests : list str) (tree : files) (log : list message)
  : run (list message) :=
  match manifests with
  | [] => Run tree (inl log)
  | path :: rest =>
      match readText tree path with
      | None => Run tree (inr (CannotReadManifest path))
      | Some pomXml =>
          if falsy pomXml then Run tree (inr (CannotReadManifest path))
          else
            match updateProjectVersionInPom pomXml c newVersion with
            | None => Run tree (inr (CannotUpdateVersion projectName path))
            | Some updated =>
                if falsy updated
                then Run tree (inr (CannotUpdateVersion projectName path))
                else update_manifests projectName c newVersion rest
                       (writeText tree path updated)
                       (log ++ [VersionWritten newVersion path])
            end
      end
  end.

Definition updateProjectVersion (projectName : str) (manifestsToUpdate : list str)
  (tree : files) (newVersion : str) : run (list message) :=
  match parseMavenCoords projectName with
  | None => Run tree (inr (NoCoordinates projectName))
  | Some c => update_manifests projectName c newVersion manifestsToUpdate tree []
  end.

(** The inner loop of [updateProjectDependencies] over the dependencies. *)
Fixpoint update_dependencies (deps : list (str * str)) (pomXml : str)
  (updatedCount : nat) : str * nat :=
  match deps with
  | [] => (pomXml, updatedCount)
  | (depProjectName, newVersion) :: rest =>
      match parseMavenCoords depProjectName with
      | None => update_dependencies rest pomXml updatedCount
      | Some c =>
          match updateDependencyVersionInPom pomXml c newVersion with
          | Some updatedPom =>
              if bool_decide (updatedPom = pomXml)
              then update_dependencies rest pomXml updatedCount
              else update_dependencies rest updatedPom (S updatedCount)
          | None => update_dependencies rest pomXml updatedCount
          end
      end
  end.

Fixpoint update_dependency_manifests (deps : list (str * str))
  (manifests : list str) (tree : files) (log : list message)
  : run (list message) :=
  match manifests with
  | [] => Run tree (inl log)
  | path :: rest =>
      match readText tree path with
      | None => Run tree (inr (CannotReadManifest path))
      | Some pomXml =>
          if falsy pomXml then Run tree (inr (CannotReadManifest path))
          else
            let '(updated, count) := update_dependencies deps pomXml 0 in
            match count with
            | O => update_dependency_manifests deps rest tree log
            | S _ =>
                update_dependency_manifests deps rest
                  (writeText tree path updated)
                  (log ++ [DependenciesUpdated count path])
            end
      end
  end.

Definition updateProjectDependencies (manifestsToUpdate : list str)
  (tree : files) (dependenciesToUpdate : list (str * str)) : run (list message) :=
  match dependenciesToUpdate with
  | [] => Run tree (inl [])
  | _ => update_dependency_manifests dependenciesToUpdate manifestsToUpdate tree []
  end.

End Actions.

(** ** [scripts/sync-pom-version.js]: the sync script *)

Module Sync.
Import Js Re Replace Files.

(** What the script prints. *)
Inductive line :=
  | NoPomFound (projectRoot : str)
  | PomUpdated (oldVersion newVersion : str)
  | NoVersionTag.

(** [/(<version>)([\d\.\-a-zA-Z]+)(<\/version>)/] *)
Definition versionRegex : regex :=
  [Lit (lit "<version>"); Plus is_version_char; Lit (lit "</version>")].

Definition versionGroups : list (nat * nat) := [(0, 1); (1, 1); (2, 1)]%nat.

(** [updatePomVersion] returns nothing and throws nothing of its own: a run
    is the file system and the output it leaves. *)
Definition updatePomVersion (fs : files) (projectRoot newVersion : str)
  : files * list line :=
  let pomPath := join projectRoot (lit "pom.xml") in
  match fs !! pomPath with
  | None => (fs, [NoPomFound projectRoot])
  | Some pomContent =>
      match exec versionRegex pomContent with
      | Some m =>
          let oldVersion := group 1 1 (parts m) in
          let updated :=
            replace_re versionRegex versionGroups
              (Pom.version_template newVersion) pomContent in
          (<[pomPath := updated]> fs, [PomUpdated oldVersion newVersion])
      | None => (fs, [NoVersionTag])
      end
  end.

End Sync.

(** ** [scripts/sync-pom-version.js]: the version plans of the release script *)

Module Plans.
Import Js Re.

(** A JavaScript [Map] with string keys: the entries in insertion order,
    every key once.  [set] on a key that is present replaces the value and
    keeps the position. *)
Definition jsmap := list (str * str).

Fixpoint map_set (m : jsmap) (k v : str) : jsmap :=
  match m with
  | [] => [(k, v)]
  | (k', v') :: m' =>
      if bool_decide (k' = k) then (k', v) :: m' else (k', v') :: map_set m' k v
  end.

Fixpoint map_get (m : jsmap) (k : str) : option str :=
  match m with
  | [] => None
  | (k', v') :: m' => if bool_decide (k' = k) then Some v' else map_get m' k
  end.

(** [/^---\s*\n([\s\S]*?)\n---/]: [^] without the [m] flag holds at the
    start of the text only, so the pattern is matched there. *)
Definition header_pattern : regex :=
  [Lit (lit "---"); Star is_space; Lit [10%N]; Lazy any; Lit (10%N :: lit "---")].

Definition header (content : str) : option str :=
  group 3 1 <$> match_here header_pattern content.

(** The pattern of a header line: a quote, single or double; the project
    name, one or more code units that are not quotes; a quote; [\s*:\s*];
    the specifier [(\w+)]. *)
Definition line_pattern : regex :=
  [One is_quote; Plus not_quote; One is_quote; Star is_space; Lit (lit ":");
   Star is_space; Plus is_word].

(** The entry of a header line: [(projectName, specifier)]. *)
Definition line_entry (line : str) : option (str * str) :=
  (fun f => (group 1 1 (parts f), group 6 1 (parts f)))
    <$> exec line_pattern line.

(** The loop over the lines of one header. *)
Fixpoint add_lines (lines : list str) (m : jsmap) : jsmap :=
  match lines with
  | [] => m
  | line :: rest =>
      match line_entry line with
      | Some (projectName, specifier) =>
          add_lines rest (map_set m projectName specifier)
      | None => add_lines rest m
      end
  end.

(** One plan file. *)
Definition add_file (content : str) (m : jsmap) : jsmap :=
  match header content with
  | Some yamlContent => add_lines (split_on 10%N yamlContent) m
  | None => m
  end.

(** The loop over [planFiles], on the texts of the files in that order. *)
Fixpoint add_files (contents : list str) (m : jsmap) : jsmap :=
  match contents with
  | [] => m
  | content :: rest => add_files rest (add_file content m)
  end.

Definition projectsToRelease (contents : list str) : jsmap :=
  add_files contents [].

End Plans.

(** ** [scripts/sync-pom-version.js]: the release script *)

Module Release.
Import Js Re Replace Files Plans.

(** The commands the script hands to [execSync]. *)
Inductive command :=
  | NxReleaseVersion (preid : option str)
  | NxReleaseChangelog (version projectName : str)
  | NpmInstallLockOnly.

(** What the script works on: the files and directories of the workspace,
    and the entries of [.nx/version-plans] (name and text, in the order
    [readdirSync] lists them; [None] when the directory is missing). *)
Record world := World {
  files_of : files;
  dirs_of : list str;
  plans_of : option (list (str * str))
}.

(** What the script does to its surroundings, in order. *)
Inductive event :=
  | Executed (c : command) (ok : bool)
  | Unlinked (planFile : str).

(** How the process ends: [process.exit(code)], or the exception of
    [fs.unlinkSync] in the loop that deletes the plans, which nobody
    catches.  (The listing of the plans and their texts are part of the
    world: [readdirSync] and [readFileSync], which come before every
    command, do not fail in it.) *)
Inductive ending := Exited (code : nat) | UnlinkThrew.

Record result := Result {
  final : world;
  trace : list event;
  ended : ending
}.

Definition is_unlink (e : event) : bool :=
  match e with Unlinked _ => true | Executed _ _ => false end.

Definition is_lockfile_refresh (e : event) : bool :=
  match e with Executed NpmInstallLockOnly _ => true | _ => false end.

Section Script.
(** [process.cwd()] *)
Variable workspaceRoot : str.
(** [execSync]: the world a command leaves, [None] when it fails (and
    [execSync] throws). *)
Variable exec_sync : command -> world -> option world.
(** [JSON.parse(text).version]: [None] when the text does not parse,
    [Some None] when the object has no [version]. *)
Variable json_version : str -> option (option str).

Definition isDryRun (args : list str) : bool :=
  existsb (fun a => bool_decide (a = lit "--dry-run")) args.

(** [args[args.indexOf('--preid') + 1]] *)
Fixpoint after_preid (args : list str) : option str :=
  match args with
  | [] => None
  | a :: rest =>
      if bool_decide (a = lit "--preid") then head rest else after_preid rest
  end.

(** The [preid] the commands are built with: [undefined] and the empty
    string are both falsy. *)
Definition preid (args : list str) : option str :=
  match after_preid args with
  | Some p => if Pom.falsy p then None else Some p
  | None => None
  end.

Definition exists_path (w : world) (path : str) : bool :=
  exists_file (files_of w) path || bool_decide (path ∈ dirs_of w).

(** [.], without the [s] flag: anything but a line terminator. *)
Definition not_newline (c : char) : bool :=
  negb ((c =? 10) || (c =? 13) || (c =? 8232) || (c =? 8233))%N.

(** [/@selfcare\/infra-(\w+)-(.+)/] *)
Definition infra_pattern : regex :=
  [Lit (lit "@selfcare/infra-"); Plus is_word; Lit (lit "-"); Plus not_newline].

(** [/<artifactId>[^<]+<\/artifactId>\s*<version>([^<]+)<\/version>/] *)
Definition artifact_pattern : regex :=
  [Lit (lit "<artifactId>"); Plus not_lt; Lit (lit "</artifactId>");
   Star is_space; Lit (lit "<version>"); Plus not_lt; Lit (lit "</version>")].

Definition project_root (w : world) (projectName : str) : option str :=
  let appPath :=
    join (join workspaceRoot (lit "apps"))
      (replace_str (lit "@selfcare/") [] projectName) in
  if exists_path w appPath then Some appPath
  else
    match exec infra_pattern projectName with
    | Some m =>
        let env := group 1 1 (parts m) in
        let msName := group 3 1 (parts m) in
        let infraPath :=
          join (join (join workspaceRoot (lit "infra/resources")) env) msName in
        if exists_path w infraPath then Some infraPath else None
    | None => None
    end.

(** The version of a project as the manifests on disk give it; [None]
    when it is missing, falsy, or reading it throws (the loop catches). *)
Definition read_version (w : world) (projectRoot : str) : option str :=
  let version :=
    match files_of w !! join projectRoot (lit "pom.xml") with
    | Some pomContent =>
        (fun m => group 5 1 (parts m)) <$> exec artifact_pattern pomContent
    | None =>
        match files_of w !! join projectRoot (lit "package.json") with
        | Some text => mjoin (json_version text)
        | None => None
        end
    end in
  match version with
  | Some v => if Pom.falsy v then None else Some v
  | None => None
  end.

(** Step 2: [updatedVersions]. *)
Fixpoint read_versions (w : world) (projects : jsmap) (updated : jsmap)
  : jsmap :=
  match projects with
  | [] => updated
  | (projectName, _) :: rest =>
      match project_root w projectName with
      | None => read_versions w rest updated
      | Some root =>
          match read_version w root with
          | Some version =>
              read_versions w rest (map_set updated projectName version)
          | None => read_versions w rest updated
          end
      end
  end.

(** Step 3: a changelog for every updated project; a failure is caught
    and the loop goes on. *)
Fixpoint changelogs (updated : jsmap) (w : world) (tr : list event)
  : world * list event :=
  match updated with
  | [] => (w, tr)
  | (projectName, version) :: rest =>
      let c := NxReleaseChangelog version projectName in
      match exec_sync c w with
      | Some w' => changelogs rest w' (tr ++ [Executed c true])
      | None => changelogs rest w (tr ++ [Executed c false])
      end
  end.

(** [fs.unlinkSync] on an entry of the plan directory. *)
Definition unlink (planFile : str) (w : world) : option world :=
  match plans_of w with
  | Some entries =>
      if existsb (fun e => bool_decide (e.1 = planFile)) entries
      then Some (World (files_of w) (dirs_of w)
                   (Some (filter (fun e => e.1 <> planFile) entries)))
      else None
  | None => None
  end.

(** Step 4: the plan files are deleted one by one. *)
Fixpoint delete_plans (planFiles : list str) (w : world) (tr : list event)
  : world * list event * bool :=
  match planFiles with
  | [] => (w, tr, true)
  | file :: rest =>
      match unlink file w with
      | Some w' => delete_plans rest w' (tr ++ [Unlinked file])
      | None => (w, tr, false)
      end
  end.

(** Step 5 and the end of the script. *)
Definition refresh_lockfile (dry : bool) (w : world) (tr : list event)
  : result :=
  if dry then Result w tr (Exited 0)
  else
    match exec_sync NpmInstallLockOnly w with
    | Some w' => Result w' (tr ++ [Executed NpmInstallLockOnly true]) (Exited 0)
    | None => Result w (tr ++ [Executed NpmInstallLockOnly false]) (Exited 1)
    end.

(** Steps 2 to 5, once the version changes are applied. *)
Definition after_version (dry : bool) (planFiles : list str)
  (projects : jsmap) (w : world) (tr : list event) : result :=
  let updated := read_versions w projects [] in
  if dry then refresh_lockfile dry w tr
  else
    let '(w1, tr1) := changelogs updated w tr in
    let '(w2, tr2, deleted) := delete_plans planFiles w1 tr1 in
    if deleted then refresh_lockfile dry w2 tr2 else Result w2 tr2 UnlinkThrew.

(** The script. *)
Definition release (args : list str) (w : world) : result :=
  let dry := isDryRun args in
  match plans_of w with
  | None => Result w [] (Exited 1)
  | Some entries =>
      let plans := filter (fun e => ends_with (lit ".md") e.1 = true) entries in
      match plans with
      | [] => Result w [] (Exited 1)
      | _ =>
          let projects := projectsToRelease (map snd plans) in
          match projects with
          | [] => Result w [] (Exited 1)
          | _ =>
              let versionCmd := NxReleaseVersion (preid args) in
              if dry then after_version dry (map fst plans) projects w []
              else
                match exec_sync versionCmd w with
                | Some w' =>
                    after_version dry (map fst plans) projects w'
                      [Executed versionCmd true]
                | None => Result w [Executed versionCmd false] (Exited 1)
                end
          end
      end
  end.
End Script.

End Release.

(** ** [version-resolver.js] *)

Module Resolver.
Import Js Re Replace Files.

Inductive error :=
  | PomNotFound (path : str)
  | VersionNotInPom (path : str)
  | PackageJsonNotFound (path : str)
  | JsonSyntax (path : str)
  | NoVersionField (path : str).

Section Host.
(** [path.relative(process.cwd(), path)] *)
Variable relative : str -> str.
(** [JSON.parse(text).version]: [None] when the text does not parse,
    [Some None] when the object has no [version]. *)
Variable json_version : str -> option (option str).
(** [JSON.stringify] of the parsed text with [version] set, indented by
    two; [None] when the text does not parse. *)
Variable json_with_version : str -> str -> option str.

Definition isMavenProject (disk : files) (projectRoot : str) : bool :=
  exists_file disk (join projectRoot (lit "pom.xml")).

(** [/<artifactId>[^<]+<\/artifactId>\s*<version>([^<]+)<\/version>/],
    and its two groups in [setVersionInPom]. *)
Definition artifact_pattern : regex :=
  [Lit (lit "<artifactId>"); Plus not_lt; Lit (lit "</artifactId>");
   Star is_space; Lit (lit "<version>"); Plus not_lt; Lit (lit "</version>")].

Definition artifact_groups : list (nat * nat) := [(0, 5); (6, 1)]%nat.

(** The template [`$1${newVersion}$2`]. *)
Definition artifact_template (newVersion : str) : str :=
  lit "$1" ++ newVersion ++ lit "$2".

Definition getVersionFromPom (disk : files) (projectRoot : str)
  : str + error :=
  let pomPath := join projectRoot (lit "pom.xml") in
  match disk !! pomPath with
  | None => inr (PomNotFound pomPath)
  | Some pomContent =>
      match exec artifact_pattern pomContent with
      | None => inr (VersionNotInPom pomPath)
      | Some m => inl (group 5 1 (parts m))
      end
  end.

Definition getVersionFromPackageJson (disk : files) (projectRoot : str)
  : str + error :=
  let packagePath := join projectRoot (lit "package.json") in
  match disk !! packagePath with
  | None => inr (PackageJsonNotFound packagePath)
  | Some text =>
      match json_version text with
      | None => inr (JsonSyntax packagePath)
      | Some None => inr (NoVersionField packagePath)
      | Some (Some v) =>
          if Pom.falsy v then inr (NoVersionField packagePath) else inl v
      end
  end.

Definition getVersion (disk : files) (projectRoot : str) : str + error :=
  if isMavenProject disk projectRoot then getVersionFromPom disk projectRoot
  else getVersionFromPackageJson disk projectRoot.

(** The disk and the tree (when one is passed) of a write. *)
Record store := Store { disk : files; tree : option files }.

(** The text to rewrite: from the tree if it has the file, else from disk. *)
Definition current_text (st : store) (path : str) (on_disk : str) : str :=
  match tree st with
  | Some t => match t !! relative path with Some c => c | None => on_disk end
  | None => on_disk
  end.

(** Into the tree if there is one, else onto the disk. *)
Definition write (st : store) (path content : str) : store :=
  match tree st with
  | Some t => Store (disk st) (Some (<[relative path := content]> t))
  | None => Store (<[path := content]> (disk st)) None
  end.

Definition setVersionInPom (st : store) (projectRoot newVersion : str)
  : store + error :=
  let pomPath := join projectRoot (lit "pom.xml") in
  match disk st !! pomPath with
  | None => inr (PomNotFound pomPath)
  | Some on_disk =>
      let pomContent := current_text st pomPath on_disk in
      inl (write st pomPath
             (replace_re artifact_pattern artifact_groups
                (artifact_template newVersion) pomContent))
  end.

Definition setVersionInPackageJson (st : store) (projectRoot newVersion : str)
  : store + error :=
  let packagePath := join projectRoot (lit "package.json") in
  match disk st !! packagePath with
  | None => inr (PackageJsonNotFound packagePath)
  | Some on_disk =>
      match json_with_version (current_text st packagePath on_disk) newVersion with
      | None => inr (JsonSyntax packagePath)
      | Some text => inl (write st packagePath (text ++ [10%N]))
      end
  end.

Definition setVersion (st : store) (projectRoot newVersion : str)
  : store + error :=
  if isMavenProject (disk st) projectRoot
  then setVersionInPom st projectRoot newVersion
  else setVersionInPackageJson st projectRoot newVersion.
End Host.

End Resolver.

(** ** [generators/version/generator.js] *)

Module Generator.
Import Js Re Files Resolver.

Record project := Project { name : str; root : str }.

Record options := Options {
  specifier : option str;
  preid : option str;
  currentVersionResolver : str;
  projects : option (list project);
  specifierSource : option str
}.

(** An entry of [results]. *)
Record entry := Entry {
  currentVersion : str;
  newVersion : str;
  projectRoot : str
}.

Inductive error :=
  | NoProjects
  | UnsupportedResolver
  | ReadFailed (e : Resolver.error)
  | CannotCalculate (current spec : str)
  | WriteFailed (e : Resolver.error).

(** [parseVersionPlans]: the object [specifierMap], by its own keys.  The
    entries of the plan directory are given as for the release script. *)
Fixpoint add_lines (lines : list str) (m : gmap str str) : gmap str str :=
  match lines with
  | [] => m
  | line :: rest =>
      match Plans.line_entry line with
      | Some (projectName, spec) => add_lines rest (<[projectName := spec]> m)
      | None => add_lines rest m
      end
  end.

Fixpoint add_files (contents : list str) (m : gmap str str) : gmap str str :=
  match contents with
  | [] => m
  | content :: rest =>
      match Plans.header content with
      | Some yamlContent => add_files rest (add_lines (split_on 10%N yamlContent) m)
      | None => add_files rest m
      end
  end.

Definition parseVersionPlans (plans : option (list (str * str)))
  : gmap str str :=
  match plans with
  | None => ∅
  | Some entries =>
      add_files
        (map snd (filter (fun e => ends_with (lit ".md") e.1 = true) entries)) ∅
  end.

Section Host.
Variable workspaceRoot : str.
Variable relative : str -> str.
Variable json_version : str -> option (option str).
Variable json_with_version : str -> str -> option str.
(** [semver.valid(s)] is truthy. *)
Variable semver_valid : str -> bool.
(** [semver.inc(version, release, preid)]; [None] is [null]. *)
Variable semver_inc : str -> str -> option str -> option str.

(** A value used as a condition: [undefined] and the empty string are
    falsy. *)
Definition truthy (o : option str) : bool :=
  match o with Some s => negb (Pom.falsy s) | None => false end.

Definition valid (o : option str) : bool :=
  match o with Some s => semver_valid s | None => false end.

(** The specifier of one project: from the version plans, or the global
    one. *)
Definition projectSpecifier (o : options) (specifierMap : gmap str str)
  (p : project) : option str :=
  if bool_decide (specifierSource o = Some (lit "version-plans"))
  then Some (default [] (specifierMap !! name p))
  else specifier o.

(** The new version, before the check that there is one. *)
Definition calculate (o : options) (spec : option str) (current : str)
  : option str :=
  if valid spec then spec
  else if truthy spec then semver_inc current (default [] spec) (preid o)
  else Some current.

(** The body of the loop, for one project. *)
Definition process (o : options) (spec : option str) (p : project)
  (st : store) : (store * entry) + error :=
  let resolvedPackageRoot := join workspaceRoot (root p) in
  if negb (bool_decide (currentVersionResolver o = lit "disk"))
  then inr UnsupportedResolver
  else
    match getVersion json_version (disk st) resolvedPackageRoot with
    | inr e => inr (ReadFailed e)
    | inl current =>
        let new := calculate o spec current in
        if negb (truthy new) && truthy spec
        then inr (CannotCalculate current (default [] spec))
        else
          let written :=
            if truthy spec && negb (bool_decide (new = Some current))
            then
              match setVersion relative json_with_version st
                      resolvedPackageRoot (default [] new) with
              | inl st' => inl st'
              | inr e => inr (WriteFailed e)
              end
            else inl st in
          match written with
          | inr e => inr e
          | inl st' =>
              inl (st', Entry current
                          (if truthy new then default [] new else current)
                          (root p))
          end
    end.

(** The loop, filling the object [results]. *)
Fixpoint generate (o : options) (specifierMap : gmap str str)
  (ps : list project) (st : store) (results : gmap str entry)
  : (store * gmap str entry) + error :=
  match ps with
  | [] => inl (st, results)
  | p :: rest =>
      match process o (projectSpecifier o specifierMap p) p st with
      | inr e => inr e
      | inl (st', e) =>
          generate o specifierMap rest st' (<[name p := e]> results)
      end
  end.

(** What the generator hands back: [None] is [undefined]. *)
Definition returned := option (gmap str entry).

(** [versionGenerator] of [generator.js].  The function ends with the
    loop: there is no [return], and a call yields [undefined]. *)
Definition versionGenerator (plans : option (list (str * str)))
  (o : options) (st : store) : (store * returned) + error :=
  match projects o with
  | None | Some [] => inr NoProjects
  | Some ps =>
      let specifierMap :=
        if bool_decide (specifierSource o = Some (lit "version-plans"))
        then parseVersionPlans plans else ∅ in
      match generate o specifierMap ps st ∅ with
      | inr e => inr e
      | inl (st', _) => inl (st', None)
      end
  end.

(** [versionGenerator] of the variant without version plans: every
    project takes the global specifier, and the results are returned as
    [data]. *)
Definition versionGenerator_data (o : options) (st : store)
  : (store * returned) + error :=
  match projects o with
  | None | Some [] => inr NoProjects
  | Some ps =>
      let o' := Options (specifier o) (preid o) (currentVersionResolver o)
                  (projects o) None in
      match generate o' ∅ ps st ∅ with
      | inr e => inr e
      | inl (st', results) => inl (st', Some results)
      end
  end.
End Host.

End Generator.

(** ** The increment of the semver package *)

Module Semver.
Import Js.

(** A prerelease identifier: numeric or alphanumeric. *)
Inductive identifier := Numeric (n : N) | Alphanumeric (s : str).

(** A parsed semantic version, [MAJOR.MINOR.PATCH[-PRERELEASE][+BUILD]]. *)
Record version := Version {
  major : N;
  minor : N;
  patch : N;
  prerelease : list identifier;
  build : list str
}.

Inductive release := Major | Minor | Patch.

(** Modelled from the spec: [semver.inc], the increment of the third-party
    semver package that [versionGenerator] calls for a keyword.  The
    package is not among the sources.  Section 4.6: increment keywords
    follow standard semantic-versioning increment rules, major/minor/patch
    bump the respective ordinal and reset lower ordinals, zeroing/removing
    prerelease.  By the rules of the package a prerelease of the very
    release asked for is completed rather than bumped ([2.0.0-rc.1] goes
    to [2.0.0] for major), and the build metadata is not part of the
    result. *)
Definition inc (v : version) (r : release) : version :=
  match r with
  | Major =>
      let bump :=
        negb (minor v =? 0)%N || negb (patch v =? 0)%N
        || bool_decide (prerelease v = []) in
      Version (if bump then major v + 1 else major v)%N 0 0 [] []
  | Minor =>
      let bump := negb (patch v =? 0)%N || bool_decide (prerelease v = []) in
      Version (major v) (if bump then minor v + 1 else minor v)%N 0 [] []
  | Patch =>
      let bump := bool_decide (prerelease v = []) in
      Version (major v) (minor v) (if bump then patch v + 1 else patch v)%N [] []
  end.

(** The ordinals below the one a keyword bumps. *)
Definition lower (r : release) (v : version) : list N :=
  match r with
  | Major => [minor v; patch v]
  | Minor => [patch v]
  | Patch => []
  end.

(** The ordinal a keyword bumps. *)
Definition ordinal (r : release) (v : version) : N :=
  match r with
  | Major => major v
  | Minor => minor v
  | Patch => patch v
  end.

(** The ordinals above the one a keyword bumps. *)
Definition higher (r : release) (v : version) : list N :=
  match r with
  | Major => []
  | Minor => [major v]
  | Patch => [major v; minor v]
  end.

(** [v] is a prerelease of the very release the keyword asks for: it has
    a prerelease tag, and the ordinals below the one the keyword bumps are
    zero already ([2.0.0-rc.1] for major, [1.3.0-beta] for minor, any
    version with a tag for patch). *)
Definition completes (r : release) (v : version) : bool :=
  negb (bool_decide (prerelease v = []))
  && forallb (fun n => (n =? 0)%N) (lower r v).

End Semver.

(** ** [release-version-actions.js]: [escapeRegExp] *)

Module Escape.
Import Js Re Replace.

(** [s.replace(r, template)] for a regular expression with the [g] flag:
    every match in turn, from left to right.  The search goes on behind a
    match, and one code unit further when the match is empty.  [done] is
    the text before [s], for [$`]; [n] bounds the number of matches. *)
Fixpoint replace_all (n : nat) (r : regex) (groups : list (nat * nat))
  (template done s : str) : str :=
  match n with
  | O => s
  | S n' =>
      match exec r s with
      | None => s
      | Some f =>
          before f
          ++ expand (whole f) (done ++ before f) (after f)
               (map (fun g => group g.1 g.2 (parts f)) groups) template
          ++ match whole f, after f with
             | [], [] => []
             | [], x :: rest =>
                 x :: replace_all n' r groups template
                        (done ++ before f ++ [x]) rest
             | _ :: _, rest =>
                 replace_all n' r groups template
                   (done ++ before f ++ whole f) rest
             end
      end
  end.

(** The class [[.*+?^${}()|[\]\\]]: the fourteen characters that are
    operators of the pattern syntax. *)
Definition is_special (c : char) : bool :=
  existsb (N.eqb c) (lit ".*+?^${}()|[]" ++ [92%N]).

(** [value.replace(/[.*+?^${}()|[\]\\]/g, '\\$&')]: the template is a
    backslash followed by [$&]. *)
Definition escapeRegExp (value : str) : str :=
  replace_all (S (length value)) [One is_special] [] (92%N :: lit "$&") []
    value.

End Escape.

(** ** [release-version-actions.js]: the methods of the class that read *)

Module Manifest.
Import Js Re Pom Files Actions.

(** The conditions [readCurrentVersionFromSourceManifest] throws for. *)
Inductive error :=
  | PomUnreadable (projectName pomPath : str)
  | NoMavenCoordinates (projectName : str)
  | NoCurrentVersion (projectName pomPath : str).

Record source_version := SourceVersion {
  manifestPath : str;
  currentVersion : str
}.

Definition readCurrentVersionFromSourceManifest (projectName root : str)
  (tree : files) : source_version + error :=
  let coords := parseMavenCoords projectName in
  let pomPath := join root (lit "pom.xml") in
  match readText tree pomPath with
  | None => inr (PomUnreadable projectName pomPath)
  | Some pomXml =>
      if falsy pomXml then inr (PomUnreadable projectName pomPath)
      else
        match coords with
        | None => inr (NoMavenCoordinates projectName)
        | Some c =>
            match readProjectVersionFromPom pomXml c with
            | None => inr (NoCurrentVersion projectName pomPath)
            | Some v =>
                if falsy v then inr (NoCurrentVersion projectName pomPath)
                else inl (SourceVersion pomPath v)
            end
        end
  end.

(** What [readCurrentVersionFromRegistry] and
    [readCurrentVersionOfDependency] return; [None] is [null]. *)
Record registry_version := RegistryVersion {
  registryVersion : option str;
  logText : str
}.

Record dependency_version := DependencyVersion {
  dependencyVersion : option str;
  dependencyCollection : option str
}.

Definition readCurrentVersionFromRegistry : registry_version :=
  RegistryVersion None (lit "maven:registry-not-supported").

Definition readCurrentVersionOfDependency (root : str) (tree : files)
  (dependencyProjectName : str) : dependency_version :=
  match parseMavenCoords dependencyProjectName with
  | None => DependencyVersion None None
  | Some c =>
      match readText tree (join root (lit "pom.xml")) with
      | None => DependencyVersion None None
      | Some pomXml =>
          if falsy pomXml then DependencyVersion None None
          else DependencyVersion (readDependencyVersionFromPom pomXml c)
                 (Some (lit "dependencies"))
      end
  end.

End Manifest.

(** ** [scripts/sync-pom-version.js] as a program, [scripts/sync-all-poms.js]
    and [scripts/preview-release.js] *)

Module Scripts.
Import Js Re Replace Pom Files Sync.

(** A value in a template literal: [undefined] prints as its name. *)
Definition printed (v : option str) : str :=
  match v with Some s => s | None => lit "undefined" end.

(** [/<version>([\d\.\-a-zA-Z]+)<\/version>/] of the preview. *)
Definition previewRegex : regex :=
  [Lit (lit "<version>"); Plus is_version_char; Lit (lit "</version>")].

(** A word of a command line that the shell hands over as it is: made
    of letters, digits, [_], [/], [.] and [-], none of which the shell
    splits at, expands or takes as an operator; not empty, and not
    beginning with [-], which the program that is called could take for
    an option. *)
Definition is_plain_char (c : char) : bool :=
  is_word c || (c =? 47)%N || (c =? 46)%N || (c =? 45)%N.

Definition shell_plain (s : str) : bool :=
  match s with
  | [] => false
  | x :: _ => negb (x =? 45)%N
  end && forallb is_plain_char s.

(** What the preview prints for an app: the version of the [pom.xml] and
    the version it will be synchronised to. *)
Record report := Report {
  app_of : str;
  current_of : str;
  target_of : option str
}.

Section Host.
(** [path.dirname] *)
Variable dirname : str -> str.
(** [JSON.parse(text).version]: [None] when the text does not parse (or
    reading the property throws), [Some None] when there is no
    [version]. *)
Variable json_version : str -> option (option str).

(** The sync script, from [process.argv[2]] to the exit code of the
    process: 1 for the usage error and for an exception nobody catches
    (a file that cannot be read, a text that does not parse). *)
Definition sync_main (fs : files) (argv2 : option str) : files * nat :=
  match argv2 with
  | None => (fs, 1)
  | Some packageJsonPath =>
      if falsy packageJsonPath then (fs, 1)
      else
        match fs !! packageJsonPath with
        | None => (fs, 1)
        | Some text =>
            match json_version text with
            | None => (fs, 1)
            | Some version =>
                ((updatePomVersion fs (dirname packageJsonPath)
                    (printed version)).1, 0)
            end
        end
  end.

(** The state of [sync-all-poms.js]: the file system and the two
    counters. *)
Record tally := Tally {
  files_now : files;
  syncedCount : nat;
  skippedCount : nat
}.

(** The loop of [sync-all-poms.js] over the directories of [apps]; the
    sync script runs as a child process, and [execSync] throws when its
    exit code is not 0.  [syncScript] is
    [path.join(__dirname, 'sync-pom-version.js')] and [appsDir] is
    [path.join(__dirname, '..', 'apps')].  The two paths are put into a
    command line without quotes: when both are plain words, the child is
    the sync script with the path of the [package.json] as
    [process.argv[2]]; when one is not, the shell splits or interprets it,
    what is run then is not part of this model, and the result is
    [None]. *)
Fixpoint sync_all (syncScript appsDir : str) (apps : list str) (t : tally)
  : option tally :=
  match apps with
  | [] => Some t
  | name :: rest =>
      let packageJsonPath := join (join appsDir name) (lit "package.json") in
      let pomPath := join (join appsDir name) (lit "pom.xml") in
      let fs := files_now t in
      if exists_file fs packageJsonPath && exists_file fs pomPath then
        if shell_plain syncScript && shell_plain packageJsonPath then
          let '(fs', code) := sync_main fs (Some packageJsonPath) in
          match code with
          | O => sync_all syncScript appsDir rest
                   (Tally fs' (S (syncedCount t)) (skippedCount t))
          | S _ => sync_all syncScript appsDir rest
                     (Tally fs' (syncedCount t) (skippedCount t))
          end
        else None
      else if negb (exists_file fs pomPath) then
        sync_all syncScript appsDir rest
          (Tally fs (syncedCount t) (S (skippedCount t)))
      else sync_all syncScript appsDir rest t
  end.

(** The loop of [preview-release.js]: the apps whose [pom.xml] is not in
    step with their [package.json]; [None] when a [package.json] does not
    parse, and the exception ends the script. *)
Fixpoint preview (appsDir : str) (apps : list str) (fs : files)
  : option (list report) :=
  match apps with
  | [] => Some []
  | name :: rest =>
      let packageJsonPath := join (join appsDir name) (lit "package.json") in
      let pomPath := join (join appsDir name) (lit "pom.xml") in
      match fs !! packageJsonPath, fs !! pomPath with
      | Some text, Some pomContent =>
          match json_version text with
          | None => None
          | Some pkgVersion =>
              let reported :=
                match exec previewRegex pomContent with
                | Some m =>
                    let pomVersion := group 1 1 (parts m) in
                    if bool_decide (Some pomVersion = pkgVersion) then []
                    else [Report name pomVersion pkgVersion]
                | None => []
                end in
              app reported <$> preview appsDir rest fs
          end
      | _, _ => preview appsDir rest fs
      end
  end.

End Host.

End Scripts.

(** ** What a match is *)

Module ReSpec.
Import Js Re.

(** The text an atom may consume. *)
Definition piece_ok (a : atom) (p : str) : bool :=
  match a with
  | Lit l => bool_decide (p = l)
  | One c => match p with [x] => c x | _ => false end
  | Star c | Lazy c => forallb c p
  | Plus c => match p with [] => false | _ => forallb c p end
  end.

(** [ps] gives every atom of [r] a text it may consume. *)
Definition parse (r : regex) (ps : pieces) : Prop :=
  Forall2 (fun a p => piece_ok a p = true) r ps.

(** The alternative a quantifier tries first: the longer text for a greedy
    one, the shorter for a non-greedy one. *)
Definition prefer (a : atom) (p q : str) : Prop :=
  match a with
  | Star _ | Plus _ => length q < length p
  | Lazy _ => length p < length q
  | Lit _ | One _ => False
  end.

(** [prior r ps qs]: backtracking reaches the parse [ps] before [qs]. *)
Inductive prior : regex -> pieces -> pieces -> Prop :=
  | prior_here a r p q ps qs :
      prefer a p q -> prior (a :: r) (p :: ps) (q :: qs)
  | prior_next a r p ps qs :
      prior r ps qs -> prior (a :: r) (p :: ps) (p :: qs).

(** [o] is the first parse of a prefix of [s], or there is none. *)
Definition first_parse (r : regex) (s : str) (o : option pieces) : Prop :=
  match o with
  | Some ps =>
      parse r ps /\ concat ps `prefix_of` s /\
      forall qs, parse r qs -> concat qs `prefix_of` s -> qs = ps \/ prior r ps qs
  | None => forall qs, parse r qs -> ~ concat qs `prefix_of` s
  end.

(** [f] is the leftmost match in [s], with the first parse there. *)
Definition leftmost (r : regex) (s : str) (f : found) : Prop :=
  s = before f ++ whole f ++ after f /\
  first_parse r (whole f ++ after f) (Some (parts f)) /\
  forall pre post qs, s = pre ++ concat qs ++ post -> parse r qs ->
    length (before f) <= length pre.

(** *** Patterns that end in a version element

    The patterns that locate a version all end in
    [<version>([^<]+)</version>].  What comes before is made of atoms that
    never consume a [<], of tags other than [<version>], of [[\s\S]*?]
    followed by a tag, and of the literal texts that come from outside (the
    coordinates), about which nothing is known. *)

Definition lt : char := 60%N.
Definition open_tag : str := lit "<version>".
Definition open_rest : str := lit "version>".
Definition close_tag : str := lit "</version>".
Definition close_rest : str := lit "/version>".

Global Arguments open_tag : simpl never.
Global Arguments open_rest : simpl never.
Global Arguments close_tag : simpl never.
Global Arguments close_rest : simpl never.

Definition version_tail : regex := [Lit open_tag; Plus not_lt; Lit close_tag].

(** The atom cannot consume a [<]. *)
Definition free (a : atom) : bool :=
  match a with
  | Lit l => forallb not_lt l
  | One c | Star c | Plus c | Lazy c => negb (c lt)
  end.

(** The atom is a tag, and neither a beginning of [<version>] nor a
    continuation of it. *)
Definition is_tag (a : atom) : bool :=
  match a with
  | Lit (x :: t) =>
      (x =? lt)%N && forallb not_lt t
      && negb (starts_with t open_rest) && negb (starts_with open_rest t)
  | _ => false
  end.

Definition starts_lt (r : regex) : bool :=
  match r with
  | [] => true
  | Lit (x :: _) :: _ => (x =? lt)%N
  | _ => false
  end.

Inductive shape (word : str -> Prop) : regex -> Prop :=
  | shape_nil : shape word []
  | shape_free a r : free a = true -> shape word r -> shape word (a :: r)
  | shape_tag a r : is_tag a = true -> shape word r -> shape word (a :: r)
  | shape_lazy r :
      starts_lt r = true -> shape word r -> shape word (Lazy any :: r)
  | shape_word l r : word l -> shape word r -> shape word (Lit l :: r).

End ReSpec.

(** ** The vocabulary of the properties, and inputs for the examples *)

Section Vocabulary.
Import Js Re Replace ReSpec Pom Files Actions Sync Plans Release Resolver
  Generator.

(** No [<] in the text. *)
Definition lt_free (l : str) : Prop := forallb not_lt l = true.

(** A version element followed by [rest]. *)
Definition elem (v rest : str) : str :=
  lt :: open_rest ++ v ++ lt :: close_rest ++ rest.

(** What is asked of the texts from outside in a pattern [r0] followed by
    a version element, when [nv] is written into the element of the
    leftmost match: a parse of the new text that starts no later than the
    match, and in which the piece of such a text runs over the [<] of the
    element, starts where the match does and comes after it. *)
Definition words_ok (word : str -> Prop) (r0 : regex) (nv : str) : Prop :=
  forall (bef aft v : str) (ps0 : pieces),
    leftmost (r0 ++ version_tail)
      (bef ++ concat (ps0 ++ [open_tag; v; close_tag]) ++ aft)
      (Found bef (ps0 ++ [open_tag; v; close_tag]) aft) ->
    forall (pre d post q : str) (q1 q2 : pieces) (l p1 p2 : str) (r1 r2 : regex),
      word l -> bef = pre ++ d -> r0 = r1 ++ Lit l :: r2 ->
      parse r1 q1 -> parse r2 q2 -> l = p1 ++ lt :: p2 ->
      d ++ concat ps0 = concat q1 ++ p1 -> q <> [] -> lt_free q ->
      open_rest ++ nv ++ lt :: close_rest ++ aft = p2 ++ concat q2 ++ elem q post ->
      pre = bef /\
      prior (r0 ++ version_tail) (ps0 ++ [open_tag; nv; close_tag])
        ((q1 ++ l :: q2) ++ [open_tag; q; close_tag]).

(** The texts from outside in the pattern of a project: its group and its
    artifact name. *)
Definition project_word (c : coords) (l : str) : Prop :=
  l = groupId c \/ l = artifactId c.

(** The delimiter of Maven coordinates. *)
Definition colon : char := ch ":".

(** The character that starts a replacement pattern. *)
Definition dollar : char := 36%N.

(** No [$] in the text: no replacement pattern either. *)
Definition dollar_free (l : str) : Prop :=
  forallb (fun x => negb (x =? dollar)%N) l = true.

(** No replacement pattern in a text that is put into a template before
    something else: every [$] is followed by a code unit, and that is none
    of [$], [&], the backquote, the quote and the digits. *)
Fixpoint pattern_free (t : str) : bool :=
  match t with
  | [] => true
  | x :: t' =>
      (negb (x =? dollar)%N
       || match t' with
          | y :: _ =>
              negb ((y =? dollar) || (y =? 38) || (y =? 96) || (y =? 39)
                    || is_digit y)%N
          | [] => false
          end)
      && pattern_free t'
  end.

(** The characters of a version in the semantic-versioning grammar:
    digits, letters, the dot, the hyphen and the plus sign. *)
Definition is_semver_char (c : char) : bool :=
  is_digit c || is_alpha c || (c =? 46)%N || (c =? 45)%N || (c =? 43)%N.

(** The tags in the pattern of a project. *)
Definition tagA : str := lit "<groupId>".
Definition tagB : str := lit "</groupId>".
Definition tagC : str := lit "<artifactId>".
Definition tagD : str := lit "</artifactId>".

(** The pattern up to the version element. *)
Definition project_head (c : coords) : regex :=
  [ Lit (lit "<groupId>"); Star is_space; Lit (groupId c); Star is_space;
    Lit (lit "</groupId>"); Lazy any;
    Lit (lit "<artifactId>"); Star is_space; Lit (artifactId c); Star is_space;
    Lit (lit "</artifactId>"); Star is_space ].

Definition pom_ga : str :=
  lit "<groupId>g</groupId><artifactId>a</artifactId><version>1.0.0</version>".

Definition coords_ga : coords := Coords (lit "g") (lit "a").

(** A project without a version of its own, and a dependency that has the
    artifact name of the project. *)
Definition pom_inherited : str :=
  lit "<groupId>g</groupId><artifactId>a</artifactId><dependencies><dependency><groupId>h</groupId><artifactId>a</artifactId><version>1.0.0</version></dependency></dependencies>".

Definition pom_inherited_updated : str :=
  lit "<groupId>g</groupId><artifactId>a</artifactId><dependencies><dependency><groupId>h</groupId><artifactId>a</artifactId><version>2.0.0</version></dependency></dependencies>".

(** A project that inherits its version, with one dependency. *)
Definition pom_no_version : str :=
  lit "<project><artifactId>a</artifactId><dependencies><dependency><groupId>h</groupId><artifactId>b</artifactId><version>1.0.0</version></dependency></dependencies></project>".

Definition pom_no_version_updated : str :=
  lit "<project><artifactId>a</artifactId><dependencies><dependency><groupId>h</groupId><artifactId>b</artifactId><version>2.0.0</version></dependency></dependencies></project>".

Definition pom_at (root : str) (text : str) : files :=
  {[ join root (lit "pom.xml") := text ]}.

Definition coords_gb : coords := Coords (lit "g") (lit "b").

(** Two dependencies; the second one, [g:b], has no version of its own. *)
Definition pom_managed : str :=
  lit "<dependencies><dependency><groupId>o</groupId><artifactId>x</artifactId><version>1.0.0</version></dependency><dependency><groupId>g</groupId><artifactId>b</artifactId></dependency></dependencies>".

Definition pom_managed_updated : str :=
  lit "<dependencies><dependency><groupId>o</groupId><artifactId>x</artifactId><version>2.0.0</version></dependency><dependency><groupId>g</groupId><artifactId>b</artifactId></dependency></dependencies>".

(** Two dependencies, both with a version; the second one is [g:b]. *)
Definition pom_two : str :=
  lit "<dependencies><dependency><groupId>o</groupId><artifactId>x</artifactId><version>1.0.0</version></dependency><dependency><groupId>g</groupId><artifactId>b</artifactId><version>3.0.0</version></dependency></dependencies>".

Definition pom_two_updated : str :=
  lit "<dependencies><dependency><groupId>o</groupId><artifactId>x</artifactId><version>2.0.0</version></dependency><dependency><groupId>g</groupId><artifactId>b</artifactId><version>3.0.0</version></dependency></dependencies>".

(** The block the pattern narrows to, in [pom_two]: it begins at the first
    [<dependency>] of the text. *)
Definition block_two : str :=
  lit "<dependency><groupId>o</groupId><artifactId>x</artifactId><version>1.0.0</version></dependency><dependency><groupId>g</groupId><artifactId>b</artifactId><version>3.0.0</version></dependency>".

Definition pom_bare : str := lit "<project><artifactId>a</artifactId></project>".

Definition plan_minor : str := lit "---
'@selfcare/onboarding-ms': minor
'@selfcare/product-ms': patch
---

Add an endpoint".

Definition plan_major : str := lit "---
'@selfcare/onboarding-ms': major
---

Break the interface".

(** A workspace with one Maven project at version 1.0.0, nothing staged in
    the tree, and a call without a specifier. *)
Definition one_project : store :=
  Store (pom_at (lit "/w/apps/a") pom_ga) (Some ∅).

Definition no_specifier : options :=
  Options None None (lit "disk") (Some [Project (lit "g:a") (lit "apps/a")]) None.

Definition no_json (_ : str) : option (option str) := None.

Definition no_json_write (_ _ : str) : option str := None.

Definition never_valid (_ : str) : bool := false.

Definition no_inc (_ _ : str) (_ : option str) : option str := None.

(** A workspace with one project and one plan for it; every command but
    the changelog succeeds. *)
Definition plan_patch : str := lit "---
'@selfcare/a': patch
---

Fix a defect".

(** The text of a [package.json] that holds a version and nothing else. *)
Definition package_101 : str :=
  lit "{" ++ [34%N] ++ lit "version" ++ [34%N] ++ lit ":" ++ [34%N]
  ++ lit "1.0.1" ++ [34%N] ++ lit "}".

Definition one_plan : world :=
  World {[ lit "/w/apps/a/package.json" := package_101 ]} [lit "/w/apps/a"]
    (Some [(lit "feature.md", plan_patch)]).

Definition changelog_fails (c : command) (w : world) : option world :=
  match c with
  | NxReleaseChangelog _ _ => None
  | _ => Some w
  end.

(** [JSON.parse(text).version], for the one text of the example. *)
Definition version_101 (text : str) : option (option str) :=
  if bool_decide (text = package_101) then Some (Some (lit "1.0.1")) else None.

End Vocabulary.

(** ** Further vocabulary *)

Section Reading.
Import Js Re Replace ReSpec Pom Files Actions Sync Plans Release Resolver
  Generator Escape Manifest Scripts.

(** A version plan in the form the parsers are written for (the comment
    of [parseVersionPlans] gives the line, with the name in quotes, a
    colon and the keyword): between two lines of three dashes, one line
    for every project, the name in single quotes, a colon, a space and
    the specifier; the text of the change follows. *)
Definition render_line (e : str * str) : str :=
  39%N :: e.1 ++ 39%N :: lit ": " ++ e.2.

Fixpoint join_lines (lines : list str) : str :=
  match lines with
  | [] => []
  | [l] => l
  | l :: rest => l ++ 10%N :: join_lines rest
  end.

Definition render_plan (entries : list (str * str)) (body : str) : str :=
  lit "---" ++ 10%N :: join_lines (map render_line entries)
    ++ 10%N :: lit "---" ++ body.

(** An entry that can be written so: a name that is not empty and holds
    no quote and no line feed, a specifier of word characters that is not
    empty. *)
Definition well_formed (e : str * str) : bool :=
  negb (falsy e.1)
  && forallb (fun x => not_quote x && negb (x =? 10)%N) e.1
  && negb (falsy e.2) && forallb is_word e.2.

(** A replacement text without replacement patterns for a search by
    text: no [$] before a [$], a [&], a backquote or a quote.  (Without
    groups, a [$] before a digit stands for itself.) *)
Fixpoint no_pattern (t : str) : bool :=
  match t with
  | [] => true
  | x :: t' =>
      (negb (x =? 36)%N
       || match t' with
          | y :: _ => negb ((y =? 36) || (y =? 38) || (y =? 96) || (y =? 39))%N
          | [] => true
          end)
      && no_pattern t'
  end.

(** A relative path that [path.join] leaves as it is when it puts a file
    name behind it: segments separated by single [/], none of them empty,
    [.] or [..] (as [apps/a]; not the empty path, [.], [a/], [a//b] or
    [a/../b], which [path.join] normalises). *)
Definition plain_path (p : str) : bool :=
  forallb
    (fun segment =>
       negb (falsy segment) && negb (bool_decide (segment = lit "."))
       && negb (bool_decide (segment = lit "..")))
    (split_on 47%N p).

(** [path.dirname] of a path that ends in [/package.json]. *)
Definition drop_package_json (p : str) : str := take (length p - 13) p.

(** An [apps] directory with one app, whose [pom.xml] is behind its
    [package.json]. *)
Definition one_app : files :=
  {[ lit "/w/apps/a/package.json" := package_101;
     lit "/w/apps/a/pom.xml" := pom_ga ]}.

(** The two manifests of an app. *)
Definition package_of (appsDir name : str) : str :=
  join (join appsDir name) (lit "package.json").

Definition pom_of (appsDir name : str) : str :=
  join (join appsDir name) (lit "pom.xml").

(** An app the sync script can work on: if it has a [package.json], the
    text parses and holds a version made of version characters. *)
Definition syncable (json_version : str -> option (option str))
  (appsDir : str) (fs : files) (name : str) : Prop :=
  forall text : str, fs !! package_of appsDir name = Some text ->
    exists v : str, json_version text = Some (Some v) /\ v <> [] /\
      forallb is_version_char v = true.

(** An app whose [pom.xml] is in step with its [package.json]: if it has
    both, the first version element of the [pom.xml], if there is one,
    holds the version of the [package.json]. *)
Definition in_step (json_version : str -> option (option str))
  (appsDir : str) (fs : files) (name : str) : Prop :=
  forall text pom : str,
    fs !! package_of appsDir name = Some text ->
    fs !! pom_of appsDir name = Some pom ->
    exists v : str, json_version text = Some (Some v) /\
      (exec versionRegex pom = None \/
       exists f : found, exec versionRegex pom = Some f /\
         group 1 1 (parts f) = v).

(** The manifest [pom_ga] with the version 2.0.0. *)
Definition pom_ga_updated : str :=
  lit "<groupId>g</groupId><artifactId>a</artifactId><version>2.0.0</version>".

(** The pattern of the resolver up to the version element. *)
Definition artifact_head : regex :=
  [Lit (lit "<artifactId>"); Plus not_lt; Lit (lit "</artifactId>");
   Star is_space].

(** A call that asks for the version 2.0.0, and a [semver.valid] that
    knows this version only. *)
Definition only_200 (s : str) : bool := bool_decide (s = lit "2.0.0").

Definition explicit_200 : options :=
  Options (Some (lit "2.0.0")) None (lit "disk")
    (Some [Project (lit "g:a") (lit "apps/a")]) None.

(** The event of the changelog command for an entry of
    [updatedVersions], whether the command succeeded or not. *)
Definition changelog_of (entry : str * str) (e : event) : Prop :=
  exists ok : bool, e = Executed (NxReleaseChangelog entry.2 entry.1) ok.

(** The plan files of a world: the entries of the plan directory whose
    name ends in [.md]. *)
Definition plan_files (w : world) : list (str * str) :=
  match plans_of w with
  | Some entries => filter (fun e => ends_with (lit ".md") e.1 = true) entries
  | None => []
  end.

(** A version command that consumes the plans it applies. *)
Definition version_consumes_plans (c : command) (w : world) : option world :=
  match c with
  | NxReleaseVersion _ => Some (World (files_of w) (dirs_of w) (Some []))
  | _ => Some w
  end.

(** What [escapeRegExp] does to one code unit. *)
Definition escape_char (x : char) : str :=
  if is_special x then [92%N; x] else [x].

(** The text a pattern source stands for when the source is made of
    pattern characters and of syntax characters with a backslash before
    them (the PatternCharacter and the IdentityEscape of ECMAScript);
    [None] when an operator is met. *)
Fixpoint literal_source (p : str) : option str :=
  match p with
  | [] => Some []
  | x :: p' =>
      if (x =? 92)%N then
        match p' with
        | y :: p'' => if is_special y then cons y <$> literal_source p'' else None
        | [] => None
        end
      else if is_special x then None
      else cons x <$> literal_source p'
  end.

End Reading.

(** * Properties *)

(** ** The matcher finds the first parse *)

Section Matcher.
Import Js Re ReSpec.

Lemma strip_prefix_Some l s rest :
  strip_prefix l s = Some rest <-> s = l ++ rest.
Proof.
  revert s; induction l as [|a l IH]; intros [|b s]; simpl; split;
    try congruence; try discriminate.
  - destruct (N.eqb_spec a b) as [->|]; [|discriminate].
    intros H%IH. by subst.
  - intros [= -> ->]. rewrite N.eqb_refl. by apply IH.
Qed.

Lemma strip_prefix_app l rest : strip_prefix l (l ++ rest) = Some rest.
Proof. by apply strip_prefix_Some. Qed.

Lemma strip_prefix_None l s :
  strip_prefix l s = None <-> ~ l `prefix_of` s.
Proof.
  split.
  - intros H [k ->]. by rewrite strip_prefix_app in H.
  - intros H. destruct (strip_prefix l s) as [rest|] eqn:E; [|done].
    apply strip_prefix_Some in E. destruct H. by exists rest.
Qed.

Lemma parse_cons_inv a r qs :
  parse (a :: r) qs ->
  exists q qs', qs = q :: qs' /\ piece_ok a q = true /\ parse r qs'.
Proof. intros H. inversion H; subst. eauto. Qed.

Lemma parse_nil_inv qs : parse [] qs -> qs = [].
Proof. by inversion 1. Qed.

Lemma parse_cons a r q qs :
  piece_ok a q = true -> parse r qs -> parse (a :: r) (q :: qs).
Proof. by constructor. Qed.

Lemma parse_app r1 r2 ps1 ps2 :
  parse r1 ps1 -> parse r2 ps2 -> parse (r1 ++ r2) (ps1 ++ ps2).
Proof. apply Forall2_app. Qed.

Lemma parse_length r ps : parse r ps -> length ps = length r.
Proof. intros H. symmetry. by eapply Forall2_length. Qed.

(** The quantifiers, over a continuation that finds first parses. *)
Section Quantifiers.
Context (c : char -> bool) (r : regex) (k : str -> option pieces).
Hypothesis k_first : forall s, first_parse r s (k s).

Lemma greedy_first s : first_parse (Star c :: r) s (close <$> greedy c k s).
Proof.
  assert (Hstop : forall s,
    (forall q qs, parse (Star c :: r) (q :: qs) ->
       concat (q :: qs) `prefix_of` s -> q = []) ->
    first_parse (Star c :: r) s (close <$> (pair [] <$> k s))).
  { clear s. intros s Hnil. specialize (k_first s).
    destruct (k s) as [ps|]; simpl in *.
    - destruct k_first as (Hp & Hpre & Hmin). split_and!.
      + by apply parse_cons.
      + done.
      + intros qs (q & qs' & -> & Hq & Hqs)%parse_cons_inv Hqpre.
        assert (q = []) as -> by (apply (Hnil q qs'); [by apply parse_cons|done]).
        destruct (Hmin qs' Hqs Hqpre) as [->|]; [by left|].
        right. by apply prior_next.
    - intros qs (q & qs' & -> & Hq & Hqs)%parse_cons_inv Hqpre.
      assert (q = []) as -> by (apply (Hnil q qs'); [by apply parse_cons|done]).
      by apply (k_first qs'). }
  induction s as [|x s IH].
  - apply Hstop. intros q qs _ [t Ht]. simpl in Ht.
    symmetry in Ht. by apply app_eq_nil in Ht as [[? ?]%app_eq_nil _].
  - simpl. destruct (c x) eqn:Hc.
    + destruct (greedy c k s) as [[p ps]|]; simpl in *.
      * destruct IH as (Hp & Hpre & Hmin).
        apply parse_cons_inv in Hp as (? & ? & [= <- <-] & Hpok & Hps).
        split_and!.
        -- apply parse_cons; [|done]. simpl. by rewrite Hc.
        -- destruct Hpre as [t ->]. exists t. by simpl.
        -- intros qs (q & qs' & -> & Hq & Hqs)%parse_cons_inv Hqpre.
           destruct q as [|y q].
           { right. apply prior_here. simpl. lia. }
           destruct Hqpre as [t Ht]. simpl in Ht. injection Ht as -> Ht.
           simpl in Hq. apply andb_prop in Hq as [_ Hq].
           destruct (Hmin (q :: qs')) as [[= -> ->]|Hpr].
           ++ by apply parse_cons.
           ++ by exists t.
           ++ by left.
           ++ right. inversion Hpr; subst.
              ** apply prior_here. simpl in *. lia.
              ** by apply prior_next.
      * assert (Hnil : forall q qs, parse (Star c :: r) (q :: qs) ->
          concat (q :: qs) `prefix_of` (x :: s) -> q = []).
        { intros [|y q] qs (? & ? & [= <- <-] & Hq & Hqs)%parse_cons_inv
            [t Ht]; [done|].
          simpl in Ht. injection Ht as -> Ht.
          simpl in Hq. apply andb_prop in Hq as [_ Hq].
          destruct (IH (q :: qs)); [by apply parse_cons|by exists t]. }
        apply (Hstop (x :: s) Hnil).
    + apply Hstop.
      intros [|y q] qs (? & ? & [= <- <-] & Hq & Hqs)%parse_cons_inv
        [t Ht]; [done|].
      simpl in Ht. injection Ht as -> Ht. simpl in Hq. by rewrite Hc in Hq.
Qed.

Lemma lazy_first s : first_parse (Lazy c :: r) s (close <$> lazy c k s).
Proof.
  induction s as [|x s IH]; simpl.
  - pose proof (k_first []) as Hk. destruct (k []) as [ps|]; simpl in *.
    + destruct Hk as (Hp & Hpre & Hmin). split_and!; [by apply parse_cons|done|].
      intros qs (q & qs' & -> & Hq & Hqs)%parse_cons_inv [t Ht].
      symmetry in Ht. simpl in Ht.
      apply app_eq_nil in Ht as [[-> Hc']%app_eq_nil _].
      assert (Hpre' : concat qs' `prefix_of` []) by (exists []; by rewrite Hc').
      destruct (Hmin qs' Hqs Hpre') as [->|]; [by left|].
      right. by apply prior_next.
    + intros qs (q & qs' & -> & Hq & Hqs)%parse_cons_inv [t Ht].
      symmetry in Ht. simpl in Ht.
      apply app_eq_nil in Ht as [[-> Hc']%app_eq_nil _].
      apply (Hk qs' Hqs). exists []. by rewrite Hc'.
  - pose proof (k_first (x :: s)) as Hk.
    destruct (k (x :: s)) as [ps|]; simpl in *.
    + destruct Hk as (Hp & Hpre & Hmin). split_and!; [by apply parse_cons|done|].
      intros qs (q & qs' & -> & Hq & Hqs)%parse_cons_inv Hqpre.
      destruct q as [|y q].
      * destruct (Hmin qs' Hqs Hqpre) as [->|]; [by left|].
        right. by apply prior_next.
      * right. apply prior_here. simpl. lia.
    + destruct (c x) eqn:Hc; simpl.
      * destruct (lazy c k s) as [[p ps]|]; simpl in *.
        -- destruct IH as (Hp & Hpre & Hmin).
           apply parse_cons_inv in Hp as (? & ? & [= <- <-] & Hpok & Hps).
           split_and!.
           ++ apply parse_cons; [|done]. simpl. by rewrite Hc.
           ++ destruct Hpre as [t ->]. by exists t.
           ++ intros qs (q & qs' & -> & Hq & Hqs)%parse_cons_inv Hqpre.
              destruct q as [|y q].
              { destruct (Hk qs' Hqs Hqpre). }
              destruct Hqpre as [t Ht]. simpl in Ht. injection Ht as -> Ht.
              simpl in Hq. apply andb_prop in Hq as [_ Hq].
              destruct (Hmin (q :: qs')) as [[= -> ->]|Hpr].
              ** by apply parse_cons.
              ** by exists t.
              ** by left.
              ** right. inversion Hpr; subst.
                 --- apply prior_here. simpl in *. lia.
                 --- by apply prior_next.
        -- intros qs (q & qs' & -> & Hq & Hqs)%parse_cons_inv Hqpre.
           destruct q as [|y q]; [by apply (Hk qs' Hqs)|].
           destruct Hqpre as [t Ht]. simpl in Ht. injection Ht as -> Ht.
           simpl in Hq. apply andb_prop in Hq as [_ Hq].
           apply (IH (q :: qs')); [by apply parse_cons|by exists t].
      * intros qs (q & qs' & -> & Hq & Hqs)%parse_cons_inv Hqpre.
        destruct q as [|y q]; [by apply (Hk qs' Hqs)|].
        destruct Hqpre as [t Ht]. simpl in Ht. injection Ht as -> Ht.
        simpl in Hq. by rewrite Hc in Hq.
Qed.
End Quantifiers.

Lemma match_here_first r s : first_parse r s (match_here r s).
Proof.
  revert s; induction r as [|a r IH]; intros s.
  - simpl. split_and!; [constructor|by exists s|].
    intros qs ->%parse_nil_inv _. by left.
  - destruct a as [l|c|c|c|c]; simpl.
    + destruct (strip_prefix l s) as [s'|] eqn:E.
      * apply strip_prefix_Some in E as ->.
        specialize (IH s'). destruct (match_here r s') as [ps|]; simpl in *.
        -- destruct IH as (Hp & [t ->] & Hmin). split_and!.
           ++ apply parse_cons; [|done]. simpl. by apply bool_decide_eq_true.
           ++ exists t. by rewrite <- !(assoc_L (++)).
           ++ intros qs (q & qs' & -> & Hq & Hqs)%parse_cons_inv [u Hu].
              simpl in Hq. apply bool_decide_eq_true in Hq as ->.
              simpl in Hu. rewrite <- !(assoc_L (++)) in Hu.
              apply (inj (app l)) in Hu.
              destruct (Hmin qs' Hqs) as [->|]; [by exists u|by left|].
              right. by apply prior_next.
        -- intros qs (q & qs' & -> & Hq & Hqs)%parse_cons_inv [u Hu].
           simpl in Hq. apply bool_decide_eq_true in Hq as ->.
           simpl in Hu. rewrite <- !(assoc_L (++)) in Hu.
           apply (inj (app l)) in Hu.
           apply (IH qs' Hqs). by exists u.
      * apply strip_prefix_None in E.
        intros qs (q & qs' & -> & Hq & Hqs)%parse_cons_inv [u Hu].
        simpl in Hq. apply bool_decide_eq_true in Hq as ->.
        apply E. exists (concat qs' ++ u). rewrite Hu. simpl.
        by rewrite <- !(assoc_L (++)).
    + destruct s as [|x s].
      * intros qs (q & qs' & -> & Hq & Hqs)%parse_cons_inv [u Hu].
        simpl in Hq. by destruct q as [|? [|??]].
      * destruct (c x) eqn:Hc.
        -- specialize (IH s). destruct (match_here r s) as [ps|]; simpl in *.
           ++ destruct IH as (Hp & [t ->] & Hmin). split_and!.
              ** by apply parse_cons.
              ** by exists t.
              ** intros qs (q & qs' & -> & Hq & Hqs)%parse_cons_inv [u Hu].
                 simpl in Hq. destruct q as [|y [|??]]; try done.
                 simpl in Hu. injection Hu as -> Hu.
                 destruct (Hmin qs' Hqs) as [->|]; [by exists u|by left|].
                 right. by apply prior_next.
           ++ intros qs (q & qs' & -> & Hq & Hqs)%parse_cons_inv [u Hu].
              simpl in Hq. destruct q as [|y [|??]]; try done.
              simpl in Hu. injection Hu as -> Hu.
              apply (IH qs' Hqs). by exists u.
        -- intros qs (q & qs' & -> & Hq & Hqs)%parse_cons_inv [u Hu].
           simpl in Hq. destruct q as [|y [|??]]; try done.
           simpl in Hu. injection Hu as -> Hu. congruence.
    + by apply greedy_first.
    + destruct s as [|x s].
      * intros qs (q & qs' & -> & Hq & Hqs)%parse_cons_inv [u Hu].
        simpl in Hq. by destruct q.
      * destruct (c x) eqn:Hc.
        -- pose proof (greedy_first c r (match_here r) IH s) as Hg.
           destruct (greedy c (match_here r) s) as [[p ps]|]; simpl in *.
           ++ destruct Hg as (Hp & [t Ht] & Hmin).
              apply parse_cons_inv in Hp as (? & ? & [= <- <-] & Hpok & Hps).
              split_and!.
              ** apply parse_cons; [|done]. simpl in *. by rewrite Hc.
              ** exists t. simpl in *. by rewrite Ht.
              ** intros qs (q & qs' & -> & Hq & Hqs)%parse_cons_inv [u Hu].
                 destruct q as [|y q]; [done|].
                 simpl in Hu. injection Hu as -> Hu.
                 simpl in Hq. apply andb_prop in Hq as [_ Hq].
                 destruct (Hmin (q :: qs')) as [[= -> ->]|Hpr].
                 --- by apply parse_cons.
                 --- by exists u.
                 --- by left.
                 --- right. inversion Hpr; subst.
                     +++ apply prior_here. simpl in *. lia.
                     +++ by apply prior_next.
           ++ intros qs (q & qs' & -> & Hq & Hqs)%parse_cons_inv [u Hu].
              destruct q as [|y q]; [done|].
              simpl in Hu. injection Hu as -> Hu.
              simpl in Hq. apply andb_prop in Hq as [_ Hq].
              apply (Hg (q :: qs')); [by apply parse_cons|by exists u].
        -- intros qs (q & qs' & -> & Hq & Hqs)%parse_cons_inv [u Hu].
           destruct q as [|y q]; [done|].
           simpl in Hu. injection Hu as -> Hu.
           simpl in Hq. by rewrite Hc in Hq.
    + by apply lazy_first.
Qed.

Lemma prior_irrefl r ps : ~ prior r ps ps.
Proof.
  intros H. remember ps as qs eqn:E in H at 2.
  induction H as [a r p q ps qs Hpref|a r p ps qs H IH].
  - injection E as -> ->. destruct a; simpl in Hpref; lia || done.
  - injection E as ->. by apply IH.
Qed.

Lemma prior_asym r ps qs : prior r ps qs -> ~ prior r qs ps.
Proof.
  induction 1 as [a r p q ps qs Hpref|a r p ps qs H IH]; intros H2;
    inversion H2; subst.
  - destruct a; simpl in *; lia || done.
  - destruct a; simpl in *; lia || done.
  - destruct a; simpl in *; lia || done.
  - by apply IH.
Qed.

Lemma first_parse_unique r s ps qs :
  first_parse r s (Some ps) -> first_parse r s (Some qs) -> ps = qs.
Proof.
  intros (Hp & Hppre & Hpmin) (Hq & Hqpre & Hqmin).
  destruct (Hpmin qs Hq Hqpre) as [->|H1]; [done|].
  destruct (Hqmin ps Hp Hppre) as [->|H2]; [done|].
  by destruct (prior_asym _ _ _ H1).
Qed.

Lemma first_parse_here r s ps :
  first_parse r s (Some ps) -> match_here r s = Some ps.
Proof.
  intros H. pose proof (match_here_first r s) as H'.
  destruct (match_here r s) as [qs|].
  - f_equal. by eapply first_parse_unique.
  - destruct H as (Hp & Hpre & _). by destruct (H' ps).
Qed.

Lemma here_Some r s f :
  here r s = Some f ->
  before f = [] /\ s = whole f ++ after f /\ first_parse r s (Some (parts f)).
Proof.
  unfold here. pose proof (match_here_first r s) as H.
  destruct (match_here r s) as [ps|]; [|done]. intros [= <-]. simpl.
  split; [done|split; [|done]].
  destruct H as (_ & [t ->] & _). unfold whole. simpl.
  by rewrite drop_app_length.
Qed.

Lemma here_None r s qs :
  here r s = None -> parse r qs -> ~ concat qs `prefix_of` s.
Proof.
  unfold here. pose proof (match_here_first r s) as H.
  destruct (match_here r s) as [ps|]; [done|]. intros _. apply H.
Qed.

Lemma exec_leftmost r s f : exec r s = Some f -> leftmost r s f.
Proof.
  revert f; induction s as [|x s IH]; intros f; simpl.
  - destruct (here r []) as [f'|] eqn:E; [|done]. intros [= ->].
    apply here_Some in E as (Hb & Hs & Hf). unfold leftmost.
    rewrite Hb, <- Hs. split; [done|split; [done|simpl; lia]].
  - destruct (here r (x :: s)) as [f'|] eqn:E.
    + intros [= ->]. apply here_Some in E as (Hb & Hs & Hf). unfold leftmost.
      rewrite Hb, <- Hs. split; [done|split; [done|simpl; lia]].
    + destruct (exec r s) as [f'|]; [|done]. intros [= <-].
      destruct (IH f' eq_refl) as (Hs & Hf & Hmin). unfold leftmost. simpl.
      split; [by rewrite Hs at 1|split; [done|]].
      intros [|y pre] post qs Hsplit Hqs.
      * destruct (here_None _ _ qs E Hqs). by exists post.
      * simpl in Hsplit. injection Hsplit as -> Hsplit.
        specialize (Hmin pre post qs Hsplit Hqs). simpl. lia.
Qed.

Lemma exec_None r s pre post qs :
  exec r s = None -> s = pre ++ concat qs ++ post -> ~ parse r qs.
Proof.
  revert pre; induction s as [|x s IH]; intros pre; simpl.
  - destruct (here r []) as [f'|] eqn:E; [done|]. intros _ Hs Hqs.
    symmetry in Hs. apply app_eq_nil in Hs as [-> Hs].
    destruct (here_None _ _ qs E Hqs). by exists post.
  - destruct (here r (x :: s)) as [f'|] eqn:E; [done|].
    destruct (exec r s) as [f'|]; [done|]. intros _ Hs Hqs.
    destruct pre as [|y pre].
    + destruct (here_None _ _ qs E Hqs). by exists post.
    + simpl in Hs. injection Hs as -> Hs. by apply (IH pre eq_refl Hs).
Qed.

Lemma leftmost_exec r s f : leftmost r s f -> exec r s = Some f.
Proof.
  intros (Hs & Hf & Hmin).
  destruct (exec r s) as [f'|] eqn:E.
  - apply exec_leftmost in E as (Hs' & Hf' & Hmin'). f_equal.
    assert (Hlen : length (before f') = length (before f)).
    { pose proof (Hmin _ _ _ Hs' (proj1 Hf')).
      pose proof (Hmin' _ _ _ Hs (proj1 Hf)). lia. }
    assert (Hb : before f' = before f /\ whole f' ++ after f' = whole f ++ after f).
    { rewrite Hs in Hs'. symmetry in Hs'. apply app_inj_1 in Hs'; [done|]. done. }
    destruct Hb as [Hb Hrest]. rewrite Hrest in Hf'.
    pose proof (first_parse_unique _ _ _ _ Hf' Hf) as Hparts.
    unfold whole in Hrest. rewrite Hparts in Hrest. apply (inj (app _)) in Hrest.
    destruct f, f'; simpl in *; congruence.
  - destruct Hf as (Hp & _). by destruct (exec_None _ _ _ _ _ E Hs).
Qed.

End Matcher.

(** ** Texts and the first [<] *)

Section Texts.
Import Js Re ReSpec.

Lemma lt_free_cons x l : lt_free (x :: l) <-> x <> lt /\ lt_free l.
Proof.
  unfold lt_free, not_lt, lt. simpl. rewrite andb_true_iff, negb_true_iff.
  by rewrite N.eqb_neq.
Qed.

Lemma lt_free_app l m : lt_free (l ++ m) <-> lt_free l /\ lt_free m.
Proof. unfold lt_free. by rewrite forallb_app, andb_true_iff. Qed.

(** A text without [<] that meets a [<] ends before it. *)
Lemma split_free (l m X rest : str) :
  l ++ m = X ++ lt :: rest -> lt_free l ->
  exists X', X = l ++ X' /\ m = X' ++ lt :: rest.
Proof.
  revert X; induction l as [|x l IH]; intros X H Hl; [by exists X|].
  apply lt_free_cons in Hl as [Hx Hl].
  destruct X as [|y X]; simpl in H; injection H as -> H; [done|].
  destruct (IH X H Hl) as (X' & -> & ->). by exists X'.
Qed.

(** Two texts without [<], each followed by one, are the same text. *)
Lemma free_run_eq (u w y z : str) :
  u ++ lt :: y = w ++ lt :: z -> lt_free u -> lt_free w -> u = w /\ y = z.
Proof.
  intros H Hu Hw. destruct (split_free _ _ _ _ H Hu) as (X' & -> & H').
  destruct X' as [|x X'].
  - rewrite app_nil_r. by injection H'.
  - simpl in H'. injection H' as <- _.
    apply lt_free_app in Hw as [_ [? _]%lt_free_cons]. done.
Qed.

(** Where a [<] of the text lies in a sequence of pieces. *)
Lemma cover (qs : pieces) (m X rest : str) :
  concat qs ++ m = X ++ lt :: rest ->
  (exists X', X = concat qs ++ X' /\ m = X' ++ lt :: rest) \/
  (exists q1 p1 p2 q2, qs = q1 ++ (p1 ++ lt :: p2) :: q2 /\
     X = concat q1 ++ p1 /\ rest = p2 ++ concat q2 ++ m).
Proof.
  revert X; induction qs as [|q qs IH]; intros X H; simpl in *.
  - left. by exists X.
  - rewrite <- (assoc_L (++)) in H.
    apply app_eq_app in H as [l [[-> H]|[-> H]]].
    + destruct l as [|x l]; simpl in H.
      * destruct (IH [] (eq_sym H)) as
          [(X'' & HX & ->)|(q1 & p1 & p2 & q2 & -> & HX & ->)].
        -- left. exists X''. rewrite <- (assoc_L (++)), <- HX. by rewrite !app_nil_r.
        -- right. exists (X :: q1), p1, p2, q2. simpl.
           rewrite <- (assoc_L (++)), <- HX. by rewrite !app_nil_r.
      * injection H as <- ->. right. exists [], X, l, qs. by simpl.
    + destruct (IH l H) as [(X'' & -> & ->)|(q1 & p1 & p2 & q2 & -> & -> & ->)].
      * left. exists X''. by rewrite <- (assoc_L (++)).
      * right. exists (q :: q1), p1, p2, q2. simpl. by rewrite <- (assoc_L (++)).
Qed.

Lemma parse_split r qs1 q qs2 :
  parse r (qs1 ++ q :: qs2) ->
  exists r1 a r2, r = r1 ++ a :: r2 /\ parse r1 qs1 /\
    piece_ok a q = true /\ parse r2 qs2.
Proof.
  intros (r1 & r' & H1 & H2 & ->)%Forall2_app_inv_r.
  inversion H2 as [|a ? r2 ? Ha H2']; subst. by exists r1, a, r2.
Qed.

Lemma parse_app_inv r1 r2 qs :
  parse (r1 ++ r2) qs ->
  exists qs1 qs2, qs = qs1 ++ qs2 /\ parse r1 qs1 /\ parse r2 qs2.
Proof. intros (q1 & q2 & ? & ? & ->)%Forall2_app_inv_l. by exists q1, q2. Qed.

Lemma free_piece a p : free a = true -> piece_ok a p = true -> lt_free p.
Proof.
  assert (Hcls : forall (c : char -> bool) l,
    negb (c lt) = true -> forallb c l = true -> lt_free l).
  { intros c l Hc. induction l as [|x l IH]; [done|]. simpl.
    intros [Hx Hl]%andb_prop. apply lt_free_cons. split; [|by apply IH].
    intros ->. by rewrite Hx in Hc. }
  destruct a as [l|c|c|c|c]; simpl; intros Hf Hp.
  - by apply bool_decide_eq_true in Hp as ->.
  - destruct p as [|x [|??]]; try done. apply (Hcls c); [done|]. simpl.
    by rewrite Hp.
  - by apply (Hcls c).
  - destruct p; [done|]. by apply (Hcls c).
  - by apply (Hcls c).
Qed.

Lemma prior_app_l r1 r2 ps1 qs1 a b :
  prior r1 ps1 qs1 -> prior (r1 ++ r2) (ps1 ++ a) (qs1 ++ b).
Proof.
  induction 1; simpl; [by apply prior_here|by apply prior_next].
Qed.

Lemma prior_app_inv r1 r2 ps1 qs1 a b :
  length ps1 = length r1 -> length qs1 = length r1 ->
  prior (r1 ++ r2) (ps1 ++ a) (qs1 ++ b) ->
  prior r1 ps1 qs1 \/ (ps1 = qs1 /\ prior r2 a b).
Proof.
  revert ps1 qs1; induction r1 as [|x r1 IH]; intros [|p ps1] [|q qs1];
    simpl; try done.
  - intros _ _ H. by right.
  - intros [= Hp] [= Hq] H. inversion H; subst.
    + left. by apply prior_here.
    + destruct (IH ps1 qs1 Hp Hq) as [?|[-> ?]]; [done| |].
      * left. by apply prior_next.
      * by right.
Qed.

Lemma prior_app_r r1 r2 l a b :
  length l = length r1 -> prior r2 a b -> prior (r1 ++ r2) (l ++ a) (l ++ b).
Proof.
  revert l; induction r1 as [|x r1 IH]; intros [|p l]; simpl; try done.
  intros [= Hl] H. apply prior_next. by apply IH.
Qed.

Lemma shape_suffix word r1 r2 : shape word (r1 ++ r2) -> shape word r2.
Proof.
  induction r1 as [|a r1 IH]; [done|]. simpl. inversion 1; subst; by apply IH.
Qed.

Lemma shape_cons_inv word a r :
  shape word (a :: r) ->
  free a = true \/ is_tag a = true \/ (a = Lazy any /\ starts_lt r = true) \/
  (exists l, a = Lit l /\ word l).
Proof. inversion 1; subst; eauto 6. Qed.

Lemma starts_with_app l m : starts_with l (l ++ m) = true.
Proof. unfold starts_with. by rewrite strip_prefix_app. Qed.

(** A tag that begins at the [<] of a [<version>] is the tag [<version>]. *)
Lemma tag_not_at_version a p1 p2 m n :
  is_tag a = true -> piece_ok a (p1 ++ lt :: p2) = true ->
  open_rest ++ n = p2 ++ m -> False.
Proof.
  intros Htag Hp He.
  destruct a as [[|x t]| | | |]; simpl in Htag, Hp; try done.
  apply andb_prop in Htag as [[[Hx Ht]%andb_prop Hn1]%andb_prop Hn2].
  apply negb_true_iff in Hn1, Hn2.
  apply bool_decide_eq_true in Hp.
  apply N.eqb_eq in Hx as ->.
  destruct p1 as [|y p1]; simpl in Hp.
  - injection Hp as ->.
    apply app_eq_app in He as [l [[He _]|[He _]]].
    + rewrite He, starts_with_app in Hn1. done.
    + rewrite He, starts_with_app in Hn2. done.
  (* a [<] inside the tag *)
  - injection Hp as -> <-.
    apply (proj1 (lt_free_app _ _)) in Ht as [_ [? _]%lt_free_cons]. done.
Qed.

(** The pieces of the version element that closes a parse. *)
Lemma parse_version_tail ps :
  parse version_tail ps ->
  exists v, ps = [open_tag; v; close_tag] /\ v <> [] /\ lt_free v.
Proof.
  intros (p1 & ? & -> & H1 & (p2 & ? & -> & H2 & (p3 & ? & -> & H3
    & ->%parse_nil_inv)%parse_cons_inv)%parse_cons_inv)%parse_cons_inv.
  simpl in *. apply bool_decide_eq_true in H1 as ->.
  apply bool_decide_eq_true in H3 as ->. exists p2.
  destruct p2; [done|]. done.
Qed.

Lemma parse_version_tail_intro v :
  v <> [] -> lt_free v -> parse version_tail [open_tag; v; close_tag].
Proof.
  intros Hv Hf. repeat apply parse_cons; try done; [|constructor].
  simpl. by destruct v.
Qed.

Lemma open_tag_eq : open_tag = lt :: open_rest.
Proof. reflexivity. Qed.

Lemma close_tag_eq : close_tag = lt :: close_rest.
Proof. reflexivity. Qed.

Lemma concat_version_tail v :
  concat [open_tag; v; close_tag]
  = lt :: open_rest ++ v ++ lt :: close_rest.
Proof. rewrite open_tag_eq, close_tag_eq. simpl. by rewrite ?app_nil_r. Qed.

Lemma cons_tail_eq (x : char) (a b : str) : x :: a = x :: b -> a = b.
Proof. congruence. Qed.

Lemma whole_elem ps0 v rest :
  concat (ps0 ++ [open_tag; v; close_tag]) ++ rest = concat ps0 ++ elem v rest.
Proof.
  rewrite concat_app, concat_version_tail. unfold elem.
  rewrite <- !(assoc_L (++)). simpl. by rewrite <- !(assoc_L (++)).
Qed.

Lemma open_rest_free : lt_free open_rest.
Proof. reflexivity. Qed.

Lemma close_rest_free : lt_free close_rest.
Proof. reflexivity. Qed.

Lemma open_close_differ m n : close_rest ++ m <> open_rest ++ n.
Proof. discriminate. Qed.

Local Opaque open_tag open_rest close_tag close_rest.

Lemma elem_inj v w y z :
  lt_free v -> lt_free w -> elem v y = elem w z -> v = w /\ y = z.
Proof.
  unfold elem. intros Hv Hw H. apply cons_tail_eq in H.
  apply (inj (app _)) in H.
  apply free_run_eq in H as [-> H]; [|done..].
  apply (inj (app _)) in H. done.
Qed.

Lemma shorter_prefix (l1 l2 a b : str) :
  l1 ++ a = l2 ++ b -> length l2 <= length l1 ->
  exists d, l1 = l2 ++ d /\ b = d ++ a.
Proof.
  intros [l [[-> ->]|[-> ->]]]%app_eq_app Hlen.
  - by exists l.
  - rewrite length_app in Hlen. destruct l; simpl in Hlen; [|lia].
    exists []. by rewrite !app_nil_r.
Qed.

Lemma forallb_any (l : str) : forallb any l = true.
Proof. by induction l. Qed.

Lemma next_lt r qs m :
  starts_lt r = true -> parse r qs -> exists y, concat qs ++ lt :: m = lt :: y.
Proof.
  destruct r as [|[[|x t]| | | |] r]; simpl; try done.
  - intros _ ->%parse_nil_inv. by exists m.
  - intros ->%N.eqb_eq (q & qs' & -> & Hq & _)%parse_cons_inv.
    simpl in Hq. apply bool_decide_eq_true in Hq as ->. simpl. eauto.
Qed.

(** *** Writing another version into the element that was found

    The leftmost match of a pattern that ends in a version element stays
    the leftmost match, with the same pieces, when the text of the element
    is replaced by another text without [<]. *)
Section Swap.
Context (r0 : regex) (bef aft v : str) (ps0 : pieces).

Let r := r0 ++ version_tail.
Let ps := ps0 ++ [open_tag; v; close_tag].
Let T := bef ++ concat ps ++ aft.

Hypothesis found_T : leftmost r T (Found bef ps aft).

Lemma swap_ps0 : parse r0 ps0.
Proof.
  destruct found_T as (_ & (Hp & _) & _). simpl in Hp.
  apply parse_app_inv in Hp as (a & b & Hab & Ha & Hb).
  apply parse_version_tail in Hb as (w & -> & _).
  apply app_inj_2 in Hab as [-> _]; done.
Qed.

Lemma swap_v_some : v <> [].
Proof.
  destruct found_T as (_ & (Hp & _) & _). simpl in Hp.
  apply parse_app_inv in Hp as (a & b & Hab & Ha & Hb).
  apply parse_version_tail in Hb as (w & -> & Hw & _).
  apply app_inj_2 in Hab as [_ [= ->]]; done.
Qed.

Lemma v_free : lt_free v.
Proof.
  destruct found_T as (_ & (Hp & _) & _). simpl in Hp.
  apply parse_app_inv in Hp as (a & b & Hab & Ha & Hb).
  apply parse_version_tail in Hb as (w & -> & _ & Hw).
  apply app_inj_2 in Hab as [_ [= ->]]; done.
Qed.

(** A parse in the old text that starts no later than the match. *)
Lemma old_side pre post qs :
  T = pre ++ concat qs ++ post -> parse r qs -> length pre <= length bef ->
  pre = bef /\ (qs = ps \/ prior r ps qs).
Proof.
  intros HT Hqs Hlen. destruct found_T as (_ & (_ & _ & Hmin) & Hleft).
  simpl in *. pose proof (Hleft _ _ _ HT Hqs) as Hlen'.
  unfold T in HT. apply app_inj_1 in HT as [-> HT]; [|lia].
  split; [done|]. apply Hmin; [done|]. exists post.
  unfold whole. simpl. done.
Qed.

Lemma parse_r_inv qs :
  parse r qs ->
  exists qs0 q, qs = qs0 ++ [open_tag; q; close_tag] /\ parse r0 qs0 /\
    q <> [] /\ lt_free q.
Proof.
  intros (qs0 & qt & -> & H0 & (q & -> & ? & ?)%parse_version_tail)%parse_app_inv.
  by exists qs0, q.
Qed.

Lemma parse_r_intro qs0 q :
  parse r0 qs0 -> q <> [] -> lt_free q ->
  parse r (qs0 ++ [open_tag; q; close_tag]).
Proof. intros. apply parse_app; [done|]. by apply parse_version_tail_intro. Qed.

Section NewText.
Context (word : str -> Prop) (nv : str).
Hypothesis r0_shape : shape word r0.
Hypothesis nv_free : lt_free nv.
Hypothesis nv_some : nv <> [].

Let ps' := ps0 ++ [open_tag; nv; close_tag].
Let T' := bef ++ concat ps' ++ aft.

(** A parse of the new text in which a piece for a text from outside runs
    over the [<] of the version element comes after the match. *)
Hypothesis word_ok :
  forall (pre d post q : str) (q1 q2 : pieces) (l p1 p2 : str) (r1 r2 : regex),
    word l -> bef = pre ++ d -> r0 = r1 ++ Lit l :: r2 ->
    parse r1 q1 -> parse r2 q2 -> l = p1 ++ lt :: p2 ->
    d ++ concat ps0 = concat q1 ++ p1 -> q <> [] -> lt_free q ->
    open_rest ++ nv ++ lt :: close_rest ++ aft = p2 ++ concat q2 ++ elem q post ->
    pre = bef /\ prior r ps' ((q1 ++ l :: q2) ++ [open_tag; q; close_tag]).

(** Priority is decided before the version element or not at all. *)
Lemma prior_swap qs0 q q' :
  parse r0 qs0 ->
  prior r ps (qs0 ++ [open_tag; q; close_tag]) ->
  qs0 <> ps0 ->
  prior r ps' (qs0 ++ [open_tag; q'; close_tag]).
Proof.
  intros H0 Hpr Hne. pose proof swap_ps0 as Hps0.
  apply prior_app_inv in Hpr as [Hpr|[-> _]];
    [|done|by apply parse_length|by apply parse_length].
  by apply prior_app_l.
Qed.
(** A parse in the new text that starts no later than the match. *)
Lemma new_side pre post qs :
  T' = pre ++ concat qs ++ post -> parse r qs -> length pre <= length bef ->
  pre = bef /\ (qs = ps' \/ prior r ps' qs).
Proof.
  intros HT Hqs Hlen. pose proof swap_ps0 as Hps0.
  apply parse_r_inv in Hqs as (qs0 & q & -> & H0 & Hq & Hqf).
  unfold T', ps' in HT. rewrite !whole_elem in HT.
  destruct (shorter_prefix _ _ _ _ HT Hlen) as (d & Hbef & HT').
  assert (HTold : forall X, T = pre ++ (d ++ concat ps0) ++ elem v X ->
    T = pre ++ (d ++ concat ps0) ++ elem v aft).
  { intros _ _. unfold T, ps. rewrite whole_elem, Hbef.
    by rewrite <- !(assoc_L (++)). }
  assert (HT0 : T = pre ++ (d ++ concat ps0) ++ elem v aft).
  { unfold T, ps. rewrite whole_elem, Hbef. by rewrite <- !(assoc_L (++)). }
  clear HTold.
  assert (Hd : pre = bef -> d = []).
  { intros ->. apply (f_equal length) in Hbef. rewrite length_app in Hbef.
    destruct d; [done|simpl in Hbef; lia]. }
  remember (elem q post) as M eqn:HM.
  rewrite (assoc_L (++) d) in HT'. unfold elem in HT'.
  apply cover in HT' as
    [(X' & HX & HM')|(q1 & p1 & p2 & q2 & Hqs0 & HX & HR)].
  - destruct X' as [|y X'].
    + (* the version element of the parse is the one that was written *)
      rewrite app_nil_r in HX. simpl in HM'. rewrite HM in HM'.
      change (elem q post = elem nv aft) in HM'.
      apply elem_inj in HM' as [-> ->]; [|done..].
      destruct (old_side pre aft (qs0 ++ [open_tag; v; close_tag]))
        as [Hpre Hold].
      { rewrite whole_elem, <- HX. done. }
      { apply parse_r_intro; [done|apply swap_v_some|apply v_free]. }
      { done. }
      split; [done|]. destruct (decide (qs0 = ps0)) as [->|Hne]; [by left|].
      right. destruct Hold as [Heq|Hpr].
      * apply app_inv_tail in Heq. done.
      * by apply prior_swap with v.
    + (* the parse ends before the element that was written *)
      rewrite HM in HM'. unfold elem in HM'. simpl in HM'.
      injection HM' as <- HM'. rewrite (assoc_L (++) open_rest) in HM'.
      apply split_free in HM' as (X3 & -> & HM');
        [|apply lt_free_app; split; [apply open_rest_free|done]].
      destruct X3 as [|z X3]; simpl in HM'.
      { apply cons_tail_eq in HM'. by apply open_close_differ in HM'. }
      injection HM' as <- HM'.
      apply split_free in HM' as (X5 & -> & ->); [|apply close_rest_free].
      destruct (old_side pre (X5 ++ elem v aft) (qs0 ++ [open_tag; q; close_tag]))
        as [Hpre Hold].
      { rewrite HT0, HX, whole_elem. unfold elem.
        rewrite <- !(assoc_L (++)). simpl. by rewrite <- !(assoc_L (++)). }
      { by apply parse_r_intro. }
      { done. }
      split; [done|]. right.
      assert (Hne : qs0 <> ps0).
      { intros ->. rewrite (Hd Hpre) in HX. simpl in HX.
        apply (f_equal length) in HX. rewrite length_app in HX.
        simpl in HX. lia. }
      destruct Hold as [Heq|Hpr].
      * unfold ps in Heq. apply app_inj_2 in Heq as [? _]; done.
      * by apply prior_swap with q.
  - (* a piece before the version element goes over the [<] of the match *)
    subst qs0. apply parse_split in H0 as (r1 & a & r2 & Hr0 & H1 & Ha & H2).
    pose proof r0_shape as Hs. rewrite Hr0 in Hs. apply shape_suffix in Hs.
    apply shape_cons_inv in Hs as [Hfree|[Htag|[[-> Hnext]|(l & -> & Hword)]]];
      [| | |apply bool_decide_eq_true in Ha; rewrite HM in HR;
            destruct (word_ok pre d post q q1 q2 _ p1 p2 r1 r2 Hword Hbef Hr0
                        H1 H2 (eq_sym Ha) HX Hq Hqf HR) as [-> Hpr];
            split; [done|right]; by rewrite Ha].
    + apply (free_piece _ _ Hfree) in Ha.
      apply lt_free_app in Ha as [_ [? _]%lt_free_cons]. done.
    + destruct (tag_not_at_version _ _ _ _ _ Htag Ha HR).
    + destruct (next_lt r2 q2 (open_rest ++ q ++ lt :: close_rest ++ post)
        Hnext H2) as [Y HY].
      change (concat q2 ++ elem q post = lt :: Y) in HY.
      rewrite HM, HY, (assoc_L (++) open_rest) in HR.
      apply split_free in HR as (p3 & -> & HR);
        [|apply lt_free_app; split; [apply open_rest_free|done]].
      set (lzT := p1 ++ lt :: (open_rest ++ v) ++ p3).
      destruct (old_side pre post
        ((q1 ++ lzT :: q2) ++ [open_tag; q; close_tag])) as [Hpre Hold].
      { rewrite HT0, HX, whole_elem, concat_app. simpl. unfold lzT.
        rewrite <- !(assoc_L (++)). simpl. rewrite <- !(assoc_L (++)).
        do 4 f_equal. unfold elem at 1. rewrite HR, <- HY. done. }
      { apply parse_r_intro; [|done..]. rewrite Hr0.
        apply parse_app; [done|]. apply parse_cons; [|done].
        apply forallb_any. }
      { done. }
      split; [done|]. right.
      rewrite (Hd Hpre) in HX. simpl in HX.
      rewrite Hr0 in Hps0.
      apply parse_app_inv in Hps0 as (pa & pb' & Hps0 & Hpa & Hpb).
      apply parse_cons_inv in Hpb as (pl & pb & -> & _ & Hpb).
      assert (Hlen1 : length pa = length q1).
      { transitivity (length r1); [|symmetry]; by apply parse_length. }
      unfold ps', ps, r in *. rewrite Hps0, Hr0 in *.
      rewrite <- !(assoc_L (++)) in *.
      rewrite concat_app in HX. simpl in HX.
      destruct Hold as [Heq|Hpr].
      * apply app_inj_1 in Heq as [-> Heq]; [|done].
        simpl in Heq. injection Heq as Hlz _.
        apply (inj (app _)) in HX.
        apply (f_equal length) in HX. rewrite <- Hlz in HX. unfold lzT in HX.
        rewrite !length_app in HX. simpl in HX. lia.
      * apply prior_app_inv in Hpr as [Hpr|[-> Hpr]];
          [by apply prior_app_l| |by apply parse_length..].
        apply prior_app_r; [by apply parse_length|].
        apply (inj (app _)) in HX.
        apply (f_equal length) in HX. rewrite !length_app in HX.
        simpl in Hpr. inversion Hpr as [? ? ? ? ? ? Hpref|]; subst.
        -- apply prior_here. simpl in *. rewrite !length_app. simpl. lia.
        -- unfold lzT in HX. rewrite !length_app in HX. simpl in HX.
           rewrite !length_app in HX. lia.
Qed.

Lemma swap_leftmost : leftmost r T' (Found bef ps' aft).
Proof.
  split; [done|]. simpl. split.
  - split; [|split].
    + apply parse_r_intro; [apply swap_ps0|done..].
    + by exists aft.
    + intros qs Hqs [t Ht].
      apply (new_side bef t qs); [|done..].
      unfold T'. f_equal. exact Ht.
  - intros pre post qs HT Hqs.
    destruct (decide (length pre <= length bef)) as [Hle|]; [|lia].
    by destruct (new_side pre post qs HT Hqs Hle) as [-> _].
Qed.
End NewText.
End Swap.

(** The same, for a run of the matcher. *)
Lemma exec_swap word r0 s f nv :
  shape word r0 -> words_ok word r0 nv ->
  exec (r0 ++ version_tail) s = Some f ->
  lt_free nv -> nv <> [] ->
  exists ps0 v,
    parts f = ps0 ++ [open_tag; v; close_tag] /\ parse r0 ps0 /\
    s = before f ++ concat ps0 ++ elem v (after f) /\
    exec (r0 ++ version_tail) (before f ++ concat ps0 ++ elem nv (after f))
    = Some (Found (before f) (ps0 ++ [open_tag; nv; close_tag]) (after f)).
Proof.
  intros Hshape Hwords Hex Hnv Hne. apply exec_leftmost in Hex as Hleft.
  pose proof Hleft as (Hs & (Hp & _) & _).
  apply parse_app_inv in Hp as (ps0 & pt & Hparts & Hps0 & Hpt).
  apply parse_version_tail in Hpt as (v & -> & Hv & Hvf).
  exists ps0, v. split; [done|]. split; [done|].
  destruct f as [bef ps aft]. simpl in *. subst ps.
  unfold whole in Hs. simpl in Hs. rewrite whole_elem in Hs.
  split; [done|]. rewrite <- whole_elem. apply leftmost_exec.
  rewrite Hs, <- whole_elem in Hleft.
  apply swap_leftmost with v word; try done. exact (Hwords _ _ _ _ Hleft).
Qed.

End Texts.

(** ** The coordinate parser *)

Section Coordinates.
Import Js Re Pom.

Lemma split_on_head sep s :
  exists p ps, split_on sep s = p :: ps /\ (sep ∉ p) /\
    ((ps = [] /\ s = p) \/ (exists s', s = p ++ sep :: s' /\ ps = split_on sep s')).
Proof.
  induction s as [|x s (p & ps & IH & Hp & Hs)]; simpl.
  - exists [], []. split_and!; [done|apply not_elem_of_nil|by left].
  - destruct (N.eqb_spec x sep) as [->|Hx].
    + exists [], (split_on sep s). split_and!; [done|apply not_elem_of_nil|].
      right. by exists s.
    + rewrite IH. exists (x :: p), ps. split_and!; [done| |].
      * rewrite not_elem_of_cons. split; [congruence|done].
      * destruct Hs as [[-> ->]|(s' & -> & ->)]; [by left|]. right. by exists s'.
Qed.

Lemma split_on_no_sep sep p : sep ∉ p -> split_on sep p = [p].
Proof.
  induction p as [|x p IH]; [done|]. rewrite not_elem_of_cons. intros [Hx Hp].
  simpl. destruct (N.eqb_spec x sep); [congruence|]. by rewrite IH.
Qed.

Lemma split_on_sep sep p s :
  sep ∉ p -> split_on sep (p ++ sep :: s) = p :: split_on sep s.
Proof.
  induction p as [|x p IH]; simpl.
  - intros _. by rewrite N.eqb_refl.
  - rewrite not_elem_of_cons. intros [Hx Hp].
    destruct (N.eqb_spec x sep); [congruence|]. by rewrite IH.
Qed.

Lemma includes_char sep s : includes [sep] s = true <-> sep ∈ s.
Proof.
  unfold includes. induction s as [|x s IH]; simpl.
  - split; [done|]. by intros ?%elem_of_nil.
  - destruct (N.eqb_spec sep x) as [->|Hx]; simpl.
    + split; [|done]. intros _. apply elem_of_cons. by left.
    + rewrite elem_of_cons. destruct (index_of [sep] s) as [[??]|]; simpl in *.
      * split; [|done]. intros _. right. by apply IH.
      * split; [done|]. intros [?|?%IH]; done.
Qed.

Lemma falsy_nil (s : str) : falsy s = true <-> s = [].
Proof. by destruct s. Qed.

Lemma falsy_false (s : str) : falsy s = false <-> s <> [].
Proof. by destruct s. Qed.

Local Opaque colon.

(** The first two segments of the name decide the result. *)
Lemma parseMavenCoords_segments s g a :
  parseMavenCoords s = Some (Coords g a) <->
  exists tail, split_on colon s = g :: a :: tail /\ g <> [] /\ a <> [].
Proof.
  unfold parseMavenCoords.
  change (ch ":") with colon. change (lit ":") with [colon].
  destruct (split_on_head colon s) as (p & ps & Hsplit & Hp & Hs).
  rewrite Hsplit. destruct Hs as [[-> ->]|(s' & -> & ->)].
  - (* no colon *)
    assert (includes [colon] p = false) as ->.
    { apply not_true_is_false. by intros ?%includes_char. }
    rewrite orb_true_r. split; [done|]. by intros (? & [= ] & _).
  - destruct (split_on_head colon s') as (q & qs & Hsplit' & _ & _).
    rewrite Hsplit'. simpl take.
    assert (includes [colon] (p ++ colon :: s') = true) as ->.
    { apply includes_char, elem_of_app. right. by left. }
    assert (falsy (p ++ colon :: s') = false) as -> by by destruct p.
    simpl. destruct (falsy p) eqn:Ep; simpl.
    { apply falsy_nil in Ep as ->. split; [done|]. by intros (? & [= <- <- <-] & ? & _). }
    destruct (falsy q) eqn:Eq; simpl.
    { apply falsy_nil in Eq as ->. split; [done|]. by intros (? & [= <- <- <-] & _ & ?). }
    apply falsy_false in Ep, Eq. split.
    + intros [= <- <-]. by exists qs.
    + by intros (? & [= <- <- <-] & _).
Qed.

(** C9, as stated, fails: [split(':', 2)] cuts the name at every [:] and
    keeps the first two segments, so that a second [:] ends the artifact
    name ([a:b:c] gives [b], not [b:c]) and an empty second segment gives
    [null] although the text after the first [:] is not empty. *)
Lemma parseMavenCoords_second_colon :
  parseMavenCoords (lit "a:b:c") = Some (Coords (lit "a") (lit "b")) /\
  parseCoordinate_spec (lit "a:b:c") = Some (Coords (lit "a") (lit "b:c")) /\
  parseMavenCoords (lit "a::c") = None /\
  parseCoordinate_spec (lit "a::c") = Some (Coords (lit "a") (lit ":c")).
Proof. by vm_compute. Qed.

(** C9, amended: the parser returns the pair of the text before the first
    [:] and the text between the first [:] and the second (or the end of
    the name), when both are non-empty; it returns [null] in every other
    case, in particular when there is no [:].  [group:artifact] gives the
    pair of [group] and [artifact], [no-colon-here] gives [null]. *)
Theorem parseMavenCoords_spec :
  (forall s g a,
     parseMavenCoords s = Some (Coords g a) <->
     g <> [] /\ a <> [] /\ (colon ∉ g) /\ (colon ∉ a) /\
     (s = g ++ colon :: a \/ exists rest, s = g ++ colon :: a ++ colon :: rest)) /\
  (forall s, colon ∉ s -> parseMavenCoords s = None) /\
  parseMavenCoords (lit "group:artifact")
    = Some (Coords (lit "group") (lit "artifact")) /\
  parseMavenCoords (lit "no-colon-here") = None.
Proof.
  split; [|split; [|by vm_compute]].
  - intros s g a. rewrite parseMavenCoords_segments. split.
    + intros (tail & Hsplit & Hg & Ha).
      destruct (split_on_head colon s) as (p & ps & Hs & Hp & Hcase).
      rewrite Hs in Hsplit. injection Hsplit as -> ->.
      destruct Hcase as [[[=] _]|(s' & -> & Hs')].
      destruct (split_on_head colon s') as (q & qs & Hq & Hqc & Hcase).
      rewrite Hq in Hs'. injection Hs' as <- <-.
      split_and!; [done..|].
      destruct Hcase as [[_ ->]|(s'' & -> & _)]; [by left|].
      right. by exists s''.
    + intros (Hg & Ha & Hgc & Hac & [->|[rest ->]]).
      * exists []. by rewrite split_on_sep, split_on_no_sep.
      * exists (split_on colon rest). by rewrite !split_on_sep.
  - intros s Hs. destruct (parseMavenCoords s) as [[g a]|] eqn:E; [|done].
    apply parseMavenCoords_segments in E as (tail & Hsplit & _).
    by rewrite split_on_no_sep in Hsplit.
Qed.

End Coordinates.

(** ** Replacement templates *)

Section Templates.
Import Js Re Replace.

(** A one-digit reference to a group that exists, whatever follows it. *)
Lemma expand_ref matched pre post caps y g t :
  is_digit y = true -> capture caps (digit_val y) = Some g ->
  length caps < 10 ->
  expand matched pre post caps (dollar :: y :: t)
  = g ++ expand matched pre post caps t.
Proof.
  intros Hy Hg Hlen. unfold is_digit in Hy.
  apply andb_prop in Hy as [Hy1%N.leb_le Hy2%N.leb_le].
  assert (Hd : digit_val y <> 0) by (intros E; by rewrite E in Hg).
  cbn [expand]. change (dollar =? 36)%N with true. cbn [negb].
  destruct (N.eqb_spec y 36); [lia|]. destruct (N.eqb_spec y 38); [lia|].
  destruct (N.eqb_spec y 96); [lia|]. destruct (N.eqb_spec y 39); [lia|].
  assert (is_digit y = true) as ->.
  { unfold is_digit. apply andb_true_intro. split; by apply N.leb_le. }
  rewrite Hg. destruct t as [|z t]; [done|].
  destruct (is_digit z); [|done].
  assert ((length caps <? 10 * digit_val y + digit_val z) = true) as ->; [|done].
  apply Nat.ltb_lt. lia.
Qed.

Lemma expand_plain matched pre post caps t u :
  dollar_free t ->
  expand matched pre post caps (t ++ u) = t ++ expand matched pre post caps u.
Proof.
  unfold dollar_free. induction t as [|x t IH]; [done|]. simpl.
  intros [Hx Ht]%andb_prop. change 36%N with dollar. rewrite Hx.
  by rewrite IH.
Qed.

Lemma dollar_free_pattern_free t : dollar_free t -> pattern_free t = true.
Proof.
  unfold dollar_free. induction t as [|x t IH]; [done|]. simpl.
  intros [Hx Ht]%andb_prop. by rewrite Hx, IH.
Qed.

(** A text without replacement patterns stands for itself, whatever
    follows it in the template. *)
Lemma expand_pattern_free matched pre post caps t u :
  pattern_free t = true ->
  expand matched pre post caps (t ++ u) = t ++ expand matched pre post caps u.
Proof.
  induction t as [|x t IH]; [done|]. cbn [pattern_free].
  intros [Hx Ht]%andb_prop. specialize (IH Ht).
  change ((x :: t) ++ u) with (x :: (t ++ u)). cbn [expand].
  change 36%N with dollar.
  destruct (negb (x =? dollar)%N) eqn:Hd; [by rewrite IH|].
  simpl in Hx. destruct t as [|y t]; [done|].
  apply negb_true_iff in Hx.
  apply orb_false_elim in Hx as [Hx Hdigit].
  apply orb_false_elim in Hx as [Hx Hquote].
  apply orb_false_elim in Hx as [Hx Hback].
  apply orb_false_elim in Hx as [Hx Hamp].
  cbn [app]. cbn [app] in IH.
  rewrite Hx, Hamp, Hback, Hquote, Hdigit. by rewrite IH.
Qed.

(** [`$1${newVersion}$3`] over three groups, for a new version without
    replacement patterns. *)
Lemma expand_version_template_plain matched pre post g1 g2 g3 nv :
  pattern_free nv = true ->
  expand matched pre post [g1; g2; g3] (Pom.version_template nv)
  = g1 ++ nv ++ g3.
Proof.
  intros Hnv. unfold Pom.version_template.
  change (lit "$1" ++ nv ++ lit "$3")
    with (dollar :: ch "1" :: nv ++ dollar :: ch "3" :: []).
  rewrite (expand_ref _ _ _ _ _ g1); [|done|done|simpl; lia].
  rewrite expand_pattern_free; [|done].
  rewrite (expand_ref _ _ _ _ _ g3); [|done|done|simpl; lia].
  simpl. by rewrite app_nil_r.
Qed.

(** [`$1${newVersion}$3`] over three groups. *)
Lemma expand_version_template matched pre post g1 g2 g3 nv :
  dollar_free nv ->
  expand matched pre post [g1; g2; g3] (Pom.version_template nv)
  = g1 ++ nv ++ g3.
Proof.
  intros Hnv. unfold Pom.version_template.
  change (lit "$1" ++ nv ++ lit "$3")
    with (dollar :: ch "1" :: nv ++ dollar :: ch "3" :: []).
  rewrite (expand_ref _ _ _ _ _ g1); [|done|done|simpl; lia].
  rewrite expand_plain; [|done].
  rewrite (expand_ref _ _ _ _ _ g3); [|done|done|simpl; lia].
  simpl. by rewrite app_nil_r.
Qed.

End Templates.

(** ** The project version in the manifest *)

Section ProjectVersion.
Import Js Re Replace ReSpec Pom.

Lemma project_pattern_tail c :
  project_pattern c = project_head c ++ version_tail.
Proof. reflexivity. Qed.

Lemma project_head_shape c : shape (project_word c) (project_head c).
Proof.
  unfold project_head.
  apply shape_tag; [done|]. apply shape_free; [done|].
  apply shape_word; [by left|]. apply shape_free; [done|].
  apply shape_tag; [done|]. apply shape_lazy; [done|].
  apply shape_tag; [done|]. apply shape_free; [done|].
  apply shape_word; [by right|]. apply shape_free; [done|].
  apply shape_tag; [done|]. apply shape_free; [done|]. constructor.
Qed.

(** Sliding a text over itself: if [p] is found again [|u|] code units
    further on, the text between the two ends is made of the code units
    of [u]. *)
Lemma commute_class (c : char -> bool) (n : nat) :
  forall p u z : str,
    length p <= n -> u ++ p = p ++ z -> forallb c u = true -> forallb c z = true.
Proof.
  induction n as [|n IH]; intros p u z Hlen Heq Hu.
  - destruct p; [|simpl in Hlen; lia]. simpl in Heq.
    by rewrite app_nil_r in Heq; subst.
  - apply app_eq_app in Heq as [k [[-> ->]|[Hp1 Hp2]]].
    + rewrite forallb_app in *. by rewrite andb_comm.
    + destruct u as [|x u].
      { simpl in Hp1. subst k. apply (f_equal length) in Hp2.
        rewrite length_app in Hp2. by destruct z; [|simpl in Hp2; lia]. }
      apply (IH k (x :: u) z); [|congruence|done].
      rewrite Hp1, length_app in Hlen. simpl in Hlen. lia.
Qed.

(** A text from outside that follows a tag and white space cannot run over
    a [<] that lies behind another place where the same text follows the
    same tag, further to the right. *)
Lemma word_cover (tag w' w p1 p2 d rest : str) :
  tag ++ w' ++ p1 = d ++ tag ++ w ++ (p1 ++ lt :: p2) ++ rest ->
  forallb is_space w' = true -> False.
Proof.
  intros Heq Hw'.
  assert (Heq' : (tag ++ w') ++ p1 = (d ++ tag ++ w) ++ p1 ++ (lt :: p2 ++ rest)).
  { rewrite <- !(assoc_L (++)). rewrite Heq. by rewrite <- !(assoc_L (++)). }
  clear Heq.
  apply app_eq_app in Heq' as [k [[Hk Heq]|[Hk Heq]]].
  - assert (Hks : forallb is_space k = true).
    { apply app_eq_app in Hk as [m [[Hm ->]|[_ ->]]].
      - apply (f_equal length) in Hm. rewrite !length_app in Hm.
        assert (m = []) as -> by (destruct m; [done|simpl in Hm; lia]). done.
      - rewrite forallb_app in Hw'. by apply andb_prop in Hw' as [_ ?]. }
    symmetry in Heq.
    by pose proof (commute_class is_space _ _ _ _ (le_n _) Heq Hks).
  - apply (f_equal length) in Heq. rewrite !length_app in Heq. simpl in Heq.
    rewrite !length_app in Heq. lia.
Qed.

Lemma project_head_parse c qs :
  parse (project_head c) qs ->
  exists w1 w2 lz w3 w4 w5,
    qs = [tagA; w1; groupId c; w2; tagB; lz; tagC; w3; artifactId c; w4; tagD; w5]
    /\ forallb is_space w1 = true /\ forallb is_space w2 = true
    /\ forallb is_space w3 = true /\ forallb is_space w4 = true
    /\ forallb is_space w5 = true.
Proof.
  intros (p0 & ? & -> & H0 & (p1 & ? & -> & H1 & (p2 & ? & -> & H2 &
    (p3 & ? & -> & H3 & (p4 & ? & -> & H4 & (p5 & ? & -> & H5 &
    (p6 & ? & -> & H6 & (p7 & ? & -> & H7 & (p8 & ? & -> & H8 &
    (p9 & ? & -> & H9 & (p10 & ? & -> & H10 & (p11 & ? & -> & H11 &
    ->%parse_nil_inv)%parse_cons_inv)%parse_cons_inv)%parse_cons_inv
    )%parse_cons_inv)%parse_cons_inv)%parse_cons_inv)%parse_cons_inv
    )%parse_cons_inv)%parse_cons_inv)%parse_cons_inv)%parse_cons_inv
    )%parse_cons_inv.
  simpl in *.
  apply bool_decide_eq_true in H0 as ->. apply bool_decide_eq_true in H2 as ->.
  apply bool_decide_eq_true in H4 as ->. apply bool_decide_eq_true in H6 as ->.
  apply bool_decide_eq_true in H8 as ->. apply bool_decide_eq_true in H10 as ->.
  by exists p1, p3, p5, p7, p9, p11.
Qed.

Lemma project_head_parse_2 qs :
  parse [Lit tagA; Star is_space] qs ->
  exists w1, qs = [tagA; w1] /\ forallb is_space w1 = true.
Proof.
  intros (p0 & ? & -> & H0 & (p1 & ? & -> & H1 &
    ->%parse_nil_inv)%parse_cons_inv)%parse_cons_inv.
  simpl in *. apply bool_decide_eq_true in H0 as ->. by exists p1.
Qed.

Lemma project_head_parse_8 c qs :
  parse [Lit tagA; Star is_space; Lit (groupId c); Star is_space; Lit tagB;
         Lazy any; Lit tagC; Star is_space] qs ->
  exists w1 w2 lz w3,
    qs = [tagA; w1; groupId c; w2; tagB; lz; tagC; w3]
    /\ forallb is_space w1 = true /\ forallb is_space w2 = true
    /\ forallb is_space w3 = true.
Proof.
  intros (p0 & ? & -> & H0 & (p1 & ? & -> & H1 & (p2 & ? & -> & H2 &
    (p3 & ? & -> & H3 & (p4 & ? & -> & H4 & (p5 & ? & -> & H5 &
    (p6 & ? & -> & H6 & (p7 & ? & -> & H7 &
    ->%parse_nil_inv)%parse_cons_inv)%parse_cons_inv)%parse_cons_inv
    )%parse_cons_inv)%parse_cons_inv)%parse_cons_inv)%parse_cons_inv
    )%parse_cons_inv.
  simpl in *.
  apply bool_decide_eq_true in H0 as ->. apply bool_decide_eq_true in H2 as ->.
  apply bool_decide_eq_true in H4 as ->. apply bool_decide_eq_true in H6 as ->.
  by exists p1, p3, p5, p7.
Qed.

Lemma space_not_lt (x1 x2 : str) : forallb is_space (x1 ++ lt :: x2) = true -> False.
Proof.
  rewrite forallb_app. simpl. intros [_ ?]%andb_prop. done.
Qed.

Lemma tag_head_only (t p1 p2 : str) :
  lt_free t -> lt :: t = p1 ++ lt :: p2 -> p1 = [].
Proof.
  intros Ht Heq. destruct p1 as [|y p1]; [done|]. simpl in Heq.
  injection Heq as _ ->. by apply lt_free_app in Ht as [_ [? _]%lt_free_cons].
Qed.

Lemma tagA_eq : tagA = lt :: lit "groupId>".
Proof. reflexivity. Qed.

Lemma tagB_eq : tagB = lt :: lit "/groupId>".
Proof. reflexivity. Qed.

Lemma tagB_length : length tagB = 10.
Proof. reflexivity. Qed.

Local Opaque tagA tagB tagC tagD.

(** Of two matches of the group element that start in this order, the
    first one does not end after the second. *)
Lemma block_end (G w1 w2 w1' w2' d S S' : str) :
  forallb is_space w1' = true -> forallb is_space w2' = true ->
  (tagA ++ w1' ++ G ++ w2' ++ tagB) ++ S'
  = (d ++ tagA ++ w1 ++ G ++ w2 ++ tagB) ++ S ->
  exists e, d ++ tagA ++ w1 ++ G ++ w2 ++ tagB
            = (tagA ++ w1' ++ G ++ w2' ++ tagB) ++ e.
Proof.
  intros Hw1' Hw2' Heq.
  apply app_eq_app in Heq as [e [[Heq _]|[Heq _]]]; [|by exists e].
  destruct e as [|x e]; [exists []; by rewrite Heq, !app_nil_r|]. exfalso.
  assert (Hc : concat [tagA; w1'; G; w2'] ++ tagB
               = (d ++ tagA ++ w1 ++ G ++ w2) ++ lt :: (lit "/groupId>" ++ x :: e)).
  { simpl. rewrite app_nil_r, <- !(assoc_L (++)). rewrite Heq.
    rewrite <- !(assoc_L (++)). by rewrite tagB_eq. }
  apply cover in Hc as [(X' & _ & Hc)|(qa & x1 & x2 & qb & Hqs & HX & _)].
  - apply (f_equal length) in Hc. rewrite tagB_length in Hc.
    rewrite length_app in Hc. simpl in Hc. rewrite ?length_app in Hc.
    simpl in Hc. lia.
  - destruct qa as [|ta qa]; injection Hqs as Hq0 Hqs.
    { rewrite tagA_eq in Hq0. apply tag_head_only in Hq0 as ->; [|done].
      simpl in HX. apply (f_equal length) in HX. rewrite !length_app in HX.
      rewrite tagA_eq in HX. simpl in HX. lia. }
    destruct qa as [|wa qa]; injection Hqs as Hq1 Hqs.
    { rewrite Hq1 in Hw1'. by apply space_not_lt in Hw1'. }
    destruct qa as [|ga qa]; injection Hqs as Hq2 Hqs.
    { subst ta wa G. simpl in HX. rewrite !app_nil_r in HX.
      apply (word_cover tagA w1' w1 x1 x2 d w2); [|done].
      symmetry. rewrite <- ?(assoc_L (++)) in *. simpl in *.
      by rewrite <- ?(assoc_L (++)) in *. }
    destruct qa as [|wb qa]; injection Hqs as Hq3 Hqs.
    { rewrite Hq3 in Hw2'. by apply space_not_lt in Hw2'. }
    by destruct qa.
Qed.

Lemma project_words_ok c nv :
  lt_free nv -> nv <> [] -> words_ok (project_word c) (project_head c) nv.
Proof.
  intros Hlt Hne bef aft v ps0 Hleft pre d post q q1 q2 l p1 p2 r1 r2
    Hword Hbef Hr0 H1 H2 Hl HX Hq Hqf HR.
  pose proof Hleft as (_ & (Hp & _) & _). cbn [parts] in Hp.
  apply parse_app_inv in Hp as (a & b & Hab & Hps0 & Hb).
  apply parse_version_tail in Hb as (v' & -> & Hv & Hvf).
  apply app_inj_2 in Hab as [<- [= <-]]; [|done].
  pose proof Hps0 as Hps0'.
  apply project_head_parse in Hps0 as (w1 & w2 & lz & w3 & w4 & w5 & -> & Hw1 & Hw2 & Hw3 & Hw4 & Hw5).
  unfold project_head in Hr0.
  change (lit "<groupId>") with tagA in Hr0.
  change (lit "</groupId>") with tagB in Hr0.
  change (lit "<artifactId>") with tagC in Hr0.
  change (lit "</artifactId>") with tagD in Hr0.
  assert (Htag : forall t, is_tag (Lit t) = true -> t = p1 ++ lt :: p2 -> False).
  { intros t Ht Het.
    apply (tag_not_at_version (Lit t) p1 p2 (concat q2 ++ elem q post)
             (nv ++ lt :: close_rest ++ aft)); [done| |done].
    simpl. apply bool_decide_eq_true. by rewrite Het. }
  destruct r1 as [|a0 r1]; simpl in Hr0;
    [injection Hr0 as <- <-; by destruct (Htag tagA)|injection Hr0 as <- Hr0].
  destruct r1 as [|a1 r1]; simpl in Hr0; [discriminate Hr0|injection Hr0 as <- Hr0].
  destruct r1 as [|a2 r1]; simpl in Hr0; [injection Hr0 as <- <-|injection Hr0 as <- Hr0].
  { (* the group *)
    exfalso. apply project_head_parse_2 in H1 as (w1' & -> & Hw1').
    apply (word_cover tagA w1' w1 p1 p2 d
             (w2 ++ tagB ++ lz ++ tagC ++ w3 ++ artifactId c ++ w4 ++ tagD ++ w5));
      [|done].
    simpl in HX. rewrite ?app_nil_r, Hl in HX. symmetry.
    rewrite <- ?(assoc_L (++)) in *. simpl in *.
    by rewrite <- ?(assoc_L (++)) in *. }
  destruct r1 as [|a3 r1]; simpl in Hr0; [discriminate Hr0|injection Hr0 as <- Hr0].
  destruct r1 as [|a4 r1]; simpl in Hr0;
    [injection Hr0 as <- <-; by destruct (Htag tagB)|injection Hr0 as <- Hr0].
  destruct r1 as [|a5 r1]; simpl in Hr0; [discriminate Hr0|injection Hr0 as <- Hr0].
  destruct r1 as [|a6 r1]; simpl in Hr0;
    [injection Hr0 as <- <-; by destruct (Htag tagC)|injection Hr0 as <- Hr0].
  destruct r1 as [|a7 r1]; simpl in Hr0; [discriminate Hr0|injection Hr0 as <- Hr0].
  destruct r1 as [|a8 r1]; simpl in Hr0; [injection Hr0 as <- <-|injection Hr0 as <- Hr0].
  { (* the artifact name *)
    apply project_head_parse_8 in H1 as (w1' & w2' & lz' & w3' & -> & Hw1' & Hw2' & Hw3').
    simpl in HX. rewrite ?app_nil_r in HX. rewrite <- ?(assoc_L (++)) in HX.
    assert (HX' :
      (d ++ (tagA ++ w1 ++ groupId c ++ w2 ++ tagB) ++ lz)
        ++ (tagC ++ w3 ++ artifactId c ++ w4 ++ tagD ++ w5)
      = ((tagA ++ w1' ++ groupId c ++ w2' ++ tagB) ++ lz') ++ (tagC ++ w3' ++ p1)).
    { rewrite <- ?(assoc_L (++)). exact HX. }
    apply app_eq_app in HX' as [k [[Hk Hrest]|[Hk Hrest]]].
    - (* the artifact element of the parse starts no later *)
      exfalso. apply (word_cover tagC w3' w3 p1 p2 k (w4 ++ tagD ++ w5)); [|done].
      rewrite Hrest, Hl. by rewrite <- ?(assoc_L (++)).
    - (* it starts later: the group element of the parse ends no later *)
      destruct (block_end (groupId c) w1 w2 w1' w2' d (lz ++ k) lz' Hw1' Hw2')
        as [e He].
      { rewrite Hk. by rewrite <- ?(assoc_L (++)). }
      assert (Hlz' : lz' = e ++ lz ++ k).
      { apply (app_inv_head (tagA ++ w1' ++ groupId c ++ w2' ++ tagB)).
        rewrite Hk, (assoc_L (++) _ e), <- He. by rewrite <- ?(assoc_L (++)). }
      destruct (old_side (project_head c) bef aft v _ Hleft pre aft
        ([tagA; w1'; groupId c; w2'; tagB; e ++ lz; tagC; w3;
          artifactId c; w4; tagD; w5] ++ [open_tag; v; close_tag]))
        as [Hpre Hold].
      { rewrite Hbef, !concat_app. rewrite <- ?(assoc_L (++)). f_equal.
        rewrite !(assoc_L (++) _ _ aft). f_equal.
        rewrite !(assoc_L (++) _ _ (concat [open_tag; v; close_tag])). f_equal.
        simpl. rewrite ?app_nil_r.
        transitivity ((d ++ tagA ++ w1 ++ groupId c ++ w2 ++ tagB) ++ lz ++ tagC
          ++ w3 ++ artifactId c ++ w4 ++ tagD ++ w5).
        { by rewrite <- ?(assoc_L (++)). }
        rewrite He. by rewrite <- ?(assoc_L (++)). }
      { apply parse_app; [|by apply parse_version_tail_intro].
        unfold project_head.
        change (lit "<groupId>") with tagA.
        change (lit "</groupId>") with tagB.
        change (lit "<artifactId>") with tagC.
        change (lit "</artifactId>") with tagD.
        repeat apply parse_cons; simpl; rewrite ?bool_decide_eq_true; try done.
        - apply forallb_any.
        - constructor. }
      { rewrite Hbef, length_app. lia. }
      split; [done|].
      assert (Hd : d = []).
      { apply (app_inv_head bef). by rewrite app_nil_r, <- Hpre at 1. }
      subst d. simpl in He.
      set (P5 := [Lit tagA; Star is_space; Lit (groupId c); Star is_space;
                  Lit tagB]).
      set (R7 := [Lazy any; Lit tagC; Star is_space; Lit (artifactId c);
                  Star is_space; Lit tagD; Star is_space] ++ version_tail).
      assert (Hcases :
        prior P5 [tagA; w1; groupId c; w2; tagB] [tagA; w1'; groupId c; w2'; tagB]
        \/ (w1' = w1 /\ w2' = w2)).
      { destruct Hold as [Heq|Hpr].
        - right. split.
          + exact (f_equal (fun l : pieces => nth 1 l []) Heq).
          + exact (f_equal (fun l : pieces => nth 3 l []) Heq).
        - change (project_head c ++ version_tail) with (P5 ++ R7) in Hpr.
          change (prior (P5 ++ R7)
            ([tagA; w1; groupId c; w2; tagB]
               ++ [lz; tagC; w3; artifactId c; w4; tagD; w5; open_tag; v; close_tag])
            ([tagA; w1'; groupId c; w2'; tagB]
               ++ [e ++ lz; tagC; w3; artifactId c; w4; tagD; w5; open_tag; v;
                   close_tag])) in Hpr.
          apply prior_app_inv in Hpr as [Hpr|[Heq _]]; [by left| |done|done].
          right. split.
          + exact (eq_sym (f_equal (fun l : pieces => nth 1 l []) Heq)).
          + exact (eq_sym (f_equal (fun l : pieces => nth 3 l []) Heq)). }
      change (project_head c ++ version_tail) with (P5 ++ R7).
      destruct Hcases as [Hpr|[-> ->]].
      + change (prior (P5 ++ R7)
          ([tagA; w1; groupId c; w2; tagB]
             ++ [lz; tagC; w3; artifactId c; w4; tagD; w5; open_tag; nv; close_tag])
          ([tagA; w1'; groupId c; w2'; tagB]
             ++ (lz' :: tagC :: w3' :: artifactId c :: q2)
             ++ [open_tag; q; close_tag])).
        by apply prior_app_l.
      + assert (He' : e = []).
        { apply (app_inv_head (tagA ++ w1 ++ groupId c ++ w2 ++ tagB)).
          by rewrite <- He, app_nil_r. }
        subst e. simpl in Hlz'.
        destruct k as [|x k].
        { exfalso.
          apply (word_cover tagC w3' w3 p1 p2 [] (w4 ++ tagD ++ w5)); [|done].
          simpl in *. rewrite <- Hrest, Hl. by rewrite <- ?(assoc_L (++)). }
        change (prior (P5 ++ R7)
          ([tagA; w1; groupId c; w2; tagB]
             ++ [lz; tagC; w3; artifactId c; w4; tagD; w5; open_tag; nv; close_tag])
          ([tagA; w1; groupId c; w2; tagB]
             ++ (lz' :: (tagC :: w3' :: artifactId c :: q2)
                   ++ [open_tag; q; close_tag]))).
        apply prior_app_r; [done|]. apply prior_here. simpl.
        rewrite Hlz', length_app. simpl. lia. }
  destruct r1 as [|a9 r1]; simpl in Hr0; [discriminate Hr0|injection Hr0 as <- Hr0].
  destruct r1 as [|a10 r1]; simpl in Hr0;
    [injection Hr0 as <- <-; by destruct (Htag tagD)|injection Hr0 as <- Hr0].
  destruct r1 as [|a11 r1]; simpl in Hr0; [discriminate Hr0|injection Hr0 as <- Hr0].
  destruct r1; discriminate Hr0.
Qed.

Local Opaque open_tag close_tag.

Lemma group_tail (ps0 : pieces) n k t :
  length ps0 = n -> group (n + k) 1 (ps0 ++ t) = group k 1 t.
Proof.
  intros <-. unfold group. by rewrite drop_app_add.
Qed.

Lemma group_head (ps0 : pieces) n p t :
  length ps0 = n -> group 0 (n + 1) (ps0 ++ p :: t) = concat ps0 ++ p.
Proof.
  intros <-. unfold group. rewrite drop_0, take_app_add. simpl.
  by rewrite concat_app; simpl; rewrite app_nil_r.
Qed.

(** What a match of the pattern looks like, and what writing does to it. *)
Lemma project_match pomXml c f :
  exec (project_pattern c) pomXml = Some f ->
  exists ps0 v,
    parts f = ps0 ++ [open_tag; v; close_tag] /\ parse (project_head c) ps0 /\
    pomXml = before f ++ concat ps0 ++ open_tag ++ v ++ close_tag ++ after f /\
    v <> [] /\ lt_free v /\
    group 13 1 (parts f) = v /\
    forall newVersion, pattern_free newVersion = true ->
      updateProjectVersionInPom pomXml c newVersion
      = Some (before f ++ concat ps0 ++ open_tag ++ newVersion ++ close_tag
                ++ after f).
Proof.
  intros Hex. apply exec_leftmost in Hex as Hleft.
  destruct Hleft as (Hs & (Hp & _) & _). rewrite project_pattern_tail in Hp.
  apply parse_app_inv in Hp as (ps0 & pt & Hparts & Hps0 & Hpt).
  apply parse_version_tail in Hpt as (v & -> & Hv & Hvf).
  exists ps0, v. split; [done|]. split; [done|].
  apply parse_length in Hps0. simpl in Hps0.
  unfold whole in Hs. rewrite Hparts in Hs.
  rewrite concat_app in Hs. simpl in Hs. rewrite app_nil_r in Hs.
  split; [rewrite Hs at 1; by rewrite <- !(assoc_L (++))|].
  split; [done|]. split; [done|].
  split.
  { rewrite Hparts. change 13 with (12 + 1). rewrite group_tail by done.
    unfold group. simpl. by rewrite app_nil_r. }
  intros nv Hnv. unfold updateProjectVersionInPom, test, replace_re.
  rewrite Hex. simpl negb. cbv iota. f_equal. f_equal.
  unfold project_groups. cbn [map fst snd]. rewrite Hparts.
  rewrite (expand_version_template_plain _ _ _ _ _ _ _ Hnv).
  change (group 0 13) with (group 0 (12 + 1)).
  change (group 14 1) with (group (12 + 2) 1).
  rewrite group_head, group_tail by done.
  unfold group. simpl. by rewrite !app_nil_r, <- !(assoc_L (++)).
Qed.

(** Texts that are no versions are not always read back.  The new version
    is put into a replacement template, where [$&] stands for the whole
    match; and an empty text, or one that contains [<], leaves an element
    the pattern does not match. *)
Lemma update_then_read_other_texts :
  (updateProjectVersionInPom pom_ga coords_ga (lit "$&")
     ≫= fun updated => readProjectVersionFromPom updated coords_ga)
  = Some (lit "1.0.0") /\
  (updateProjectVersionInPom pom_ga coords_ga []
     ≫= fun updated => readProjectVersionFromPom updated coords_ga)
  = None /\
  (updateProjectVersionInPom pom_ga coords_ga (lit "1<2")
     ≫= fun updated => readProjectVersionFromPom updated coords_ga)
  = None.
Proof. by vm_compute. Qed.

(** The characters of the semantic-versioning grammar,
    [MAJOR.MINOR.PATCH[-PRERELEASE][+BUILD]], are neither [<] nor [$]. *)
Lemma semver_text_written newVersion :
  forallb is_semver_char newVersion = true ->
  lt_free newVersion /\ pattern_free newVersion = true.
Proof.
  intros Hchars.
  assert (H : lt_free newVersion /\ dollar_free newVersion).
  { unfold lt_free, dollar_free.
    induction newVersion as [|x l IH]; [done|].
    simpl in *. apply andb_prop in Hchars as [Hx Hl].
    destruct (IH Hl) as [-> ->].
    rewrite !andb_true_r. unfold not_lt, dollar.
    rewrite !negb_true_iff, !N.eqb_neq. revert Hx.
    unfold is_semver_char, is_digit, is_alpha.
    rewrite !orb_true_iff, !andb_true_iff, !N.leb_le, !N.eqb_eq. lia. }
  destruct H as [Hlt Hd]. split; [done|by apply dollar_free_pattern_free].
Qed.

(** C1: for every manifest text in which the pattern of the coordinates
    is found, whatever the group and the artifact name are, and for every
    new version: the update succeeds, the updated text is the original
    with the text of the matched version element replaced by the new
    version and every other code unit in place, and reading the project
    version from the updated text returns the new version.  A version is
    a text that is not empty and holds no [<] and no replacement pattern
    (every [$] in it is followed by a character other than [$], [&], the
    backquote, the quote and the digits); every text of the
    semantic-versioning grammar is one, and so is [${revision}].  The
    text [v] that is replaced is the whole text of the element: it is not
    empty and holds no [<]. *)
Theorem update_then_read pomXml c newVersion v :
  newVersion <> [] -> lt_free newVersion -> pattern_free newVersion = true ->
  readProjectVersionFromPom pomXml c = Some v ->
  exists pre head post,
    v <> [] /\ lt_free v /\
    pomXml = pre ++ head ++ open_tag ++ v ++ close_tag ++ post /\
    updateProjectVersionInPom pomXml c newVersion
    = Some (pre ++ head ++ open_tag ++ newVersion ++ close_tag ++ post) /\
    readProjectVersionFromPom
      (pre ++ head ++ open_tag ++ newVersion ++ close_tag ++ post) c
    = Some newVersion.
Proof.
  intros Hne Hlt Hdollar Hread. unfold readProjectVersionFromPom in Hread.
  destruct (exec (project_pattern c) pomXml) as [f|] eqn:Hex; [|done].
  injection Hread as Hv.
  destruct (project_match _ _ _ Hex)
    as (ps1 & v' & Hparts1 & _ & Hpom & Hvne & Hvf & Hv' & Hupd).
  rewrite Hv in Hv'. subst v'.
  exists (before f), (concat ps1), (after f).
  split; [done|]. split; [done|]. split; [done|]. split; [by apply Hupd|].
  rewrite project_pattern_tail in Hex.
  destruct (exec_swap _ _ _ _ newVersion (project_head_shape c)
              (project_words_ok c newVersion Hlt Hne) Hex Hlt Hne)
    as (ps0 & w & Hparts & Hps0 & _ & Hex').
  rewrite Hparts1 in Hparts. apply app_inj_2 in Hparts as [-> _]; [|done].
  unfold readProjectVersionFromPom. rewrite project_pattern_tail.
  replace (concat ps0 ++ open_tag ++ newVersion ++ close_tag ++ after f)
    with (concat ps0 ++ elem newVersion (after f)).
  2:{ unfold elem. by rewrite open_tag_eq, close_tag_eq. }
  rewrite Hex'. simpl. apply parse_length in Hps0. simpl in Hps0.
  change 13 with (12 + 1). rewrite group_tail by done.
  unfold group. simpl. by rewrite app_nil_r.
Qed.

Lemma update_then_read_witness :
  exists pre head post,
    lit "1.0.0" <> [] /\ lt_free (lit "1.0.0") /\
    pom_ga = pre ++ head ++ open_tag ++ lit "1.0.0" ++ close_tag ++ post /\
    updateProjectVersionInPom pom_ga coords_ga (lit "2.0.0")
    = Some (pre ++ head ++ open_tag ++ lit "2.0.0" ++ close_tag ++ post) /\
    readProjectVersionFromPom
      (pre ++ head ++ open_tag ++ lit "2.0.0" ++ close_tag ++ post) coords_ga
    = Some (lit "2.0.0").
Proof.
  apply (update_then_read pom_ga coords_ga (lit "2.0.0") (lit "1.0.0"));
    by vm_compute.
Defined.

End ProjectVersion.

(** ** Which version element a project update changes *)

Section OwnVersion.
Import Js Re Replace ReSpec Pom Files Sync.

(** C2, as stated, fails: when the project declares no version right
    after its artifact name, the pattern of the project reaches the version
    of a dependency, and the update of the project rewrites it.  The sync
    script rewrites the first version element of the file, whose ever it
    is. *)
Lemma project_update_reaches_dependency :
  updateProjectVersionInPom pom_inherited coords_ga (lit "2.0.0")
  = Some pom_inherited_updated /\
  (updatePomVersion (pom_at (lit "apps/a") pom_no_version) (lit "apps/a")
     (lit "2.0.0")).1 !! join (lit "apps/a") (lit "pom.xml")
  = Some pom_no_version_updated.
Proof. by vm_compute. Qed.

Local Opaque open_tag close_tag.

Lemma versionRegex_parse qs :
  parse versionRegex qs ->
  exists w, qs = [open_tag; w; close_tag] /\ w <> [] /\
    forallb is_version_char w = true.
Proof.
  intros (p1 & ? & -> & H1 & (p2 & ? & -> & H2 & (p3 & ? & -> & H3
    & ->%parse_nil_inv)%parse_cons_inv)%parse_cons_inv)%parse_cons_inv.
  apply bool_decide_eq_true in H1 as ->. apply bool_decide_eq_true in H3 as ->.
  exists p2. simpl in H2. by destruct p2.
Qed.

Lemma versionRegex_parse_intro w :
  w <> [] -> forallb is_version_char w = true ->
  parse versionRegex [open_tag; w; close_tag].
Proof.
  intros Hw Hc. repeat apply parse_cons; try done; [|constructor].
  simpl. by destruct w.
Qed.

(** What the sync script does to the text of a manifest. *)
Lemma sync_match pomContent f newVersion :
  exec versionRegex pomContent = Some f -> pattern_free newVersion = true ->
  exists v,
    pomContent = before f ++ open_tag ++ v ++ close_tag ++ after f /\
    replace_re versionRegex versionGroups (version_template newVersion) pomContent
    = before f ++ open_tag ++ newVersion ++ close_tag ++ after f.
Proof.
  intros Hex Hnv. apply exec_leftmost in Hex as Hleft.
  destruct Hleft as (Hs & (Hp & _) & _).
  apply versionRegex_parse in Hp as (v & Hparts & _).
  exists v. unfold whole in Hs. rewrite Hparts in Hs. simpl in Hs.
  rewrite app_nil_r, <- !(assoc_L (++)) in Hs. split; [done|].
  unfold replace_re. rewrite Hex. unfold versionGroups. cbn [map fst snd].
  rewrite (expand_version_template_plain _ _ _ _ _ _ _ Hnv), Hparts.
  unfold group. simpl. by rewrite !app_nil_r, <- !(assoc_L (++)).
Qed.

(** The text the pattern of the sync script matches is one version
    element, of version characters. *)
Lemma sync_match_element pomContent f :
  exec versionRegex pomContent = Some f ->
  exists v, parts f = [open_tag; v; close_tag] /\ v <> [] /\
    forallb is_version_char v = true.
Proof.
  intros Hex. apply exec_leftmost in Hex as (_ & (Hp & _) & _).
  by apply versionRegex_parse in Hp.
Qed.

(** C2, amended: a project update changes the text of exactly one version
    element and nothing else, whatever the other version elements of the
    manifest contain.

    [updateProjectVersionInPom] returns [null] exactly when the pattern of
    the coordinates matches nowhere.  Otherwise the match is the one a
    backtracking matcher finds (the leftmost start, and there the first
    parse by the priorities of the quantifiers); it ends in one version
    element, whose text [v] is not empty and holds no [<]; the result is
    the manifest with [v] replaced by the new version and every other
    code unit in place.

    The sync script leaves the files as they are exactly when the manifest
    has no version element whose text is made of version characters.
    Otherwise it replaces the text of the first such element.

    (The element is the project's own only when the manifest declares the
    project's version there.) *)
Theorem project_update_changes_one_element :
  (forall pomXml c newVersion,
     pattern_free newVersion = true ->
     match updateProjectVersionInPom pomXml c newVersion with
     | Some updated =>
         exists pre ps0 v post,
           leftmost (project_pattern c) pomXml
             (Found pre (ps0 ++ [open_tag; v; close_tag]) post) /\
           parse (project_head c) ps0 /\ v <> [] /\ lt_free v /\
           pomXml = pre ++ concat ps0 ++ open_tag ++ v ++ close_tag ++ post /\
           updated
           = pre ++ concat ps0 ++ open_tag ++ newVersion ++ close_tag ++ post
     | None =>
         forall pre qs post,
           pomXml = pre ++ concat qs ++ post -> ~ parse (project_pattern c) qs
     end) /\
  (forall (fs : files) (projectRoot newVersion pomContent : str),
     pattern_free newVersion = true ->
     fs !! join projectRoot (lit "pom.xml") = Some pomContent ->
     ((forall pre w post,
         w <> [] -> forallb is_version_char w = true ->
         pomContent <> pre ++ open_tag ++ w ++ close_tag ++ post) /\
      (updatePomVersion fs projectRoot newVersion).1 = fs)
     \/
     exists pre v post,
       v <> [] /\ forallb is_version_char v = true /\
       pomContent = pre ++ open_tag ++ v ++ close_tag ++ post /\
       (forall pre' w post',
          w <> [] -> forallb is_version_char w = true ->
          pomContent = pre' ++ open_tag ++ w ++ close_tag ++ post' ->
          length pre <= length pre') /\
       (updatePomVersion fs projectRoot newVersion).1
       = <[join projectRoot (lit "pom.xml")
           := pre ++ open_tag ++ newVersion ++ close_tag ++ post]> fs).
Proof.
  split.
  - intros pomXml c nv Hnv.
    destruct (exec (project_pattern c) pomXml) as [f|] eqn:Hex.
    + destruct (project_match _ _ _ Hex)
        as (ps0 & v & Hparts & Hps0 & Hpom & Hv & Hvf & _ & Hout).
      rewrite (Hout nv Hnv).
      exists (before f), ps0, v, (after f).
      apply exec_leftmost in Hex. destruct f as [bef ps aft].
      simpl in Hparts. subst ps. by split_and!.
    + unfold updateProjectVersionInPom, test. rewrite Hex. simpl.
      intros pre qs post. by apply exec_None.
  - intros fs root nv pom Hnv Hfile. unfold updatePomVersion. cbv zeta.
    rewrite Hfile.
    destruct (exec versionRegex pom) as [f|] eqn:Hex.
    + right. destruct (sync_match _ _ nv Hex Hnv) as (v & Hpom & Hout).
      destruct (sync_match_element _ _ Hex) as (v' & Hparts & Hv & Hc).
      assert (v' = v) as ->.
      { apply exec_leftmost in Hex as (Hs & _ & _). unfold whole in Hs.
        rewrite Hparts in Hs. simpl in Hs.
        rewrite app_nil_r, <- !(assoc_L (++)) in Hs. rewrite Hpom in Hs at 1.
        apply (inj (app _)), (inj (app _)) in Hs.
        by apply app_inj_2 in Hs as [? _]. }
      exists (before f), v, (after f). simpl. rewrite Hout.
      split_and!; [done..| |done].
      intros pre' w post' Hw Hcw Hpom'.
      apply exec_leftmost in Hex as (_ & _ & Hfirst).
      apply (Hfirst pre' post' [open_tag; w; close_tag]).
      * simpl. by rewrite app_nil_r, <- !(assoc_L (++)).
      * by apply versionRegex_parse_intro.
    + left. split; [|done]. intros pre w post Hw Hc Hpom.
      apply (exec_None _ _ pre post [open_tag; w; close_tag] Hex).
      * simpl. by rewrite app_nil_r, <- !(assoc_L (++)).
      * by apply versionRegex_parse_intro.
Qed.

Lemma project_update_changes_one_element_witness :
  match updateProjectVersionInPom pom_ga coords_ga (lit "2.0.0") with
  | Some updated =>
      exists pre ps0 v post,
        leftmost (project_pattern coords_ga) pom_ga
          (Found pre (ps0 ++ [open_tag; v; close_tag]) post) /\
        parse (project_head coords_ga) ps0 /\ v <> [] /\ lt_free v /\
        pom_ga = pre ++ concat ps0 ++ open_tag ++ v ++ close_tag ++ post /\
        updated
        = pre ++ concat ps0 ++ open_tag ++ lit "2.0.0" ++ close_tag ++ post
  | None =>
      forall pre qs post,
        pom_ga = pre ++ concat qs ++ post ->
        ~ parse (project_pattern coords_ga) qs
  end /\
  (((forall pre w post,
       w <> [] -> forallb is_version_char w = true ->
       pom_no_version <> pre ++ open_tag ++ w ++ close_tag ++ post) /\
    (updatePomVersion (pom_at (lit "apps/a") pom_no_version) (lit "apps/a")
       (lit "2.0.0")).1 = pom_at (lit "apps/a") pom_no_version)
   \/
   exists pre v post,
     v <> [] /\ forallb is_version_char v = true /\
     pom_no_version = pre ++ open_tag ++ v ++ close_tag ++ post /\
     (forall pre' w post',
        w <> [] -> forallb is_version_char w = true ->
        pom_no_version = pre' ++ open_tag ++ w ++ close_tag ++ post' ->
        length pre <= length pre') /\
     (updatePomVersion (pom_at (lit "apps/a") pom_no_version) (lit "apps/a")
        (lit "2.0.0")).1
     = <[join (lit "apps/a") (lit "pom.xml")
         := pre ++ open_tag ++ lit "2.0.0" ++ close_tag ++ post]>
         (pom_at (lit "apps/a") pom_no_version)).
Proof.
  split.
  - apply (proj1 project_update_changes_one_element pom_ga coords_ga
             (lit "2.0.0")); by vm_compute.
  - apply (proj2 project_update_changes_one_element
             (pom_at (lit "apps/a") pom_no_version) (lit "apps/a") (lit "2.0.0")
             pom_no_version); by vm_compute.
Defined.

End OwnVersion.

(** ** Dependencies *)

Section Dependencies.
Import Js Re Replace ReSpec Pom.

(** C3 on the code: a dependency without a version that comes after
    another dependency.  The match begins at the first [<dependency>] and
    runs over the block of [o:x]; a version is found in it and rewritten,
    and the text returned is not the text given. *)
Theorem managed_dependency_not_left_alone :
  updateDependencyVersionInPom pom_managed coords_gb (lit "2.0.0")
  = Some pom_managed_updated /\
  pom_managed_updated <> pom_managed /\
  readDependencyVersionFromPom pom_managed coords_gb = Some (lit "1.0.0").
Proof. split; [by vm_compute|]. split; [by vm_compute|by vm_compute]. Qed.

(** C4 on the code: of two dependencies with a version, the second one
    matches the coordinates.  The block matched spans both, the version
    rewritten is that of the first, and the version of the dependency that
    matches stays as it was. *)
Theorem unrelated_dependency_rewritten :
  whole <$> exec (dependency_pattern coords_gb) pom_two = Some block_two /\
  updateDependencyVersionInPom pom_two coords_gb (lit "2.0.0")
  = Some pom_two_updated.
Proof. by vm_compute. Qed.

(** Where the block matched has no version element, the text is returned
    as it is; where no block matches, the result is [null]. *)
Lemma updateDependencyVersionInPom_no_version pomXml c newVersion f :
  exec (dependency_pattern c) pomXml = Some f ->
  test block_version_pattern (whole f) = false ->
  updateDependencyVersionInPom pomXml c newVersion = Some pomXml.
Proof.
  intros Hex Htest. unfold updateDependencyVersionInPom. by rewrite Hex, Htest.
Qed.

Lemma updateDependencyVersionInPom_not_found pomXml c newVersion :
  exec (dependency_pattern c) pomXml = None ->
  updateDependencyVersionInPom pomXml c newVersion = None.
Proof. intros Hex. unfold updateDependencyVersionInPom. by rewrite Hex. Qed.

End Dependencies.

(** ** A write that finds no version to replace *)

Section NoMatch.
Import Js Re Replace ReSpec Pom Files Actions Sync.

(** C5, as stated, fails for the sync script: without a version element in
    the manifest, [updatePomVersion] prints a warning and returns; nothing
    is written and nothing is thrown. *)
Lemma sync_without_version_is_silent :
  updatePomVersion (pom_at (lit "apps/a") pom_bare) (lit "apps/a") (lit "2.0.0")
  = (pom_at (lit "apps/a") pom_bare, [NoVersionTag]).
Proof. by vm_compute. Qed.

Lemma update_manifests_app (name : str) (c : coords) (nv : str)
  (l1 l2 : list str) (tree tree1 : files)
  (log log1 : list message) :
  update_manifests name c nv l1 tree log = Run tree1 (inl log1) ->
  update_manifests name c nv (l1 ++ l2) tree log
  = update_manifests name c nv l2 tree1 log1.
Proof.
  revert tree log. induction l1 as [|path l1 IH]; intros tree log; simpl.
  - by intros [= -> ->].
  - destruct (readText tree path) as [pomXml|]; [|done].
    destruct (falsy pomXml); [done|].
    destruct (updateProjectVersionInPom pomXml c nv) as [updated|]; [|done].
    destruct (falsy updated); [done|]. apply IH.
Qed.

(** C5, amended: when the scan of a manifest at the time of the write does
    not find the pattern of the coordinates, [updateProjectVersion] of
    [MavenVersionActions] throws the error that names the manifest and
    leaves the tree as the writes before it made it.  The sync script does
    not fail there: [updatePomVersion] reports that there is no version
    tag and leaves the file system as it is. *)
Theorem write_without_match :
  (forall (projectName : str) (c : coords) (newVersion : str)
          (done : list str) (path : str) (rest : list str)
          (tree tree1 : files) (log1 : list message) (pomXml : str),
     parseMavenCoords projectName = Some c ->
     update_manifests projectName c newVersion done tree [] = Run tree1 (inl log1) ->
     tree1 !! path = Some pomXml ->
     exec (project_pattern c) pomXml = None ->
     exists e,
       updateProjectVersion projectName (done ++ path :: rest) tree newVersion
       = Run tree1 (inr e) /\
       (pomXml <> [] -> e = CannotUpdateVersion projectName path)) /\
  (forall (fs : files) (projectRoot newVersion pomContent : str),
     fs !! join projectRoot (lit "pom.xml") = Some pomContent ->
     exec versionRegex pomContent = None ->
     updatePomVersion fs projectRoot newVersion = (fs, [NoVersionTag])).
Proof.
  split.
  - intros name c nv l1 path rest tree tree1 log1 pomXml Hc Hdone Hread Hex.
    unfold updateProjectVersion. rewrite Hc.
    rewrite (update_manifests_app _ _ _ _ _ _ _ _ _ Hdone). simpl.
    unfold readText. rewrite Hread.
    destruct (falsy pomXml) eqn:Hf.
    { apply falsy_nil in Hf as ->. by eexists. }
    unfold updateProjectVersionInPom, test. rewrite Hex. by eexists.
  - intros fs root nv pom Hfile Hex. unfold updatePomVersion. cbv zeta.
    by rewrite Hfile, Hex.
Qed.

Lemma write_without_match_witness :
  (exists e,
     updateProjectVersion (lit "g:a") ([] ++ lit "apps/a/pom.xml" :: [])
       (pom_at (lit "apps/a") pom_bare) (lit "2.0.0")
     = Run (pom_at (lit "apps/a") pom_bare) (inr e) /\
     (pom_bare <> [] -> e = CannotUpdateVersion (lit "g:a") (lit "apps/a/pom.xml"))) /\
  updatePomVersion (pom_at (lit "apps/a") pom_bare) (lit "apps/a") (lit "2.0.0")
  = (pom_at (lit "apps/a") pom_bare, [NoVersionTag]).
Proof.
  split.
  - apply (proj1 write_without_match (lit "g:a") coords_ga (lit "2.0.0") []
             (lit "apps/a/pom.xml") [] (pom_at (lit "apps/a") pom_bare)
             (pom_at (lit "apps/a") pom_bare) [] pom_bare); by vm_compute.
  - apply (proj2 write_without_match (pom_at (lit "apps/a") pom_bare)
             (lit "apps/a") (lit "2.0.0") pom_bare); by vm_compute.
Defined.

End NoMatch.

(** ** Merging version plans *)

Section Merge.
Import Js Re Plans.

Lemma map_get_set (m : jsmap) (k v p : str) :
  map_get (map_set m k v) p = if bool_decide (k = p) then Some v else map_get m p.
Proof.
  induction m as [|[k' v'] m IH]; simpl; [done|].
  destruct (bool_decide_reflect (k' = k)) as [->|Hk]; simpl.
  - by destruct (bool_decide (k = p)).
  - rewrite IH. destruct (bool_decide_reflect (k' = p)) as [->|]; [|done].
    by rewrite bool_decide_eq_false_2.
Qed.

(** What a file adds hides what was there for the same project, and
    nothing else. *)
Lemma map_get_add_lines lines (m : jsmap) (p : str) :
  map_get (add_lines lines m) p
  = match map_get (add_lines lines []) p with
    | Some k => Some k
    | None => map_get m p
    end.
Proof.
  revert m. induction lines as [|line rest IH]; intros m; simpl; [done|].
  destruct (line_entry line) as [[k v]|]; [|apply IH].
  rewrite IH, (IH [(k, v)]), map_get_set. simpl.
  by destruct (map_get (add_lines rest []) p), (bool_decide (k = p)).
Qed.

Lemma map_get_add_file content (m : jsmap) (p : str) :
  map_get (add_file content m) p
  = match map_get (add_file content []) p with
    | Some k => Some k
    | None => map_get m p
    end.
Proof.
  unfold add_file. destruct (header content); [apply map_get_add_lines|done].
Qed.

Lemma add_files_app l1 l2 (m : jsmap) :
  add_files (l1 ++ l2) m = add_files l2 (add_files l1 m).
Proof. revert m. induction l1 as [|c l1 IH]; intros m; simpl; [done|apply IH]. Qed.

(** The file processed last decides: what it gives a project is in the
    merged mapping, whatever the files before it gave; for a project it
    does not name, the mapping keeps what the files before it gave. *)
Lemma later_file_decides (earlier : list str) (last p : str) :
  map_get (projectsToRelease (earlier ++ [last])) p
  = match map_get (add_file last []) p with
    | Some k => Some k
    | None => map_get (projectsToRelease earlier) p
    end.
Proof.
  unfold projectsToRelease. rewrite add_files_app. simpl.
  apply map_get_add_file.
Qed.

End Merge.

(** ** The next version *)

Section NextVersion.
Import Js Semver.

(** C8, as stated, fails for the release candidate of a major version:
    the keyword major turns [2.0.0-rc.1] into [2.0.0], and the major
    ordinal is what it was; likewise patch turns [1.2.3-SNAPSHOT] into
    [1.2.3]. *)
Lemma inc_keeps_ordinal_of_prerelease :
  inc (Version 2 0 0 [Alphanumeric (lit "rc"); Numeric 1] []) Major
  = Version 2 0 0 [] [] /\
  ordinal Major
    (inc (Version 2 0 0 [Alphanumeric (lit "rc"); Numeric 1] []) Major)
  <> (ordinal Major (Version 2 0 0 [Alphanumeric (lit "rc"); Numeric 1] []) + 1)%N /\
  inc (Version 1 2 3 [Alphanumeric (lit "SNAPSHOT")] []) Patch
  = Version 1 2 3 [] [].
Proof. by vm_compute. Qed.

(** C8, amended: for every semantic version and each of the keywords
    major, minor and patch, the next version has every ordinal below the
    bumped one at zero and no prerelease tag, and the ordinals above the
    bumped one are kept.  The bumped ordinal is one more than it was,
    except for a prerelease of that very release (a prerelease tag, and
    the ordinals below the bumped one at zero already): there it is
    kept, and the next version is the release itself. *)
Theorem inc_resets_lower_and_prerelease (v : version) (r : release) :
  Forall (fun n => n = 0%N) (lower r (inc v r)) /\
  prerelease (inc v r) = [] /\
  higher r (inc v r) = higher r v /\
  ordinal r (inc v r)
  = (if completes r v then ordinal r v else ordinal r v + 1)%N.
Proof.
  unfold completes.
  destruct r; simpl; (split; [repeat constructor|]); (split; [done|]);
    (split; [done|]); destruct (bool_decide (prerelease v = [])); simpl;
    rewrite ?orb_true_r, ?orb_false_r, ?andb_true_r; try done.
  - by destruct (minor v =? 0)%N, (patch v =? 0)%N.
  - by destruct (patch v =? 0)%N.
Qed.

Example inc_minor :
  inc (Version 1 0 0 [] []) Minor = Version 1 1 0 [] [].
Proof. reflexivity. Qed.

Example inc_major_of_prerelease :
  inc (Version 1 2 3 [Alphanumeric (lit "rc"); Numeric 1] []) Major
  = Version 2 0 0 [] [].
Proof. reflexivity. Qed.

End NextVersion.

(** ** The version generator *)

Section GeneratorFacts.
Import Js Re Files Resolver Generator.

Context (workspaceRoot : str) (relative : str -> str).
Context (json_version : str -> option (option str)).
Context (json_with_version : str -> str -> option str).
Context (semver_valid : str -> bool).
Context (semver_inc : str -> str -> option str -> option str).

(** [semver.valid] of the empty string is [null]. *)
Hypothesis valid_not_empty : semver_valid [] = false.

Lemma artifact_pattern_version pomContent m :
  exec artifact_pattern pomContent = Some m -> group 5 1 (parts m) <> [].
Proof.
  intros (_ & (Hp & _) & _)%exec_leftmost. revert Hp.
  intros (p1 & ? & -> & _ & (p2 & ? & -> & _ & (p3 & ? & -> & _ &
    (p4 & ? & -> & _ & (p5 & ? & -> & _ & (p6 & ? & -> & H6 & _
    )%parse_cons_inv)%parse_cons_inv)%parse_cons_inv)%parse_cons_inv
    )%parse_cons_inv)%parse_cons_inv.
  unfold group. simpl. rewrite app_nil_r. by destruct p6.
Qed.

(** A version read from disk is not empty. *)
Lemma getVersion_not_empty (disk : files) (projectRoot current : str) :
  getVersion json_version disk projectRoot = inl current -> current <> [].
Proof.
  unfold getVersion, getVersionFromPom, getVersionFromPackageJson.
  destruct (isMavenProject disk projectRoot).
  - destruct (disk !! _); [|done].
    destruct (exec artifact_pattern _) as [m|] eqn:E; [|done].
    intros [= <-]. by apply artifact_pattern_version in E.
  - destruct (disk !! _) as [text|]; [|done].
    destruct (json_version text) as [[v|]|]; try done.
    destruct (Pom.falsy v) eqn:Ev; [done|]. intros [= <-].
    by apply falsy_false.
Qed.

(** The part of C10 that holds of the loop: a project without a specifier,
    or whose new version is its current one, is not written, and its
    entry has the current version read from disk as the new version. *)
Lemma process_without_change (o : options) (spec : option str) (p : project)
  (st : store) (current : str) :
  currentVersionResolver o = lit "disk" ->
  getVersion json_version (disk st) (join workspaceRoot (root p)) = inl current ->
  truthy spec = false \/
    calculate semver_valid semver_inc o spec current = Some current ->
  process workspaceRoot relative json_version json_with_version
    semver_valid semver_inc o spec p st
  = inl (st, Entry current current (root p)).
Proof.
  intros Hdisk Hget Hcase. unfold process.
  rewrite Hdisk, bool_decide_eq_true_2 by done. simpl negb. cbv iota.
  rewrite Hget.
  assert (Hnew : calculate semver_valid semver_inc o spec current = Some current).
  { destruct Hcase as [Hspec|]; [|done]. unfold calculate.
    rewrite Hspec. destruct spec as [s|]; simpl; [|done].
    unfold truthy in Hspec.
    apply negb_false_iff, falsy_nil in Hspec as ->.
    by rewrite valid_not_empty. }
  rewrite Hnew. apply getVersion_not_empty in Hget.
  assert (truthy (Some current) = true) as ->.
  { unfold truthy. by apply negb_true_iff, falsy_false. }
  simpl. rewrite bool_decide_eq_true_2 by done. by rewrite andb_false_r.
Qed.

End GeneratorFacts.

Section GeneratorRun.
Import Js Re Files Resolver Generator.

(** C10 on the code: the loop of [generator.js] leaves the manifest alone
    and records the current version as the new one, but the function ends
    without a [return]: the call yields [undefined], not the results.  The
    variant of the generator that returns its results hands back the entry
    the claim describes. *)
Theorem generator_returns_nothing :
  generate (lit "/w") id no_json no_json_write never_valid no_inc
    no_specifier ∅ [Project (lit "g:a") (lit "apps/a")] one_project ∅
  = inl (one_project,
         {[ lit "g:a" := Entry (lit "1.0.0") (lit "1.0.0") (lit "apps/a") ]}) /\
  versionGenerator (lit "/w") id no_json no_json_write never_valid no_inc
    None no_specifier one_project
  = inl (one_project, None) /\
  versionGenerator_data (lit "/w") id no_json no_json_write never_valid no_inc
    no_specifier one_project
  = inl (one_project,
         Some {[ lit "g:a" := Entry (lit "1.0.0") (lit "1.0.0") (lit "apps/a") ]}).
Proof. split; [by vm_compute|]. split; by vm_compute. Qed.

(** Whatever the call, [versionGenerator] of [generator.js] returns no
    data. *)
Lemma versionGenerator_undefined workspaceRoot relative json_version
  json_with_version semver_valid semver_inc plans (o : options) (st st' : store)
  (r : returned) :
  versionGenerator workspaceRoot relative json_version json_with_version
    semver_valid semver_inc plans o st = inl (st', r) ->
  r = None.
Proof.
  unfold versionGenerator. destruct (projects o) as [[|p ps]|]; try done.
  destruct (generate _ _ _ _ _ _ _ _ _ _ _) as [[??]|]; [|done].
  by intros [= _ <-].
Qed.

End GeneratorRun.

(** ** The release script *)

Section ReleaseFacts.
Import Js Re Files Plans Release.

Context (workspaceRoot : str).
Context (exec_sync : command -> world -> option world).
Context (json_version : str -> option (option str)).

Lemma changelogs_trace updated (w : world) (tr : list event) :
  exists cl, (changelogs exec_sync updated w tr).2 = tr ++ cl /\
    Forall (fun e => is_unlink e = false) cl.
Proof.
  revert w tr. induction updated as [|[name v] rest IH]; intros w tr; simpl.
  - exists []. by rewrite app_nil_r.
  - destruct (exec_sync _ w) as [w'|];
      [destruct (IH w' (tr ++ [Executed (NxReleaseChangelog v name) true]))
         as (cl & -> & Hcl)
      |destruct (IH w (tr ++ [Executed (NxReleaseChangelog v name) false]))
         as (cl & -> & Hcl)];
      eexists (_ :: cl); (split; [by rewrite <- (assoc_L (++))|by constructor]).
Qed.

Lemma delete_plans_trace planFiles (w : world) (tr : list event) :
  exists deleted, (delete_plans planFiles w tr).1.2 = tr ++ map Unlinked deleted.
Proof.
  revert w tr. induction planFiles as [|file rest IH]; intros w tr; simpl.
  - exists []. by rewrite app_nil_r.
  - destruct (unlink file w) as [w'|].
    + destruct (IH w' (tr ++ [Unlinked file])) as (deleted & ->).
      exists (file :: deleted). by rewrite <- (assoc_L (++)).
    + exists []. by rewrite app_nil_r.
Qed.

Lemma refresh_lockfile_trace dry (w : world) (tr : list event) :
  exists lock, trace (refresh_lockfile exec_sync dry w tr) = tr ++ lock /\
    Forall (fun e => is_lockfile_refresh e = true) lock.
Proof.
  unfold refresh_lockfile. destruct dry; [exists []; by rewrite app_nil_r|].
  destruct (exec_sync _ w); eexists [_]; split; try done; by repeat constructor.
Qed.

(** The shape of a run: the version command first, then the changelogs,
    then the deletions, then the refresh of the lockfile. *)
Lemma after_version_trace planFiles projects (w : world) (tr : list event) :
  exists cl deleted lock,
    trace (after_version workspaceRoot exec_sync json_version false planFiles
             projects w tr)
    = tr ++ cl ++ map Unlinked deleted ++ lock /\
    Forall (fun e => is_unlink e = false) cl /\
    Forall (fun e => is_lockfile_refresh e = true) lock.
Proof.
  unfold after_version. cbv zeta iota.
  destruct (changelogs_trace (read_versions workspaceRoot json_version w projects [])
              w tr) as (cl & Hcl & Hclf).
  destruct (changelogs _ _ _ _) as [w1 tr1]. simpl in Hcl. subst tr1.
  destruct (delete_plans_trace planFiles w1 (tr ++ cl)) as (deleted & Hdel).
  destruct (delete_plans _ _ _) as [[w2 tr2] ok]. simpl in Hdel. subst tr2.
  destruct ok.
  - destruct (refresh_lockfile_trace false w2 ((tr ++ cl) ++ map Unlinked deleted))
      as (lock & -> & Hlock).
    exists cl, deleted, lock. by rewrite <- !(assoc_L (++)).
  - exists cl, deleted, []. simpl. by rewrite app_nil_r, <- !(assoc_L (++)).
Qed.

Lemma after_first_unlink (cl rest tr1 tr2 : list event) f :
  Forall (fun e => is_unlink e = false) cl ->
  Forall (fun e => is_unlink e || is_lockfile_refresh e = true) rest ->
  cl ++ rest = tr1 ++ Unlinked f :: tr2 ->
  Forall (fun e => is_unlink e || is_lockfile_refresh e = true) tr2.
Proof.
  revert tr1. induction cl as [|e cl IH]; intros tr1 Hcl Hrest Heq; simpl in Heq.
  - rewrite Heq in Hrest. apply Forall_app in Hrest as [_ Hrest].
    by apply Forall_cons in Hrest as [_ ?].
  - apply Forall_cons in Hcl as [He Hcl]. destruct tr1 as [|e' tr1].
    + injection Heq as -> _. done.
    + injection Heq as _ Heq. by apply (IH tr1).
Qed.

Local Abbreviation run args w :=
  (release workspaceRoot exec_sync json_version args w).

(** The four ways a run goes. *)
Lemma release_cases (args : list str) (w : world) :
  run args w = Result w [] (Exited 1) \/
  (isDryRun args = true /\ run args w = Result w [] (Exited 0)) \/
  (isDryRun args = false /\ exec_sync (NxReleaseVersion (preid args)) w = None /\
   run args w = Result w [Executed (NxReleaseVersion (preid args)) false] (Exited 1)) \/
  (isDryRun args = false /\
   exists w1 cl deleted lock,
     exec_sync (NxReleaseVersion (preid args)) w = Some w1 /\
     trace (run args w) = Executed (NxReleaseVersion (preid args)) true :: cl ++ map Unlinked deleted ++ lock /\
     Forall (fun e => is_unlink e = false) cl /\
     Forall (fun e => is_lockfile_refresh e = true) lock).
Proof.
  unfold release. destruct (plans_of w) as [entries|]; [|by left].
  destruct (filter _ entries) as [|plan plans] eqn:Hplans; [by left|].
  destruct (projectsToRelease _) as [|project projects] eqn:Hprojects; [by left|].
  destruct (isDryRun args) eqn:Hdry.
  - right. left. done.
  - destruct (exec_sync _ w) as [w1|] eqn:Hexec.
    + right. right. right. split; [done|].
      destruct (after_version_trace (map fst (plan :: plans))
                  (project :: projects) w1 [Executed (NxReleaseVersion (preid args)) true])
        as (cl & deleted & lock & Htr & Hcl & Hlock).
      by exists w1, cl, deleted, lock.
    + right. right. left. done.
Qed.

(** C6, amended: in every run of the release script,
    - a plan file is deleted only when the run is not a dry run and the
      command that applies the versions has succeeded, as the first thing
      the script did;
    - when that command fails, the script exits with code 1, nothing is
      deleted, and the world is left as the script found it;
    - after the first deletion only deletions and the refresh of the
      lockfile follow;
    - a dry run executes and deletes nothing.
    (A changelog command that fails does not stop the script.) *)
Theorem plans_deleted_after_versions (args : list str) (w : world) :
  (forall f, In (Unlinked f) (trace (run args w)) ->
     isDryRun args = false /\
     exists w1 tr, exec_sync (NxReleaseVersion (preid args)) w = Some w1 /\
       trace (run args w) = Executed (NxReleaseVersion (preid args)) true :: tr) /\
  (isDryRun args = false -> exec_sync (NxReleaseVersion (preid args)) w = None ->
     final (run args w) = w /\ ended (run args w) = Exited 1 /\
     Forall (fun e => is_unlink e = false) (trace (run args w))) /\
  (forall tr1 f tr2, trace (run args w) = tr1 ++ Unlinked f :: tr2 ->
     Forall (fun e => is_unlink e || is_lockfile_refresh e = true) tr2) /\
  (isDryRun args = true -> final (run args w) = w /\ trace (run args w) = []).
Proof.
  destruct (release_cases args w)
    as [Hr|[[Hdry Hr]|[(Hdry & Hex & Hr)|(Hdry & w1 & cl & del & lock & Hex & Htr & Hcl & Hlock)]]].
  - rewrite Hr. simpl. split; [|split; [|split]].
    + intros f [].
    + intros _ _. split; [done|]. split; [done|constructor].
    + intros [|??] ???; done.
    + done.
  - rewrite Hr. simpl. split; [|split; [|split]].
    + intros f [].
    + congruence.
    + intros [|??] ???; done.
    + done.
  - rewrite Hr. simpl. split; [|split; [|split]].
    + intros f [Hf|[]]. done.
    + intros _ _. split; [done|]. split; [done|]. by repeat constructor.
    + intros [|? [|??]] ???; done.
    + congruence.
  - rewrite Htr. split; [|split; [|split]].
    + intros f _. split; [done|]. by eexists _, _.
    + congruence.
    + intros tr1 f tr2 Heq.
      apply (after_first_unlink (Executed (NxReleaseVersion (preid args)) true :: cl)
               (map Unlinked del ++ lock) tr1 tr2 f); [by constructor| |done].
      apply Forall_app. split.
      * clear. induction del; by constructor.
      * eapply Forall_impl; [done|]. intros e ->. by rewrite orb_true_r.
    + congruence.
Qed.

End ReleaseFacts.

Section ReleaseRun.
Import Js Re Files Plans Release.

(** C6, as stated, fails: a step before the deletion that fails does not
    always keep the plan files.  The failure of a changelog command is
    caught and reported as a warning; the script goes on and deletes the
    plans. *)
Lemma changelog_failure_does_not_keep_plans :
  trace (release (lit "/w") changelog_fails version_101 [] one_plan)
  = [ Executed (NxReleaseVersion None) true;
      Executed (NxReleaseChangelog (lit "1.0.1") (lit "@selfcare/a")) false;
      Unlinked (lit "feature.md");
      Executed NpmInstallLockOnly true ] /\
  plans_of (final (release (lit "/w") changelog_fails version_101 [] one_plan))
  = Some [] /\
  ended (release (lit "/w") changelog_fails version_101 [] one_plan) = Exited 0.
Proof. split; [by vm_compute|]. split; by vm_compute. Qed.

End ReleaseRun.

(** ** Escaping a coordinate for the pattern *)

Section EscapeFacts.
Import Js Re Replace Escape.

Lemma exec_one_cons (c : char -> bool) (x : char) (s : str) :
  exec [One c] (x :: s)
  = if c x then Some (Found [] [[x]] s) else shift x <$> exec [One c] s.
Proof.
  simpl. unfold here. simpl. destruct (c x); [|done]. simpl. by rewrite drop_0.
Qed.

Lemma here_one_false (c : char -> bool) (x : char) (s : str) :
  c x = false -> here [One c] (x :: s) = None.
Proof. intros Hx. unfold here. simpl. by rewrite Hx. Qed.

(** A code unit at which no match begins is copied. *)
Lemma replace_all_skip n r groups template (done : str) x s :
  here r (x :: s) = None ->
  replace_all (S n) r groups template done (x :: s)
  = x :: replace_all (S n) r groups template (done ++ [x]) s.
Proof.
  intros Hhere. cbn [replace_all exec]. rewrite Hhere.
  destruct (exec r s) as [f|]; [|done]. simpl.
  change (whole (shift x f)) with (whole f).
  destruct (whole f), (after f); by rewrite <- ?(assoc_L (++) done).
Qed.

Lemma expand_escape (matched pre post : str) :
  expand matched pre post [] (92%N :: lit "$&") = 92%N :: matched.
Proof. simpl. by rewrite app_nil_r. Qed.

Lemma escapeRegExp_run n (done s : str) :
  length s < n ->
  replace_all n [One is_special] [] (92%N :: lit "$&") done s
  = flat_map escape_char s.
Proof.
  revert n done. induction s as [|x s IH]; intros n done Hn.
  - destruct n; [simpl in Hn; lia|done].
  - destruct n as [|n]; [simpl in Hn; lia|]. cbn [length] in Hn.
    cbn [flat_map]. unfold escape_char at 1.
    destruct (is_special x) eqn:Hx.
    + cbn [replace_all]. rewrite exec_one_cons, Hx.
      cbn [before whole parts after concat app map].
      rewrite expand_escape. cbn [app]. do 2 f_equal. apply IH. lia.
    + rewrite replace_all_skip by by apply here_one_false.
      cbn [app]. f_equal. apply IH. lia.
Qed.

Lemma escape_length (s : str) : length s <= length (flat_map escape_char s).
Proof.
  induction s as [|x s IH]; [done|]. cbn [flat_map]. rewrite length_app.
  unfold escape_char at 1. destruct (is_special x); simpl; lia.
Qed.

Lemma escapeRegExp_flat (value : str) :
  escapeRegExp value = flat_map escape_char value.
Proof. unfold escapeRegExp. apply escapeRegExp_run. lia. Qed.

(** X1: [escapeRegExp] puts one backslash before every operator character
    of the pattern syntax and copies every other code unit; so it goes
    through concatenation, and it returns a text as it is exactly when the
    text holds no operator character. *)
Theorem escapeRegExp_chars :
  (forall value : str, escapeRegExp value = flat_map escape_char value) /\
  (forall a b : str, escapeRegExp (a ++ b) = escapeRegExp a ++ escapeRegExp b) /\
  (forall value : str,
     escapeRegExp value = value
     <-> forallb (fun x => negb (is_special x)) value = true).
Proof.
  pose proof escapeRegExp_flat as H.
  split; [done|]. split.
  - intros a b. rewrite !H. apply flat_map_app.
  - intros value. rewrite H. induction value as [|x s IH]; [done|].
    cbn [flat_map forallb]. unfold escape_char at 1.
    destruct (is_special x) eqn:Hx; cbn [negb andb app].
    + split; [|done]. intros [= _ Heq].
      pose proof (escape_length s) as Hlen. rewrite <- Heq in Hlen at 1.
      simpl in Hlen. lia.
    + rewrite <- IH. split; [by intros [= ->]|by intros ->].
Qed.

(** X2: the escaped text, read as the source of a pattern, is a literal
    for the text that was given: no operator is left in it, and the text
    it stands for is the original one. *)
Theorem escapeRegExp_literal (value : str) :
  literal_source (escapeRegExp value) = Some value.
Proof.
  rewrite escapeRegExp_flat.
  induction value as [|x s IH]; [done|].
  cbn [flat_map]. unfold escape_char at 1.
  destruct (is_special x) eqn:Hx; cbn [app literal_source].
  - change (92 =? 92)%N with true. cbv iota. by rewrite Hx, IH.
  - destruct (N.eqb_spec x 92) as [->|_]; [done|]. by rewrite Hx, IH.
Qed.

End EscapeFacts.

(** ** The class [MavenVersionActions]: writing, then reading *)

Section ManifestFacts.
Import Js Re Replace ReSpec Pom Files Actions Manifest.

Local Opaque open_tag close_tag.

(** What an update returns is never the empty text, and the version it
    wrote is the version read from it. *)
Lemma read_after_update (pomXml : str) (c : coords) (nv updated : str) :
  nv <> [] -> lt_free nv -> dollar_free nv ->
  updateProjectVersionInPom pomXml c nv = Some updated ->
  readProjectVersionFromPom updated c = Some nv /\ updated <> [].
Proof.
  intros Hne Hlt Hdollar Hupd.
  destruct (exec (project_pattern c) pomXml) as [f|] eqn:Hex.
  2:{ unfold updateProjectVersionInPom, test in Hupd. by rewrite Hex in Hupd. }
  destruct (project_match _ _ _ Hex)
    as (ps1 & v & Hparts1 & Hps1 & Hpom & _ & _ & _ & Hout).
  rewrite (Hout nv (dollar_free_pattern_free _ Hdollar)) in Hupd.
  injection Hupd as <-.
  rewrite project_pattern_tail in Hex.
  destruct (exec_swap _ _ _ _ nv (project_head_shape c)
              (project_words_ok c nv Hlt Hne) Hex Hlt Hne)
    as (ps0 & w & Hparts & Hps0 & _ & Hex').
  rewrite Hparts1 in Hparts. apply app_inj_2 in Hparts as [-> _]; [|done].
  split.
  - unfold readProjectVersionFromPom. rewrite project_pattern_tail.
    replace (concat ps0 ++ open_tag ++ nv ++ close_tag ++ after f)
      with (concat ps0 ++ elem nv (after f)).
    2:{ unfold elem. by rewrite open_tag_eq, close_tag_eq. }
    rewrite Hex'. simpl. apply parse_length in Hps0. simpl in Hps0.
    change 13 with (12 + 1). rewrite group_tail by done.
    unfold group. simpl. by rewrite app_nil_r.
  - intros Heq. apply app_eq_nil in Heq as [_ Heq].
    apply app_eq_nil in Heq as [_ Heq]. rewrite open_tag_eq in Heq. done.
Qed.

(** The loop of [updateProjectVersion], when it comes to its end. *)
Lemma update_manifests_done (name : str) (c : coords) (nv : str)
  (manifests : list str) (tree tree' : files) (log log' : list message) :
  nv <> [] -> lt_free nv -> dollar_free nv ->
  update_manifests name c nv manifests tree log = Run tree' (inl log') ->
  log' = log ++ map (VersionWritten nv) manifests /\
  (forall path : str,
     path ∈ manifests \/
     (exists text : str, tree !! path = Some text /\
        readProjectVersionFromPom text c = Some nv /\ text <> []) ->
     exists text : str, tree' !! path = Some text /\
       readProjectVersionFromPom text c = Some nv /\ text <> []).
Proof.
  intros Hne Hlt Hdollar. revert tree log.
  induction manifests as [|p rest IH]; intros tree log; simpl.
  - intros [= -> ->]. split; [by rewrite app_nil_r|].
    intros path [Hin|H]; [by apply elem_of_nil in Hin|done].
  - unfold readText. destruct (tree !! p) as [pomXml|] eqn:Hp; [|done].
    destruct (falsy pomXml); [done|].
    destruct (updateProjectVersionInPom pomXml c nv) as [updated|] eqn:Hupd;
      [|done].
    destruct (falsy updated); [done|]. intros Hrun.
    apply IH in Hrun as [-> Hinv]. split; [by rewrite <- (assoc_L (++))|].
    intros path Hpath. apply Hinv. unfold writeText.
    destruct (decide (path = p)) as [->|Hp'].
    + right. exists updated. rewrite lookup_insert_eq. split; [done|].
      by apply read_after_update with pomXml.
    + destruct Hpath as [Hin|(text & Ht & HP)].
      * left. apply elem_of_cons in Hin as [?|?]; done.
      * right. exists text. by rewrite lookup_insert_ne.
Qed.

(** The loops write to the manifests they are given, and to nothing else,
    however they end. *)
Lemma update_manifests_frame (name : str) (c : coords) (nv : str)
  (manifests : list str) (tree : files) (log : list message) (path : str) :
  path ∉ manifests ->
  tree_after (update_manifests name c nv manifests tree log) !! path
  = tree !! path.
Proof.
  revert tree log. induction manifests as [|p rest IH]; intros tree log; simpl;
    [done|].
  intros [Hp Hrest]%not_elem_of_cons. unfold readText.
  destruct (tree !! p) as [pomXml|]; [|done].
  destruct (falsy pomXml); [done|].
  destruct (updateProjectVersionInPom pomXml c nv) as [updated|]; [|done].
  destruct (falsy updated); [done|].
  rewrite IH by done. unfold writeText. by rewrite lookup_insert_ne.
Qed.

Lemma update_dependency_manifests_frame (deps : list (str * str))
  (manifests : list str) (tree : files) (log : list message) (path : str) :
  path ∉ manifests ->
  tree_after (update_dependency_manifests deps manifests tree log) !! path
  = tree !! path.
Proof.
  revert tree log. induction manifests as [|p rest IH]; intros tree log; simpl;
    [done|].
  intros [Hp Hrest]%not_elem_of_cons. unfold readText.
  destruct (tree !! p) as [pomXml|]; [|done].
  destruct (falsy pomXml); [done|].
  destruct (update_dependencies deps pomXml 0) as [updated [|count]].
  - by apply IH.
  - rewrite IH by done. unfold writeText. by rewrite lookup_insert_ne.
Qed.

(** X3: a version that [updateProjectVersion] has written is the version
    [readCurrentVersionFromSourceManifest] reads.  For a new version that
    is not empty and holds neither [<] nor [$]: when the update returns,
    it has logged one line for every manifest, in their order, and reading
    the current version of the project from a manifest among them gives
    the new version. *)
Theorem written_version_is_read (projectName root : str)
  (manifests : list str) (tree tree' : files) (newVersion : str)
  (log : list message) :
  newVersion <> [] -> lt_free newVersion -> dollar_free newVersion ->
  join root (lit "pom.xml") ∈ manifests ->
  updateProjectVersion projectName manifests tree newVersion
  = Run tree' (inl log) ->
  log = map (VersionWritten newVersion) manifests /\
  readCurrentVersionFromSourceManifest projectName root tree'
  = inl (SourceVersion (join root (lit "pom.xml")) newVersion).
Proof.
  intros Hne Hlt Hdollar Hin. unfold updateProjectVersion.
  destruct (parseMavenCoords projectName) as [c|] eqn:Hc; [|done].
  intros Hrun.
  apply update_manifests_done in Hrun as [-> Hinv]; [|done..].
  split; [done|].
  destruct (Hinv _ (or_introl Hin)) as (text & Htext & Hread & Hsome).
  unfold readCurrentVersionFromSourceManifest, readText. cbv zeta.
  rewrite Htext, Hc, Hread.
  destruct text; [done|]. by destruct newVersion.
Qed.

Lemma written_version_is_read_witness :
  [VersionWritten (lit "2.0.0") (lit "apps/a/pom.xml")]
  = map (VersionWritten (lit "2.0.0")) [lit "apps/a/pom.xml"] /\
  readCurrentVersionFromSourceManifest (lit "g:a") (lit "apps/a")
    (pom_at (lit "apps/a") pom_ga_updated)
  = inl (SourceVersion (join (lit "apps/a") (lit "pom.xml")) (lit "2.0.0")).
Proof.
  apply (written_version_is_read (lit "g:a") (lit "apps/a")
           [lit "apps/a/pom.xml"] (pom_at (lit "apps/a") pom_ga)
           (pom_at (lit "apps/a") pom_ga_updated) (lit "2.0.0"));
    try by vm_compute.
  - by apply list_elem_of_here.
Defined.

(** X4: the two methods that write touch no file but the manifests they
    are given: whatever a call returns or throws, every other path of the
    tree holds what it held before. *)
Theorem writes_stay_in_manifests :
  (forall (projectName : str) (manifests : list str) (tree : files)
          (newVersion path : str),
     path ∉ manifests ->
     tree_after (updateProjectVersion projectName manifests tree newVersion)
       !! path = tree !! path) /\
  (forall (manifests : list str) (tree : files) (deps : list (str * str))
          (path : str),
     path ∉ manifests ->
     tree_after (updateProjectDependencies manifests tree deps) !! path
     = tree !! path).
Proof.
  split.
  - intros name manifests tree nv path Hpath. unfold updateProjectVersion.
    destruct (parseMavenCoords name); [|done].
    by apply update_manifests_frame.
  - intros manifests tree deps path Hpath. unfold updateProjectDependencies.
    destruct deps; [done|]. by apply update_dependency_manifests_frame.
Qed.

(** X5: the current version that [readCurrentVersionFromSourceManifest]
    returns is the text of a version element of the manifest of the
    project, the one that follows the coordinates the name of the project
    gives; it is never empty and holds no [<].  The root of the project is
    a path that [path.join] does not rewrite, so that the manifest is at
    [root/pom.xml]. *)
Theorem source_version_is_an_element (projectName root : str) (tree : files)
  (r : source_version) :
  plain_path root = true ->
  readCurrentVersionFromSourceManifest projectName root tree = inl r ->
  manifestPath r = join root (lit "pom.xml") /\
  currentVersion r <> [] /\ lt_free (currentVersion r) /\
  exists (c : coords) (pre : str) (ps0 : pieces) (post : str),
    parseMavenCoords projectName = Some c /\
    parse (project_head c) ps0 /\
    tree !! manifestPath r
    = Some (pre ++ concat ps0 ++ open_tag ++ currentVersion r ++ close_tag
              ++ post).
Proof.
  intros _.
  unfold readCurrentVersionFromSourceManifest, readText. cbv zeta.
  destruct (tree !! join root (lit "pom.xml")) as [pomXml|] eqn:Hpom; [|done].
  destruct (falsy pomXml); [done|].
  destruct (parseMavenCoords projectName) as [c|]; [|done].
  unfold readProjectVersionFromPom.
  destruct (exec (project_pattern c) pomXml) as [f|] eqn:Hex; [|done].
  cbn [fmap option_fmap option_map].
  destruct (project_match _ _ _ Hex)
    as (ps0 & v & _ & Hps0 & Htext & Hv & Hvf & -> & _).
  destruct (falsy v); [done|]. intros [= <-].
  cbn [manifestPath currentVersion].
  split; [done|]. split; [done|]. split; [done|].
  exists c, (before f), ps0, (after f). split; [done|]. split; [done|].
  rewrite <- Htext. exact Hpom.
Qed.

Lemma source_version_is_an_element_witness :
  manifestPath (SourceVersion (lit "apps/a/pom.xml") (lit "1.0.0"))
  = join (lit "apps/a") (lit "pom.xml") /\
  currentVersion (SourceVersion (lit "apps/a/pom.xml") (lit "1.0.0")) <> [] /\
  lt_free (currentVersion (SourceVersion (lit "apps/a/pom.xml") (lit "1.0.0"))) /\
  exists (c : coords) (pre : str) (ps0 : pieces) (post : str),
    parseMavenCoords (lit "g:a") = Some c /\
    parse (project_head c) ps0 /\
    pom_at (lit "apps/a") pom_ga
      !! manifestPath (SourceVersion (lit "apps/a/pom.xml") (lit "1.0.0"))
    = Some (pre ++ concat ps0 ++ open_tag
              ++ currentVersion (SourceVersion (lit "apps/a/pom.xml") (lit "1.0.0"))
              ++ close_tag ++ post).
Proof.
  apply (source_version_is_an_element (lit "g:a") (lit "apps/a")
           (pom_at (lit "apps/a") pom_ga)); by vm_compute.
Defined.

End ManifestFacts.

(** ** The class [MavenVersionActions]: the versions of dependencies *)

Section DependencyFacts.
Import Js Re Replace ReSpec Pom Files Actions Manifest.

(** The inner loop counts the dependencies whose update changed the text. *)
Lemma update_dependencies_count (deps : list (str * str)) (pomXml : str)
  (n : nat) :
  n <= (update_dependencies deps pomXml n).2 <= n + length deps /\
  ((update_dependencies deps pomXml n).2 = n ->
   (update_dependencies deps pomXml n).1 = pomXml).
Proof.
  revert pomXml n. induction deps as [|[name nv] rest IH]; intros pomXml n;
    simpl; [split; [lia|done]|].
  destruct (parseMavenCoords name) as [c|].
  2:{ destruct (IH pomXml n) as [? ?]. split; [lia|done]. }
  destruct (updateDependencyVersionInPom pomXml c nv) as [updatedPom|].
  2:{ destruct (IH pomXml n) as [? ?]. split; [lia|done]. }
  destruct (bool_decide (updatedPom = pomXml)).
  - destruct (IH pomXml n) as [? ?]. split; [lia|done].
  - destruct (IH updatedPom (S n)) as [? ?]. split; lia.
Qed.

Lemma update_dependencies_none (deps : list (str * str)) (pomXml : str)
  (n : nat) :
  (forall (name nv : str) (c : coords),
     (name, nv) ∈ deps -> parseMavenCoords name = Some c ->
     readDependencyVersionFromPom pomXml c = None) ->
  update_dependencies deps pomXml n = (pomXml, n).
Proof.
  induction deps as [|[name nv] rest IH]; intros Hnone; simpl; [done|].
  assert (Hrest : update_dependencies rest pomXml n = (pomXml, n)).
  { apply IH. intros name' nv' c Hin. apply (Hnone name' nv' c).
    by apply list_elem_of_further. }
  destruct (parseMavenCoords name) as [c|] eqn:Hc; [|done].
  pose proof (Hnone name nv c (list_elem_of_here _ _) Hc) as Hread.
  unfold readDependencyVersionFromPom in Hread.
  unfold updateDependencyVersionInPom.
  destruct (exec (dependency_pattern c) pomXml) as [f|]; [|done].
  unfold test.
  destruct (exec block_version_pattern (whole f)); [done|].
  by rewrite bool_decide_eq_true_2.
Qed.

(** The loop of [updateProjectDependencies] over the manifests. *)
Lemma update_dependency_manifests_log (deps : list (str * str))
  (manifests : list str) (tree tree' : files) (log log' : list message) :
  update_dependency_manifests deps manifests tree log = Run tree' (inl log') ->
  exists new : list message,
    log' = log ++ new /\ length new <= length manifests /\
    Forall (fun m => exists (count : nat) (path : str),
              m = DependenciesUpdated count path /\
              1 <= count <= length deps /\ path ∈ manifests) new /\
    (new = [] -> tree' = tree).
Proof.
  revert tree log. induction manifests as [|p rest IH]; intros tree log; simpl.
  - intros [= -> ->]. exists []. by rewrite app_nil_r.
  - unfold readText. destruct (tree !! p) as [pomXml|]; [|done].
    destruct (falsy pomXml); [done|].
    pose proof (update_dependencies_count deps pomXml 0) as [Hcount _].
    destruct (update_dependencies deps pomXml 0) as [updated [|count]];
      simpl in Hcount.
    + intros (new & -> & Hlen & Hall & Hsame)%IH. exists new.
      split; [done|]. split; [lia|]. split; [|done].
      eapply Forall_impl; [done|]. intros m (k & path & ? & ? & ?).
      exists k, path. split; [done|]. split; [done|].
      by apply list_elem_of_further.
    + intros (new & -> & Hlen & Hall & Hsame)%IH.
      exists (DependenciesUpdated (S count) p :: new).
      split; [by rewrite <- (assoc_L (++))|]. split; [simpl; lia|].
      split; [|done]. constructor.
      * exists (S count), p. split; [done|]. split; [lia|].
        apply list_elem_of_here.
      * eapply Forall_impl; [done|]. intros m (k & path & ? & ? & ?).
        exists k, path. split; [done|]. split; [done|].
        by apply list_elem_of_further.
Qed.

(** X6: what [updateProjectDependencies] logs and what it writes go
    together.  When it returns, there is at most one line for a manifest;
    a line counts at least one and at most as many updates as there are
    dependencies and names one of the manifests; and without a line the
    tree is the one that was given. *)
Theorem dependency_updates_are_logged (manifests : list str)
  (tree tree' : files) (deps : list (str * str)) (log : list message) :
  updateProjectDependencies manifests tree deps = Run tree' (inl log) ->
  length log <= length manifests /\
  Forall (fun m => exists (count : nat) (path : str),
            m = DependenciesUpdated count path /\
            1 <= count <= length deps /\ path ∈ manifests) log /\
  (log = [] -> tree' = tree).
Proof.
  unfold updateProjectDependencies. destruct deps as [|d deps].
  - intros [= -> <-]. split; [simpl; lia|]. split; [constructor|done].
  - intros (new & -> & Hlen & Hall & Hsame)%update_dependency_manifests_log.
    done.
Qed.

Lemma dependency_updates_are_logged_witness :
  length [DependenciesUpdated 1 (lit "apps/a/pom.xml")]
  <= length [lit "apps/a/pom.xml"] /\
  Forall (fun m => exists (count : nat) (path : str),
            m = DependenciesUpdated count path /\
            1 <= count <= length [(lit "g:b", lit "2.0.0")] /\
            path ∈ [lit "apps/a/pom.xml"])
    [DependenciesUpdated 1 (lit "apps/a/pom.xml")] /\
  ([DependenciesUpdated 1 (lit "apps/a/pom.xml")] = [] ->
   pom_at (lit "apps/a") pom_two_updated = pom_at (lit "apps/a") pom_two).
Proof.
  apply (dependency_updates_are_logged [lit "apps/a/pom.xml"]
           (pom_at (lit "apps/a") pom_two)
           (pom_at (lit "apps/a") pom_two_updated)
           [(lit "g:b", lit "2.0.0")]).
  by vm_compute.
Defined.

(** X7: a dependency whose version reads as [null] is not written.  If
    [readDependencyVersionFromPom] finds no version, the update returns
    [null] or the text as it was; and if
    [readCurrentVersionOfDependency] reports no version for any of the
    dependencies to update, [updateProjectDependencies] leaves the tree
    as it is and logs nothing. *)
Theorem unversioned_dependencies_untouched :
  (forall (pomXml : str) (c : coords) (newVersion : str),
     readDependencyVersionFromPom pomXml c = None ->
     updateDependencyVersionInPom pomXml c newVersion = None \/
     updateDependencyVersionInPom pomXml c newVersion = Some pomXml) /\
  (forall (root : str) (tree : files) (deps : list (str * str)),
     (forall name nv : str, (name, nv) ∈ deps ->
        dependencyVersion (readCurrentVersionOfDependency root tree name)
        = None) ->
     tree_after (updateProjectDependencies [join root (lit "pom.xml")] tree deps)
     = tree /\
     forall log : list message,
       outcome (updateProjectDependencies [join root (lit "pom.xml")] tree deps)
       = inl log -> log = []).
Proof.
  split.
  - intros pomXml c nv. unfold readDependencyVersionFromPom,
      updateDependencyVersionInPom, test.
    destruct (exec (dependency_pattern c) pomXml) as [f|]; [|by left].
    destruct (exec block_version_pattern (whole f)); [done|by right].
  - intros root tree deps Hnone. unfold updateProjectDependencies.
    destruct deps as [|d deps]; [by split; [|intros log [= <-]]|].
    cbn [update_dependency_manifests]. unfold readText.
    destruct (tree !! join root (lit "pom.xml")) as [pomXml|] eqn:Hpom;
      [|done].
    destruct (falsy pomXml) eqn:Hfalsy; [done|].
    rewrite (update_dependencies_none (d :: deps) pomXml 0).
    + by split; [|intros log [= <-]].
    + intros name nv c Hin Hc. specialize (Hnone name nv Hin).
      unfold readCurrentVersionOfDependency, readText in Hnone.
      by rewrite Hc, Hpom, Hfalsy in Hnone.
Qed.

End DependencyFacts.

(** ** The resolver: writing a version, then reading it *)

Section ResolverFacts.
Import Js Re Replace ReSpec Pom Files Resolver.

Context (relative : str -> str).
Context (json_version : str -> option (option str)).
Context (json_with_version : str -> str -> option str).

Local Opaque open_tag close_tag.

Lemma artifact_pattern_tail : artifact_pattern = artifact_head ++ version_tail.
Proof. reflexivity. Qed.

Lemma artifact_head_shape : shape (fun _ => False) artifact_head.
Proof.
  unfold artifact_head.
  apply shape_tag; [done|]. apply shape_free; [done|].
  apply shape_tag; [done|]. apply shape_free; [done|]. constructor.
Qed.

Lemma no_words_ok (r0 : regex) (nv : str) : words_ok (fun _ => False) r0 nv.
Proof.
  intros bef aft v ps0 _ pre d post q q1 q2 l p1 p2 r1 r2 Hword. destruct Hword.
Qed.

(** [`$1${newVersion}$2`] over two groups. *)
Lemma expand_artifact_template (matched pre post g1 g2 nv : str) :
  dollar_free nv ->
  expand matched pre post [g1; g2] (artifact_template nv) = g1 ++ nv ++ g2.
Proof.
  intros Hnv. unfold artifact_template.
  change (lit "$1" ++ nv ++ lit "$2")
    with (dollar :: ch "1" :: nv ++ dollar :: ch "2" :: []).
  rewrite (expand_ref _ _ _ _ _ g1); [|done|done|simpl; lia].
  rewrite expand_plain; [|done].
  rewrite (expand_ref _ _ _ _ _ g2); [|done|done|simpl; lia].
  simpl. by rewrite app_nil_r.
Qed.

(** What a match of the pattern of the resolver looks like, what
    [setVersionInPom] makes of it, and what is found in the result. *)
Lemma artifact_match (pomContent : str) (m : found) :
  exec artifact_pattern pomContent = Some m ->
  exists (ps0 : pieces) (v : str),
    parts m = ps0 ++ [open_tag; v; close_tag] /\
    pomContent = before m ++ concat ps0 ++ open_tag ++ v ++ close_tag ++ after m /\
    group 5 1 (parts m) = v /\
    (forall nv : str, dollar_free nv ->
       replace_re artifact_pattern artifact_groups (artifact_template nv)
         pomContent
       = before m ++ concat ps0 ++ open_tag ++ nv ++ close_tag ++ after m) /\
    (forall nv : str, nv <> [] -> lt_free nv ->
       (fun f => group 5 1 (parts f))
         <$> exec artifact_pattern
               (before m ++ concat ps0 ++ open_tag ++ nv ++ close_tag ++ after m)
       = Some nv).
Proof.
  intros Hex. rewrite artifact_pattern_tail in Hex.
  apply exec_leftmost in Hex as Hleft.
  destruct Hleft as (Hs & (Hp & _) & _).
  apply parse_app_inv in Hp as (ps0 & pt & Hparts & Hps0 & Hpt).
  apply parse_version_tail in Hpt as (v & -> & Hv & Hvf).
  exists ps0, v. pose proof (parse_length _ _ Hps0) as Hlen. simpl in Hlen.
  unfold whole in Hs. rewrite Hparts in Hs.
  rewrite concat_app in Hs. simpl in Hs. rewrite app_nil_r in Hs.
  split; [done|].
  split; [rewrite Hs at 1; by rewrite <- !(assoc_L (++))|].
  split.
  { rewrite Hparts. change 5 with (4 + 1). rewrite group_tail by done.
    unfold group. simpl. by rewrite app_nil_r. }
  split.
  - intros nv Hnv. unfold replace_re. rewrite artifact_pattern_tail, Hex.
    unfold artifact_groups. cbn [map fst snd]. rewrite Hparts.
    rewrite (expand_artifact_template _ _ _ _ _ _ Hnv).
    change (group 0 5) with (group 0 (4 + 1)).
    change (group 6 1) with (group (4 + 2) 1).
    rewrite group_head, group_tail by done.
    unfold group. simpl. by rewrite !app_nil_r, <- !(assoc_L (++)).
  - intros nv Hne Hlt.
    destruct (exec_swap _ _ _ _ nv artifact_head_shape
                (no_words_ok artifact_head nv) Hex Hlt Hne)
      as (ps1 & w & Hparts1 & Hps1 & _ & Hex').
    rewrite Hparts in Hparts1. apply app_inj_2 in Hparts1 as [<- _]; [|done].
    rewrite artifact_pattern_tail.
    replace (concat ps0 ++ open_tag ++ nv ++ close_tag ++ after m)
      with (concat ps0 ++ elem nv (after m)).
    2:{ unfold elem. by rewrite open_tag_eq, close_tag_eq. }
    rewrite Hex'. simpl. change 5 with (4 + 1). rewrite group_tail by done.
    unfold group. simpl. by rewrite app_nil_r.
Qed.

Lemma pom_is_not_package (projectRoot : str) :
  join projectRoot (lit "pom.xml") <> join projectRoot (lit "package.json").
Proof. unfold join. intros H. by apply app_inv_head in H. Qed.

(** Writing the manifest on disk, then reading it. *)
Lemma write_then_read_pom (disk : files)
  (projectRoot current newVersion : str) :
  getVersionFromPom disk projectRoot = inl current ->
  newVersion <> [] -> lt_free newVersion -> dollar_free newVersion ->
  exists updated : str,
    setVersionInPom relative (Store disk None) projectRoot newVersion
    = inl (Store (<[join projectRoot (lit "pom.xml") := updated]> disk) None) /\
    getVersionFromPom (<[join projectRoot (lit "pom.xml") := updated]> disk)
      projectRoot = inl newVersion.
Proof.
  intros Hget Hne Hlt Hdollar.
  unfold getVersionFromPom in Hget. cbv zeta in Hget.
  destruct (disk !! join projectRoot (lit "pom.xml")) as [pomContent|] eqn:Hpom;
    [|done].
  destruct (exec artifact_pattern pomContent) as [m|] eqn:Hex; [|done].
  destruct (artifact_match _ _ Hex) as (ps0 & v & _ & _ & _ & Hset & Hread).
  eexists. split.
  - unfold setVersionInPom. cbv zeta. cbn [Resolver.disk]. rewrite Hpom.
    unfold current_text, write. cbn [tree Resolver.disk]. reflexivity.
  - unfold getVersionFromPom. cbv zeta.
    rewrite lookup_insert_eq, (Hset _ Hdollar).
    specialize (Hread _ Hne Hlt).
    apply fmap_Some in Hread as (f & Hf & Hnv). by rewrite Hf, Hnv.
Qed.

(** X8: on disk, a version that [setVersion] has written into the
    manifest of a Maven project is the version [getVersion] reads.  For a
    project whose version can be read, and a new version that is not
    empty and holds neither [<] nor [$]: the write succeeds, the read
    after it returns the new version, and no other file has changed. *)
Theorem setVersion_then_getVersion (disk : files)
  (projectRoot current newVersion : str) :
  isMavenProject disk projectRoot = true ->
  getVersion json_version disk projectRoot = inl current ->
  newVersion <> [] -> lt_free newVersion -> dollar_free newVersion ->
  exists disk' : files,
    setVersion relative json_with_version (Store disk None) projectRoot
      newVersion = inl (Store disk' None) /\
    getVersion json_version disk' projectRoot = inl newVersion /\
    forall path : str,
      path <> join projectRoot (lit "pom.xml") -> disk' !! path = disk !! path.
Proof.
  intros Hmaven Hget Hne Hlt Hdollar.
  unfold getVersion in Hget. rewrite Hmaven in Hget.
  destruct (write_then_read_pom _ _ _ _ Hget Hne Hlt Hdollar)
    as (updated & Hset & Hread).
  exists (<[join projectRoot (lit "pom.xml") := updated]> disk).
  split; [|split].
  - unfold setVersion. cbn [Resolver.disk]. by rewrite Hmaven.
  - unfold getVersion, isMavenProject, exists_file.
    by rewrite lookup_insert_eq.
  - intros path Hpath. by rewrite lookup_insert_ne.
Qed.

(** X9: [setVersion] on a Maven project never throws, even where
    [getVersion] does: when the manifest holds no version element behind
    an artifact name, the write goes through and the file is written back
    with the text it had. *)
Theorem setVersion_without_version_element (disk : files)
  (projectRoot newVersion : str) :
  isMavenProject disk projectRoot = true ->
  exists disk' : files,
    setVersion relative json_with_version (Store disk None) projectRoot
      newVersion = inl (Store disk' None) /\
    (forall pomPath : str,
       getVersion json_version disk projectRoot = inr (VersionNotInPom pomPath) ->
       disk' = disk).
Proof.
  intros Hmaven. unfold setVersion, getVersion. cbn [Resolver.disk].
  rewrite Hmaven. unfold setVersionInPom, getVersionFromPom. cbv zeta.
  cbn [Resolver.disk]. unfold isMavenProject, exists_file in Hmaven.
  destruct (disk !! join projectRoot (lit "pom.xml")) as [pomContent|] eqn:Hpom;
    [|done].
  eexists. split; [reflexivity|].
  intros pomPath. unfold current_text. cbn [tree].
  unfold replace_re.
  destruct (exec artifact_pattern pomContent) as [m|]; [done|].
  intros _. by apply insert_id.
Qed.

(** X10: for a project that has a [pom.xml], the [package.json] beside it
    plays no part: whatever it holds, [getVersion] returns the same, and
    [setVersion] leaves it as it is. *)
Theorem pom_takes_precedence (disk : files) (projectRoot : str) :
  isMavenProject disk projectRoot = true ->
  (forall text : str,
     getVersion json_version
       (<[join projectRoot (lit "package.json") := text]> disk) projectRoot
     = getVersion json_version disk projectRoot) /\
  (forall (newVersion : str) (st' : store),
     setVersion relative json_with_version (Store disk None) projectRoot
       newVersion = inl st' ->
     Resolver.disk st' !! join projectRoot (lit "package.json")
     = disk !! join projectRoot (lit "package.json")).
Proof.
  intros Hmaven. pose proof (pom_is_not_package projectRoot) as Hne. split.
  - intros text. unfold getVersion, isMavenProject, exists_file.
    unfold isMavenProject, exists_file in Hmaven.
    rewrite lookup_insert_ne by done.
    destruct (disk !! join projectRoot (lit "pom.xml")) eqn:Hpom; [|done].
    unfold getVersionFromPom. cbv zeta. by rewrite lookup_insert_ne, Hpom.
  - intros nv st'. unfold setVersion. cbn [Resolver.disk]. rewrite Hmaven.
    unfold setVersionInPom. cbv zeta. cbn [Resolver.disk].
    destruct (disk !! join projectRoot (lit "pom.xml")); [|done].
    intros [= <-]. unfold write. cbn [tree Resolver.disk].
    by rewrite lookup_insert_ne.
Qed.


End ResolverFacts.

Section ResolverRun.
Import Js Re Replace ReSpec Pom Files Resolver.

Lemma setVersion_then_getVersion_witness :
  exists disk' : files,
    setVersion id no_json_write (Store (pom_at (lit "/w/apps/a") pom_ga) None)
      (lit "/w/apps/a") (lit "2.0.0") = inl (Store disk' None) /\
    getVersion no_json disk' (lit "/w/apps/a") = inl (lit "2.0.0") /\
    forall path : str,
      path <> join (lit "/w/apps/a") (lit "pom.xml") ->
      disk' !! path = pom_at (lit "/w/apps/a") pom_ga !! path.
Proof.
  apply (setVersion_then_getVersion id no_json no_json_write
           (pom_at (lit "/w/apps/a") pom_ga) (lit "/w/apps/a") (lit "1.0.0")
           (lit "2.0.0")); by vm_compute.
Defined.

Lemma setVersion_without_version_element_witness :
  exists disk' : files,
    setVersion id no_json_write (Store (pom_at (lit "/w/apps/a") pom_bare) None)
      (lit "/w/apps/a") (lit "2.0.0") = inl (Store disk' None) /\
    (forall pomPath : str,
       getVersion no_json (pom_at (lit "/w/apps/a") pom_bare) (lit "/w/apps/a")
       = inr (VersionNotInPom pomPath) ->
       disk' = pom_at (lit "/w/apps/a") pom_bare).
Proof.
  apply (setVersion_without_version_element id no_json no_json_write
           (pom_at (lit "/w/apps/a") pom_bare) (lit "/w/apps/a") (lit "2.0.0")).
  by vm_compute.
Defined.

Lemma pom_takes_precedence_witness :
  (forall text : str,
     getVersion no_json
       (<[join (lit "/w/apps/a") (lit "package.json") := text]>
          (pom_at (lit "/w/apps/a") pom_ga)) (lit "/w/apps/a")
     = getVersion no_json (pom_at (lit "/w/apps/a") pom_ga) (lit "/w/apps/a")) /\
  (forall (newVersion : str) (st' : store),
     setVersion id no_json_write (Store (pom_at (lit "/w/apps/a") pom_ga) None)
       (lit "/w/apps/a") newVersion = inl st' ->
     Resolver.disk st' !! join (lit "/w/apps/a") (lit "package.json")
     = pom_at (lit "/w/apps/a") pom_ga
         !! join (lit "/w/apps/a") (lit "package.json")).
Proof.
  apply (pom_takes_precedence id no_json no_json_write
           (pom_at (lit "/w/apps/a") pom_ga) (lit "/w/apps/a")).
  by vm_compute.
Defined.

End ResolverRun.

(** ** The version generator: where the versions come from and go to *)

Section GeneratorStaging.
Import Js Re Files Resolver Generator.

Context (workspaceRoot : str) (relative : str -> str).
Context (json_version : str -> option (option str)).
Context (json_with_version : str -> str -> option str).
Context (semver_valid : str -> bool).
Context (semver_inc : str -> str -> option str -> option str).

Local Abbreviation process_one :=
  (process workspaceRoot relative json_version json_with_version semver_valid
     semver_inc).

Local Abbreviation generate_all :=
  (generate workspaceRoot relative json_version json_with_version semver_valid
     semver_inc).



(** X12: without a tree, what the loop reports is what the disk holds.
    After a turn of the loop for a Maven project, reading the version of
    the project from disk gives the new version of its entry (when that
    version holds neither [<] nor [$]), whether the manifest was written
    or left alone. *)
Theorem processed_version_is_on_disk (o : options) (spec : option str)
  (p : project) (disk0 : files) (st' : store) (e : entry) :
  isMavenProject disk0 (join workspaceRoot (root p)) = true ->
  process_one o spec p (Store disk0 None) = inl (st', e) ->
  lt_free (newVersion e) -> dollar_free (newVersion e) ->
  tree st' = None /\
  getVersion json_version (disk st') (join workspaceRoot (root p))
  = inl (newVersion e).
Proof.
  intros Hmaven. unfold process. cbv zeta. cbn [disk].
  destruct (negb (bool_decide (currentVersionResolver o = lit "disk"))); [done|].
  destruct (getVersion json_version disk0 _) as [current|] eqn:Hget; [|done].
  remember (calculate semver_valid semver_inc o spec current) as new eqn:Hnew.
  destruct (negb (truthy new) && truthy spec) eqn:Herr; [done|].
  destruct (truthy spec && negb (bool_decide (new = Some current))) eqn:Hw.
  - apply andb_prop in Hw as [Hspec _]. rewrite Hspec, andb_true_r in Herr.
    apply negb_false_iff in Herr. rewrite Herr.
    destruct (setVersion _ _ _ _ _) as [st1|] eqn:Hset; [|done].
    intros [= <- <-]. cbn [newVersion]. intros Hlt Hdollar.
    assert (Hne : default [] new <> []).
    { destruct new as [[|x nv]|]; done. }
    unfold getVersion in Hget. rewrite Hmaven in Hget.
    destruct (write_then_read_pom relative _ _ _ _ Hget Hne Hlt Hdollar)
      as (updated & Hset' & Hread).
    unfold setVersion in Hset. cbn [disk] in Hset.
    rewrite Hmaven, Hset' in Hset. injection Hset as <-.
    split; [done|]. cbn [disk]. unfold getVersion, isMavenProject, exists_file.
    by rewrite lookup_insert_eq.
  - intros [= <- <-]. cbn [newVersion tree disk]. intros _ _.
    split; [done|]. rewrite Hget. f_equal.
    destruct (truthy new) eqn:Htruthy; [|done].
    apply andb_false_iff in Hw as [Hspec|Hsame].
    + subst new. unfold calculate in *. rewrite Hspec in *.
      destruct (valid semver_valid spec); [by rewrite Hspec in Htruthy|done].
    + apply negb_false_iff, bool_decide_eq_true in Hsame. by rewrite Hsame.
Qed.

End GeneratorStaging.

Section GeneratorStagingRun.
Import Js Re Files Resolver Generator.


Lemma processed_version_is_on_disk_witness :
  tree (Store (pom_at (lit "/w/apps/a") pom_ga_updated) None) = None /\
  getVersion no_json
    (disk (Store (pom_at (lit "/w/apps/a") pom_ga_updated) None))
    (join (lit "/w") (root (Project (lit "g:a") (lit "apps/a"))))
  = inl (newVersion (Entry (lit "1.0.0") (lit "2.0.0") (lit "apps/a"))).
Proof.
  apply (processed_version_is_on_disk (lit "/w") id no_json no_json_write
           only_200 no_inc explicit_200 (Some (lit "2.0.0"))
           (Project (lit "g:a") (lit "apps/a"))
           (pom_at (lit "/w/apps/a") pom_ga)
           (Store (pom_at (lit "/w/apps/a") pom_ga_updated) None)
           (Entry (lit "1.0.0") (lit "2.0.0") (lit "apps/a")));
    by vm_compute.
Defined.

End GeneratorStagingRun.

(** ** The release script: what a run has done when it ends *)

Section ReleaseOrder.
Import Js Re Files Plans Release.

Context (workspaceRoot : str).
Context (exec_sync : command -> world -> option world).
Context (json_version : str -> option (option str)).

Local Abbreviation run args w :=
  (release workspaceRoot exec_sync json_version args w).

Lemma changelogs_events (updated : jsmap) (w : world) (tr : list event) :
  exists cl : list event,
    (changelogs exec_sync updated w tr).2 = tr ++ cl /\
    Forall2 changelog_of updated cl.
Proof.
  revert w tr. induction updated as [|[name v] rest IH]; intros w tr; simpl.
  - exists []. by rewrite app_nil_r.
  - destruct (exec_sync _ w) as [w'|];
      [destruct (IH w' (tr ++ [Executed (NxReleaseChangelog v name) true]))
         as (cl & -> & Hcl)
      |destruct (IH w (tr ++ [Executed (NxReleaseChangelog v name) false]))
         as (cl & -> & Hcl)];
      eexists (_ :: cl);
      (split; [by rewrite <- (assoc_L (++))|constructor; [by eexists|done]]).
Qed.

Lemma delete_plans_all (planFiles : list str) (w w2 : world)
  (tr tr2 : list event) :
  delete_plans planFiles w tr = (w2, tr2, true) ->
  tr2 = tr ++ map Unlinked planFiles.
Proof.
  revert w tr. induction planFiles as [|file rest IH]; intros w tr; simpl.
  - intros [= _ <-]. by rewrite app_nil_r.
  - destruct (unlink file w) as [w'|]; [|done].
    intros ->%IH. by rewrite <- (assoc_L (++)).
Qed.

Lemma delete_plans_stopped (planFiles : list str) (w w2 : world)
  (tr tr2 : list event) :
  delete_plans planFiles w tr = (w2, tr2, false) ->
  exists (deleted : list str) (file : str) (rest : list str),
    planFiles = deleted ++ file :: rest /\
    tr2 = tr ++ map Unlinked deleted /\ unlink file w2 = None.
Proof.
  revert w tr. induction planFiles as [|file rest IH]; intros w tr; simpl;
    [done|].
  destruct (unlink file w) as [w'|] eqn:Hfile.
  - intros (deleted & f & rest' & -> & -> & Hf)%IH.
    exists (file :: deleted), f, rest'. by rewrite <- (assoc_L (++)).
  - intros [= <- <-]. exists [], file, rest. by rewrite app_nil_r.
Qed.

(** The ways a run that is not a dry run goes on once the version command
    has succeeded. *)
Lemma release_real (args : list str) (w : world) :
  isDryRun args = false ->
  run args w = Result w [] (Exited 1) \/
  (exec_sync (NxReleaseVersion (preid args)) w = None /\
   run args w
   = Result w [Executed (NxReleaseVersion (preid args)) false] (Exited 1)) \/
  exists w1 : world,
    exec_sync (NxReleaseVersion (preid args)) w = Some w1 /\
    run args w
    = after_version workspaceRoot exec_sync json_version false
        (map fst (plan_files w)) (projectsToRelease (map snd (plan_files w)))
        w1 [Executed (NxReleaseVersion (preid args)) true].
Proof.
  intros Hdry. unfold release, plan_files. rewrite Hdry.
  destruct (plans_of w) as [entries|]; [|by left].
  destruct (filter _ entries) as [|plan plans] eqn:Hplans; [by left|].
  destruct (projectsToRelease _) as [|project projects] eqn:Hprojects;
    [by left|].
  destruct (exec_sync _ w) as [w1|] eqn:Hexec.
  - right. right. by exists w1.
  - right. by left.
Qed.

(** X13: a run of the release script that is not a dry run and ends with
    exit code 0 has done everything, in this order: the version command,
    which succeeded; one changelog command for every entry of the updated
    versions, read after the version command, in their order (failed or
    not); the deletion of every plan file, in the order of the listing;
    and the refresh of the lockfile, which succeeded. *)
Theorem release_success (args : list str) (w : world) :
  isDryRun args = false ->
  ended (run args w) = Exited 0 ->
  exists (w1 : world) (cl : list event),
    exec_sync (NxReleaseVersion (preid args)) w = Some w1 /\
    Forall2 changelog_of
      (read_versions workspaceRoot json_version w1
         (projectsToRelease (map snd (plan_files w))) []) cl /\
    trace (run args w)
    = Executed (NxReleaseVersion (preid args)) true
        :: cl ++ map Unlinked (map fst (plan_files w))
        ++ [Executed NpmInstallLockOnly true].
Proof.
  intros Hdry. destruct (release_real args w Hdry)
    as [->|[[_ ->]|(w1 & Hw1 & ->)]]; [done..|].
  unfold after_version. cbv zeta iota.
  destruct (changelogs_events
              (read_versions workspaceRoot json_version w1
                 (projectsToRelease (map snd (plan_files w))) [])
              w1 [Executed (NxReleaseVersion (preid args)) true])
    as (cl & Hcl & Hall).
  destruct (changelogs _ _ _ _) as [w2 tr2]. simpl in Hcl. subst tr2.
  destruct (delete_plans _ w2 _) as [[w3 tr3] ok] eqn:Hdel.
  destruct ok; [|done]. apply delete_plans_all in Hdel as ->.
  unfold refresh_lockfile.
  destruct (exec_sync NpmInstallLockOnly w3); [|done]. intros _.
  exists w1, cl. split; [done|]. split; [done|].
  cbn [trace]. by rewrite <- !(assoc_L (++)).
Qed.

(** X14: what a run has done when [fs.unlinkSync] throws in the loop
    that deletes the plans, for a plan file that is gone by then.  The run
    is not a dry run; the version command has succeeded; a changelog
    command has been run for every entry of the updated versions, and no
    other command; the plan files listed before the one that is gone
    are deleted, in the order of the listing; that file and those after it
    are not touched, and the lockfile is not refreshed. *)
Theorem unlink_failure_ends_release (args : list str) (w : world) :
  ended (run args w) = UnlinkThrew ->
  isDryRun args = false /\
  exists (w1 : world) (cl : list event)
         (deleted : list str) (file : str) (rest : list str),
    exec_sync (NxReleaseVersion (preid args)) w = Some w1 /\
    Forall2 changelog_of
      (read_versions workspaceRoot json_version w1
         (projectsToRelease (map snd (plan_files w))) []) cl /\
    map fst (plan_files w) = deleted ++ file :: rest /\
    unlink file (final (run args w)) = None /\
    trace (run args w)
    = Executed (NxReleaseVersion (preid args)) true
        :: cl ++ map Unlinked deleted.
Proof.
  destruct (isDryRun args) eqn:Hdry.
  { intros Hend. exfalso. revert Hend. unfold release. rewrite Hdry.
    destruct (plans_of w) as [entries|]; [|done].
    destruct (filter _ entries); [done|].
    destruct (projectsToRelease _); [done|].
    unfold after_version, refresh_lockfile. done. }
  intros Hend. split; [done|]. revert Hend.
  destruct (release_real args w Hdry)
    as [->|[[_ ->]|(w1 & Hw1 & ->)]]; [done..|].
  unfold after_version. cbv zeta iota.
  destruct (changelogs_events
              (read_versions workspaceRoot json_version w1
                 (projectsToRelease (map snd (plan_files w))) [])
              w1 [Executed (NxReleaseVersion (preid args)) true])
    as (cl & Hcl & Hall).
  destruct (changelogs _ _ _ _) as [w2 tr2]. simpl in Hcl. subst tr2.
  destruct (delete_plans _ w2 _) as [[w3 tr3] ok] eqn:Hdel.
  destruct ok.
  { unfold refresh_lockfile. by destruct (exec_sync NpmInstallLockOnly w3). }
  intros _. apply delete_plans_stopped in Hdel
    as (deleted & file & rest & Hfiles & -> & Hfile).
  exists w1, cl, deleted, file, rest. cbn [trace final].
  split; [done|]. split; [done|]. split; [done|]. split; [done|].
  by rewrite <- ?(assoc_L (++)).
Qed.

Lemma map_set_fst (m : jsmap) (k v : str) :
  map fst (map_set m k v)
  = if bool_decide (k ∈ map fst m) then map fst m else map fst m ++ [k].
Proof.
  induction m as [|[k' v'] m IH]; cbn [map_set map fst].
  - by rewrite bool_decide_eq_false_2 by apply not_elem_of_nil.
  - destruct (bool_decide_reflect (k' = k)) as [->|Hne]; cbn [map fst].
    + by rewrite bool_decide_eq_true_2 by apply list_elem_of_here.
    + rewrite IH. destruct (bool_decide_reflect (k ∈ map fst m)) as [Hin|Hout].
      * by rewrite bool_decide_eq_true_2 by by apply list_elem_of_further.
      * rewrite bool_decide_eq_false_2; [done|].
        intros [?|?]%elem_of_cons; [congruence|done].
Qed.

Lemma map_set_NoDup (m : jsmap) (k v : str) :
  NoDup (map fst m) -> NoDup (map fst (map_set m k v)).
Proof.
  intros Hm. rewrite map_set_fst.
  destruct (bool_decide_reflect (k ∈ map fst m)) as [Hin|Hout]; [done|].
  apply NoDup_app. split; [done|]. split; [|apply NoDup_singleton].
  intros x Hx ->%list_elem_of_singleton. done.
Qed.

Lemma map_set_elem (m : jsmap) (k v n x : str) :
  (n, x) ∈ map_set m k v -> (n = k /\ x = v) \/ (n, x) ∈ m.
Proof.
  induction m as [|[k' v'] m IH]; simpl.
  - intros [= -> ->]%list_elem_of_singleton. by left.
  - destruct (bool_decide_reflect (k' = k)) as [->|Hne].
    + intros [[= -> ->]|Hin]%elem_of_cons; [by left|].
      right. by apply list_elem_of_further.
    + intros [[= -> ->]|Hin]%elem_of_cons; [right; apply list_elem_of_here|].
      destruct (IH Hin) as [?|?]; [by left|].
      right. by apply list_elem_of_further.
Qed.

Lemma map_get_elem (m : jsmap) (k v : str) :
  map_get m k = Some v -> (k, v) ∈ m.
Proof.
  induction m as [|[k' v'] m IH]; simpl; [done|].
  destruct (bool_decide_reflect (k' = k)) as [->|Hne].
  - intros [= ->]. apply list_elem_of_here.
  - intros Hin. by apply list_elem_of_further, IH.
Qed.

(** Step 2 of the script, for any start of [updatedVersions]. *)
Lemma read_versions_inv (w : world) (projects updated : jsmap) :
  NoDup (map fst updated) ->
  NoDup (map fst (read_versions workspaceRoot json_version w projects updated)) /\
  (forall n v : str,
     (n, v) ∈ read_versions workspaceRoot json_version w projects updated ->
     (n, v) ∈ updated \/
     (n ∈ map fst projects /\ v <> [] /\
      exists root : str, project_root workspaceRoot w n = Some root /\
        read_version json_version w root = Some v)) /\
  (forall n root v : str,
     n ∈ map fst projects ->
     project_root workspaceRoot w n = Some root ->
     read_version json_version w root = Some v ->
     map_get (read_versions workspaceRoot json_version w projects updated) n
     = Some v) /\
  (forall n : str,
     n ∉ map fst projects ->
     map_get (read_versions workspaceRoot json_version w projects updated) n
     = map_get updated n).
Proof.
  revert updated. induction projects as [|[name spec] rest IH];
    intros updated Hnd; simpl.
  { split; [done|]. split; [by left|]. split; [|done].
    intros n root v Hin. by apply elem_of_nil in Hin. }
  destruct (project_root workspaceRoot w name) as [root|] eqn:Hroot.
  2:{ destruct (IH updated Hnd) as (H1 & H2 & H3 & H4).
      split; [done|]. split; [|split].
      - intros n v Hin. destruct (H2 n v Hin) as [?|(? & ? & ?)]; [by left|].
        right. split; [by apply list_elem_of_further|done].
      - intros n r v [->|Hin]%elem_of_cons Hr Hv; [congruence|].
        by apply (H3 n r v).
      - intros n [Hn Hrest]%not_elem_of_cons. by apply H4. }
  destruct (read_version json_version w root) as [version|] eqn:Hversion.
  2:{ destruct (IH updated Hnd) as (H1 & H2 & H3 & H4).
      split; [done|]. split; [|split].
      - intros n v Hin. destruct (H2 n v Hin) as [?|(? & ? & ?)]; [by left|].
        right. split; [by apply list_elem_of_further|done].
      - intros n r v [->|Hin]%elem_of_cons Hr Hv; [congruence|].
        by apply (H3 n r v).
      - intros n [Hn Hrest]%not_elem_of_cons. by apply H4. }
  destruct (IH (map_set updated name version) (map_set_NoDup _ _ _ Hnd))
    as (H1 & H2 & H3 & H4).
  assert (Hsome : version <> []).
  { unfold read_version in Hversion.
    destruct (match files_of w !! _ with Some _ => _ | None => _ end)
      as [v0|]; [|done].
    destruct (Pom.falsy v0) eqn:Hf; [done|]. injection Hversion as <-.
    by apply falsy_false. }
  split; [done|]. split; [|split].
  - intros n v Hin. destruct (H2 n v Hin) as [Hset|(? & ? & ?)].
    + apply map_set_elem in Hset as [[-> ->]|?]; [|by left].
      right. split; [apply list_elem_of_here|]. split; [done|]. by exists root.
    + right. split; [by apply list_elem_of_further|done].
  - intros n r v Hn Hr Hv.
    destruct (decide (n ∈ map fst rest)) as [Hin|Hout]; [by apply (H3 n r v)|].
    apply elem_of_cons in Hn as [->|?]; [|done].
    rewrite (H4 name Hout), map_get_set, bool_decide_eq_true_2 by done.
    congruence.
  - intros n [Hn Hrest]%not_elem_of_cons.
    rewrite (H4 n Hrest), map_get_set. simpl in Hn.
    by rewrite bool_decide_eq_false_2 by congruence.
Qed.

(** X15: the versions the release script generates changelogs for.  The
    map [updatedVersions] holds every project at most once; a project is
    in it exactly when the plans name it, its root is found and a version
    that is not empty is read from its manifest; and that version is the
    one it holds for the project. *)
Theorem updated_versions (w : world) (projects : jsmap) :
  NoDup (map fst (read_versions workspaceRoot json_version w projects [])) /\
  forall n v : str,
    map_get (read_versions workspaceRoot json_version w projects []) n = Some v
    <-> n ∈ map fst projects /\ v <> [] /\
        exists root : str, project_root workspaceRoot w n = Some root /\
          read_version json_version w root = Some v.
Proof.
  destruct (read_versions_inv w projects [] (NoDup_nil_2 (A:=str)))
    as (H1 & H2 & H3 & H4).
  split; [done|]. intros n v. split.
  - intros Hget%map_get_elem. destruct (H2 n v Hget) as [Hin|?]; [|done].
    by apply elem_of_nil in Hin.
  - intros (Hn & _ & root & Hroot & Hv). by apply (H3 n root v).
Qed.

End ReleaseOrder.

Section ReleaseOrderRun.
Import Js Re Files Plans Release.

Lemma release_success_witness :
  exists (w1 : world) (cl : list event),
    changelog_fails (NxReleaseVersion (preid [])) one_plan = Some w1 /\
    Forall2 changelog_of
      (read_versions (lit "/w") version_101 w1
         (projectsToRelease (map snd (plan_files one_plan))) []) cl /\
    trace (release (lit "/w") changelog_fails version_101 [] one_plan)
    = Executed (NxReleaseVersion (preid [])) true
        :: cl ++ map Unlinked (map fst (plan_files one_plan))
        ++ [Executed NpmInstallLockOnly true].
Proof.
  apply (release_success (lit "/w") changelog_fails version_101 [] one_plan);
    by vm_compute.
Defined.

Lemma unlink_failure_ends_release_witness :
  isDryRun [] = false /\
  exists (w1 : world) (cl : list event)
         (deleted : list str) (file : str) (rest : list str),
    version_consumes_plans (NxReleaseVersion (preid [])) one_plan = Some w1 /\
    Forall2 changelog_of
      (read_versions (lit "/w") version_101 w1
         (projectsToRelease (map snd (plan_files one_plan))) []) cl /\
    map fst (plan_files one_plan) = deleted ++ file :: rest /\
    unlink file
      (final (release (lit "/w") version_consumes_plans version_101 [] one_plan))
    = None /\
    trace (release (lit "/w") version_consumes_plans version_101 [] one_plan)
    = Executed (NxReleaseVersion (preid [])) true
        :: cl ++ map Unlinked deleted.
Proof.
  apply (unlink_failure_ends_release (lit "/w") version_consumes_plans
           version_101 [] one_plan).
  by vm_compute.
Defined.

End ReleaseOrderRun.

(** ** The lines of a version plan *)

Section PlanLines.
Import Js Re ReSpec Plans.

(** A run of a class that cannot go on is what a greedy atom takes. *)
Lemma greedy_run (c : char -> bool) (k : str -> option pieces)
  (w s : str) (ps : pieces) :
  forallb c w = true ->
  match s with [] => true | y :: _ => negb (c y) end = true ->
  k s = Some ps ->
  greedy c k (w ++ s) = Some (w, ps).
Proof.
  intros Hw Hs Hk. induction w as [|x w IH]; simpl.
  - destruct s as [|y s]; simpl; [by rewrite Hk|].
    apply negb_true_iff in Hs. by rewrite Hs, Hk.
  - simpl in Hw. apply andb_prop in Hw as [Hx Hw]. by rewrite Hx, IH.
Qed.

Lemma word_is_not_space (x : char) : is_word x = true -> is_space x = false.
Proof.
  intros H. apply not_true_iff_false. revert H.
  unfold is_word, is_alpha, is_digit, is_space.
  rewrite !orb_true_iff, !andb_true_iff, !N.leb_le, !N.eqb_eq. lia.
Qed.

(** No match begins at a code unit that is not in the class of the first
    atom. *)
Lemma exec_skip (c : char -> bool) (r : regex) (pre s : str) :
  forallb (fun x => negb (c x)) pre = true ->
  exec (One c :: r) (pre ++ s)
  = (fun f => Found (pre ++ before f) (parts f) (after f))
      <$> exec (One c :: r) s.
Proof.
  induction pre as [|x pre IH]; simpl.
  - intros _. destruct (exec (One c :: r) s) as [[]|]; done.
  - intros [Hx Hpre]%andb_prop. apply negb_true_iff in Hx.
    unfold here at 1. simpl. rewrite Hx. simpl. rewrite (IH Hpre).
    by destruct (exec (One c :: r) s).
Qed.

(** How the matcher goes through a text that is cut as the pattern asks. *)
Lemma match_here_one (c : char -> bool) (r : regex) (x : char) (s : str)
  (ps : pieces) :
  c x = true -> match_here r s = Some ps ->
  match_here (One c :: r) (x :: s) = Some ([x] :: ps).
Proof. intros Hx Hr. cbn [match_here]. by rewrite Hx, Hr. Qed.

Lemma match_here_lit (l : str) (r : regex) (s : str) (ps : pieces) :
  match_here r s = Some ps ->
  match_here (Lit l :: r) (l ++ s) = Some (l :: ps).
Proof. intros Hr. cbn [match_here]. by rewrite strip_prefix_app, Hr. Qed.

Lemma match_here_star (c : char -> bool) (r : regex) (w s : str)
  (ps : pieces) :
  forallb c w = true ->
  match s with [] => true | y :: _ => negb (c y) end = true ->
  match_here r s = Some ps ->
  match_here (Star c :: r) (w ++ s) = Some (w :: ps).
Proof.
  intros Hw Hs Hr. cbn [match_here].
  by rewrite (greedy_run c _ w s ps Hw Hs Hr).
Qed.

Lemma match_here_plus (c : char -> bool) (r : regex) (w s : str)
  (ps : pieces) :
  w <> [] -> forallb c w = true ->
  match s with [] => true | y :: _ => negb (c y) end = true ->
  match_here r s = Some ps ->
  match_here (Plus c :: r) (w ++ s) = Some (w :: ps).
Proof.
  intros Hne Hw Hs Hr. destruct w as [|x w]; [done|].
  simpl in Hw. apply andb_prop in Hw as [Hx Hw].
  cbn [match_here app]. rewrite Hx.
  by rewrite (greedy_run c _ w s ps Hw Hs Hr).
Qed.

Lemma exec_here (r : regex) (ps : pieces) (rest : str) :
  match_here r (concat ps ++ rest) = Some ps ->
  exec r (concat ps ++ rest) = Some (Found [] ps rest).
Proof.
  intros Hr.
  assert (Hhere : here r (concat ps ++ rest) = Some (Found [] ps rest)).
  { unfold here. rewrite Hr. simpl. by rewrite drop_app_length. }
  destruct (concat ps ++ rest); simpl; by rewrite Hhere.
Qed.

(** The match of the pattern of a line at a quote. *)
Lemma line_match (q1 q2 : char) (name ws1 ws2 spec rest : str) :
  is_quote q1 = true -> is_quote q2 = true ->
  name <> [] -> forallb not_quote name = true ->
  forallb is_space ws1 = true -> forallb is_space ws2 = true ->
  spec <> [] -> forallb is_word spec = true ->
  match rest with [] => true | y :: _ => negb (is_word y) end = true ->
  match_here line_pattern
    (concat [[q1]; name; [q2]; ws1; lit ":"; ws2; spec] ++ rest)
  = Some [[q1]; name; [q2]; ws1; lit ":"; ws2; spec].
Proof.
  intros Hq1 Hq2 Hname Hnq Hws1 Hws2 Hspec Hword Hrest.
  cbn [concat]. rewrite app_nil_r, <- !(assoc_L (++)).
  change ([q1] ++ name ++ [q2] ++ ws1 ++ lit ":" ++ ws2 ++ spec ++ rest)
    with (q1 :: name ++ q2 :: ws1 ++ lit ":" ++ ws2 ++ spec ++ rest).
  unfold line_pattern.
  apply match_here_one; [done|].
  apply match_here_plus; [done|done|by unfold not_quote; rewrite Hq2|].
  apply match_here_one; [done|].
  apply match_here_star; [done|done|].
  apply match_here_lit.
  apply match_here_star; [done| |].
  { destruct spec as [|s0 spec]; [done|]. simpl in Hword.
    apply andb_prop in Hword as [Hs0 _]. simpl.
    by rewrite (word_is_not_space _ Hs0). }
  rewrite <- (app_nil_l rest) at 1. rewrite (assoc_L (++)), app_nil_r.
  by apply match_here_plus.
Qed.

(** X16: a line of the header that is written as the pattern expects is
    read as it is meant.  After any text without quotes: a quote, a name
    without quotes, a quote, white space, a colon, white space, and a
    specifier of word characters that ends the line or is followed by
    another character; the entry is the name and the specifier. *)
Theorem quoted_line_is_read (pre : str) (q1 q2 : char)
  (name ws1 ws2 spec rest : str) :
  forallb not_quote pre = true -> is_quote q1 = true -> is_quote q2 = true ->
  name <> [] -> forallb not_quote name = true ->
  forallb is_space ws1 = true -> forallb is_space ws2 = true ->
  spec <> [] -> forallb is_word spec = true ->
  match rest with [] => true | y :: _ => negb (is_word y) end = true ->
  line_entry
    (pre ++ q1 :: name ++ q2 :: ws1 ++ lit ":" ++ ws2 ++ spec ++ rest)
  = Some (name, spec).
Proof.
  intros Hpre Hq1 Hq2 Hname Hnq Hws1 Hws2 Hspec Hword Hrest.
  pose proof (line_match q1 q2 name ws1 ws2 spec rest Hq1 Hq2 Hname Hnq Hws1
                Hws2 Hspec Hword Hrest) as Hhere.
  apply exec_here in Hhere. unfold line_entry.
  replace (q1 :: name ++ q2 :: ws1 ++ lit ":" ++ ws2 ++ spec ++ rest)
    with (concat [[q1]; name; [q2]; ws1; lit ":"; ws2; spec] ++ rest).
  2:{ cbn [concat]. by rewrite app_nil_r, <- !(assoc_L (++)). }
  unfold line_pattern in *. rewrite exec_skip by done. rewrite Hhere.
  cbn [fmap option_fmap option_map parts]. unfold group.
  cbn [drop take concat]. by rewrite !app_nil_r.
Qed.

Lemma quoted_line_is_read_witness :
  line_entry
    ([] ++ 39%N :: lit "@selfcare/a" ++ 39%N :: [] ++ lit ":" ++ lit " "
        ++ lit "patch" ++ [])
  = Some (lit "@selfcare/a", lit "patch").
Proof. apply quoted_line_is_read; by vm_compute. Defined.

(** A line without a quote gives no entry. *)
Lemma line_without_quote (line : str) :
  forallb not_quote line = true -> line_entry line = None.
Proof.
  intros Hline. unfold line_entry.
  destruct (exec line_pattern line) as [f|] eqn:Hex; [|done]. exfalso.
  apply exec_leftmost in Hex as (Hs & (Hp & _) & _).
  apply parse_cons_inv in Hp as (p1 & qs & Hparts & H1 & _).
  destruct p1 as [|x [|??]]; try done. simpl in H1.
  rewrite Hs in Hline. unfold whole in Hline. rewrite Hparts in Hline.
  rewrite !forallb_app in Hline. simpl in Hline.
  apply andb_prop in Hline as [_ Hline].
  apply andb_prop in Hline as [Hline _].
  apply andb_prop in Hline as [Hx _].
  unfold not_quote in Hx. by rewrite H1 in Hx.
Qed.

Lemma forallb_concat (c : char -> bool) (ps : pieces) :
  forallb c (concat ps) = true <-> Forall (fun p => forallb c p = true) ps.
Proof.
  induction ps as [|p ps IH]; simpl; [by split; [constructor|]|].
  rewrite forallb_app, andb_true_iff, IH. split.
  - intros [??]. by constructor.
  - by inversion 1.
Qed.

Lemma forallb_split_on (c : char -> bool) (sep : char) (s : str) :
  forallb c s = true -> Forall (fun p => forallb c p = true) (split_on sep s).
Proof.
  induction s as [|x s IH]; simpl; [by repeat constructor|].
  intros [Hx Hs]%andb_prop. specialize (IH Hs).
  destruct (x =? sep)%N; [by constructor|].
  destruct (split_on sep s) as [|p ps].
  - constructor; [simpl; by rewrite Hx|constructor].
  - inversion IH; subst. constructor; [simpl; by rewrite Hx|done].
Qed.

(** The header of a text is made of code units of the text. *)
Lemma header_inside (c : char -> bool) (content y : str) :
  forallb c content = true -> header content = Some y -> forallb c y = true.
Proof.
  intros Hc. unfold header. pose proof (match_here_first header_pattern content) as H.
  destruct (match_here header_pattern content) as [ps|]; [|done].
  intros [= <-]. destruct H as (_ & [t ->] & _).
  rewrite forallb_app in Hc. apply andb_prop in Hc as [Hc _].
  apply forallb_concat in Hc. unfold group. apply forallb_concat.
  by apply Forall_take, Forall_drop.
Qed.

Lemma add_lines_without_quote (lines : list str) (m : jsmap) :
  Forall (fun p => forallb not_quote p = true) lines -> add_lines lines m = m.
Proof.
  induction 1 as [|line lines Hline _ IH]; simpl; [done|].
  by rewrite (line_without_quote _ Hline).
Qed.

Lemma add_file_without_quote (content : str) (m : jsmap) :
  forallb not_quote content = true -> add_file content m = m.
Proof.
  intros Hc. unfold add_file.
  destruct (header content) as [y|] eqn:Hy; [|done].
  apply add_lines_without_quote, forallb_split_on.
  by apply (header_inside _ content).
Qed.

End PlanLines.

Section UnquotedPlans.
Import Js Re Files Plans Release.

Context (workspaceRoot : str).
Context (exec_sync : command -> world -> option world).
Context (json_version : str -> option (option str)).

(** X17: the project names of a version plan count only when they are
    written in quotes.  A line without a quote gives no entry; a plan
    file without a quote adds nothing to the mapping; and when no plan
    file holds a quote, the release script stops with exit code 1 before
    it has run a command or deleted a file. *)
Theorem unquoted_plans_are_ignored :
  (forall line : str, forallb not_quote line = true -> line_entry line = None) /\
  (forall (content : str) (m : jsmap),
     forallb not_quote content = true -> add_file content m = m) /\
  (forall (args : list str) (w : world),
     (forall e : str * str, e ∈ plan_files w -> forallb not_quote e.2 = true) ->
     release workspaceRoot exec_sync json_version args w
     = Result w [] (Exited 1)).
Proof.
  split; [exact line_without_quote|]. split; [exact add_file_without_quote|].
  intros args w Hall. unfold release. unfold plan_files in Hall.
  destruct (plans_of w) as [entries|]; [|done].
  destruct (filter _ entries) as [|plan plans]; [done|].
  assert (Hnone : forall (l : list (str * str)) (m : jsmap),
    (forall e, e ∈ l -> forallb not_quote e.2 = true) ->
    add_files (map snd l) m = m).
  { induction l as [|e l IH]; intros m Hl; simpl; [done|].
    rewrite add_file_without_quote by apply Hl, list_elem_of_here.
    apply IH. intros e' He'. by apply Hl, list_elem_of_further. }
  unfold projectsToRelease. by rewrite Hnone.
Qed.

End UnquotedPlans.

(** ** The sync script: running it again *)

Section SyncFacts.
Import Js Re Replace ReSpec Pom Files Sync.

Lemma version_char_not_lt (x : char) : is_version_char x = true -> x <> lt.
Proof.
  unfold is_version_char, is_digit, is_alpha, lt.
  rewrite !orb_true_iff, !andb_true_iff, !N.leb_le, !N.eqb_eq. lia.
Qed.

Lemma version_chars_free (w : str) :
  forallb is_version_char w = true -> lt_free w.
Proof.
  induction w as [|x w IH]; [done|]. simpl. intros [Hx Hw]%andb_prop.
  apply lt_free_cons. split; [by apply version_char_not_lt|by apply IH].
Qed.

Local Opaque open_tag close_tag open_rest close_rest.

(** Writing another version, made of version characters, into the element
    the sync script found: the element is found again, with the new
    version. *)
Lemma sync_swap (s : str) (f : found) (nv : str) :
  exec versionRegex s = Some f ->
  nv <> [] -> forallb is_version_char nv = true ->
  exec versionRegex (before f ++ open_tag ++ nv ++ close_tag ++ after f)
  = Some (Found (before f) [open_tag; nv; close_tag] (after f)).
Proof.
  intros Hex Hne Hnv. apply exec_leftmost in Hex as (Hs & (Hp & _) & Hmin).
  apply versionRegex_parse in Hp as (v & Hparts & Hv & Hvc).
  destruct f as [bef ps aft]. simpl in *. subst ps.
  unfold whole in Hs. simpl in Hs. rewrite app_nil_r, <- !(assoc_L (++)) in Hs.
  apply leftmost_exec. split; [|split]; simpl.
  - unfold whole. simpl. by rewrite app_nil_r, <- !(assoc_L (++)).
  - split; [by apply versionRegex_parse_intro|]. split.
    + by exists aft.
    + intros qs Hqs [t Ht]. left.
      apply versionRegex_parse in Hqs as (w & -> & Hw & Hwc).
      unfold whole in Ht. simpl in Ht.
      rewrite !app_nil_r, <- !(assoc_L (++)) in Ht.
      apply (inj (app _)) in Ht. rewrite close_tag_eq in Ht.
      apply free_run_eq in Ht as [-> _]; [done|by apply version_chars_free..].
  - intros pre post qs Hs' Hqs.
    apply versionRegex_parse in Hqs as (w & -> & Hw & Hwc).
    destruct (decide (length bef <= length pre)) as [|Hlt]; [done|]. exfalso.
    apply shorter_prefix in Hs' as (d & Hbef & Hrest); [|lia].
    destruct d as [|y d].
    { rewrite app_nil_r in Hbef. subst pre. lia. }
    unfold whole in Hrest. simpl in Hrest.
    rewrite !app_nil_r, <- !(assoc_L (++)) in Hrest.
    rewrite !open_tag_eq, !close_tag_eq in Hrest. simpl in Hrest.
    injection Hrest as <- Hrest.
    rewrite (assoc_L (++) open_rest w) in Hrest.
    assert (Hfree : lt_free (open_rest ++ w)).
    { apply lt_free_app. split; [apply open_rest_free|by apply version_chars_free]. }
    destruct (split_free _ _ _ _ Hrest Hfree) as (X' & -> & Hrest').
    destruct X' as [|x X']; simpl in Hrest'.
    + apply cons_tail_eq in Hrest'. by apply open_close_differ in Hrest'.
    + injection Hrest' as <- Hrest'.
      destruct (split_free _ _ _ _ Hrest' close_rest_free) as (X'' & -> & _).
      assert (Hlen : length (pre ++ lt :: (open_rest ++ w) ++ lt :: close_rest ++ X'')
                     <= length pre); [|rewrite length_app in Hlen; simpl in Hlen; lia].
      rewrite <- Hbef.
      apply (Hmin pre (X'' ++ open_tag ++ v ++ close_tag ++ aft)
               [open_tag; w; close_tag]);
        [|by apply versionRegex_parse_intro].
      rewrite Hs, Hbef. simpl. rewrite open_tag_eq, close_tag_eq. simpl.
      rewrite ?app_nil_r, <- ?(assoc_L (++)). simpl.
      by rewrite <- ?(assoc_L (++)).
Qed.

Lemma version_chars_dollar_free (w : str) :
  forallb is_version_char w = true -> dollar_free w.
Proof.
  unfold dollar_free. induction w as [|x w IH]; [done|]. simpl.
  intros [Hx Hw]%andb_prop. rewrite (IH Hw), andb_true_r.
  apply negb_true_iff, N.eqb_neq. revert Hx.
  unfold is_version_char, is_digit, is_alpha, dollar.
  rewrite !orb_true_iff, !andb_true_iff, !N.leb_le, !N.eqb_eq. lia.
Qed.

(** What a run of [updatePomVersion] leaves in the manifest, for a version
    made of version characters: the text as it was when no version element
    is found in it, and else a text in which the first version element
    holds the new version, and which a second run returns as it is. *)
Lemma updatePomVersion_result (fs : files) (projectRoot nv pom : str) :
  nv <> [] -> forallb is_version_char nv = true ->
  fs !! join projectRoot (lit "pom.xml") = Some pom ->
  (exec versionRegex pom = None /\
   updatePomVersion fs projectRoot nv = (fs, [NoVersionTag])) \/
  exists (f : found) (pom' : str),
    exec versionRegex pom = Some f /\
    updatePomVersion fs projectRoot nv
    = (<[join projectRoot (lit "pom.xml") := pom']> fs,
       [PomUpdated (group 1 1 (parts f)) nv]) /\
    exec versionRegex pom'
    = Some (Found (before f) [open_tag; nv; close_tag] (after f)) /\
    replace_re versionRegex versionGroups (version_template nv) pom' = pom'.
Proof.
  intros Hne Hnv Hpom. unfold updatePomVersion. cbv zeta. rewrite Hpom.
  destruct (exec versionRegex pom) as [f|] eqn:Hex; [|by left]. right.
  pose proof (version_chars_dollar_free _ Hnv) as Hdollar.
  destruct (sync_match _ _ nv Hex (dollar_free_pattern_free _ Hdollar))
    as (v & Htext & Hout).
  pose proof (sync_swap _ _ nv Hex Hne Hnv) as Hex'.
  exists f, (before f ++ open_tag ++ nv ++ close_tag ++ after f).
  rewrite Hout. split; [done|]. split; [done|]. split; [done|].
  destruct (sync_match _ _ nv Hex' (dollar_free_pattern_free _ Hdollar))
    as (v' & _ & Hout').
  exact Hout'.
Qed.

(** X18: the sync script can be run again.  For a version made of the
    characters a version may hold, a second run of [updatePomVersion]
    leaves the file system as the first run left it; and where the first
    run has written the version, the second one finds it as the old
    version. *)
Theorem sync_is_idempotent (fs : files) (projectRoot newVersion : str) :
  newVersion <> [] -> forallb is_version_char newVersion = true ->
  (updatePomVersion (updatePomVersion fs projectRoot newVersion).1
     projectRoot newVersion).1
  = (updatePomVersion fs projectRoot newVersion).1 /\
  (forall oldVersion : str,
     (updatePomVersion fs projectRoot newVersion).2
     = [PomUpdated oldVersion newVersion] ->
     (updatePomVersion (updatePomVersion fs projectRoot newVersion).1
        projectRoot newVersion).2
     = [PomUpdated newVersion newVersion]).
Proof.
  intros Hne Hnv.
  destruct (fs !! join projectRoot (lit "pom.xml")) as [pom|] eqn:Hpom.
  2:{ unfold updatePomVersion. cbv zeta. rewrite Hpom. cbn [fst snd].
      by rewrite Hpom. }
  destruct (updatePomVersion_result fs projectRoot newVersion pom Hne Hnv Hpom)
    as [[Hnone ->]|(f & pom' & Hex & -> & Hex' & Hfix)]; cbn [fst snd].
  { unfold updatePomVersion. cbv zeta. by rewrite Hpom, Hnone. }
  unfold updatePomVersion. cbv zeta. rewrite lookup_insert_eq, Hex', Hfix.
  cbn [fst snd parts]. rewrite insert_insert_eq. split; [done|].
  intros _ _. unfold group. simpl. by rewrite app_nil_r.
Qed.

Lemma sync_is_idempotent_witness :
  (updatePomVersion
     (updatePomVersion (pom_at (lit "apps/a") pom_ga) (lit "apps/a")
        (lit "2.0.0")).1 (lit "apps/a") (lit "2.0.0")).1
  = (updatePomVersion (pom_at (lit "apps/a") pom_ga) (lit "apps/a")
       (lit "2.0.0")).1 /\
  (forall oldVersion : str,
     (updatePomVersion (pom_at (lit "apps/a") pom_ga) (lit "apps/a")
        (lit "2.0.0")).2
     = [PomUpdated oldVersion (lit "2.0.0")] ->
     (updatePomVersion
        (updatePomVersion (pom_at (lit "apps/a") pom_ga) (lit "apps/a")
           (lit "2.0.0")).1 (lit "apps/a") (lit "2.0.0")).2
     = [PomUpdated (lit "2.0.0") (lit "2.0.0")]).
Proof.
  apply (sync_is_idempotent (pom_at (lit "apps/a") pom_ga) (lit "apps/a")
           (lit "2.0.0")); by vm_compute.
Defined.

End SyncFacts.

(** ** Synchronising every app, then previewing *)

Section ScriptFacts.
Import Js Re Replace ReSpec Pom Files Sync Scripts.

Context (dirname : str -> str).
Context (json_version : str -> option (option str)).

Lemma pom_of_inj (appsDir a b : str) : pom_of appsDir a = pom_of appsDir b -> a = b.
Proof.
  unfold pom_of, join. intros H. apply app_inv_tail in H.
  apply app_inv_head in H. by apply app_inv_head in H.
Qed.

Lemma pom_is_no_package (a b : str) :
  join a (lit "pom.xml") <> join b (lit "package.json").
Proof.
  unfold join. intros H. apply (f_equal last) in H.
  change (lit "/" ++ lit "pom.xml") with (lit "/pom.xm" ++ [ch "l"]) in H.
  change (lit "/" ++ lit "package.json") with (lit "/package.jso" ++ [ch "n"]) in H.
  by rewrite !(assoc_L (++)), !last_snoc in H.
Qed.

Lemma updatePomVersion_frame (fs : files) (projectRoot nv path : str) :
  path <> join projectRoot (lit "pom.xml") ->
  (updatePomVersion fs projectRoot nv).1 !! path = fs !! path.
Proof.
  intros Hpath. unfold updatePomVersion. cbv zeta.
  destruct (fs !! join projectRoot (lit "pom.xml")); [|done].
  destruct (exec versionRegex _); [|done]. cbn [fst].
  by rewrite lookup_insert_ne.
Qed.

Lemma updatePomVersion_same_files (fs : files) (projectRoot nv path : str) :
  is_Some ((updatePomVersion fs projectRoot nv).1 !! path)
  <-> is_Some (fs !! path).
Proof.
  destruct (decide (path = join projectRoot (lit "pom.xml"))) as [->|Hne].
  2:{ by rewrite updatePomVersion_frame. }
  unfold updatePomVersion. cbv zeta.
  destruct (fs !! join projectRoot (lit "pom.xml")) eqn:Hpom;
    [|cbn [fst]; by rewrite Hpom].
  destruct (exec versionRegex _); cbn [fst]; [|by rewrite Hpom].
  rewrite lookup_insert_eq. split; eauto.
Qed.

Context (syncScript appsDir : str).

Local Abbreviation sync_every :=
  (sync_all dirname json_version syncScript appsDir).

(** One run of the sync script as a child process, for an app that has
    its two manifests. *)
Lemma sync_main_app (fs : files) (name text : str) :
  dirname (package_of appsDir name) = join appsDir name ->
  fs !! package_of appsDir name = Some text ->
  sync_main dirname json_version fs (Some (package_of appsDir name))
  = match json_version text with
    | None => (fs, 1)
    | Some version =>
        ((updatePomVersion fs (join appsDir name) (printed version)).1, 0)
    end.
Proof.
  intros Hdir Htext. unfold sync_main. rewrite Htext, Hdir.
  unfold package_of at 1, join at 1. by destruct (join appsDir name).
Qed.

(** What one turn of the loop does to the files, when the shell hands the
    paths over as they are. *)
Lemma sync_turn (fs : files) (name : str) :
  shell_plain syncScript = true ->
  shell_plain (package_of appsDir name) = true ->
  dirname (package_of appsDir name) = join appsDir name ->
  exists fs' : files,
    (forall t rest,
       files_now t = fs ->
       exists synced skipped : nat,
         sync_every (name :: rest) t
         = sync_every rest (Tally fs' synced skipped) /\
         syncedCount t + skippedCount t <= synced + skipped
           <= S (syncedCount t + skippedCount t)) /\
    (forall path : str, path <> pom_of appsDir name -> fs' !! path = fs !! path) /\
    (forall path : str, is_Some (fs' !! path) <-> is_Some (fs !! path)) /\
    (syncable json_version appsDir fs name ->
     in_step json_version appsDir fs' name).
Proof.
  intros Hscript Hplain Hdir.
  destruct (fs !! package_of appsDir name) as [text|] eqn:Hpkg.
  2:{ exists fs. split; [|split; [done|split; [done|]]].
      - intros t rest <-. cbn [sync_all]. fold (package_of appsDir name).
        unfold exists_file at 1. rewrite Hpkg. cbn [andb].
        destruct (negb _);
          [exists (syncedCount t), (S (skippedCount t))
          |exists (syncedCount t), (skippedCount t)];
          (split; [by destruct t|lia]).
      - intros _ text pom Htext. congruence. }
  destruct (fs !! pom_of appsDir name) as [pom|] eqn:Hpom.
  2:{ exists fs. split; [|split; [done|split; [done|]]].
      - intros t rest <-. cbn [sync_all].
        fold (package_of appsDir name) (pom_of appsDir name).
        unfold exists_file. rewrite Hpkg, Hpom. cbn [andb negb].
        eexists _, _. split; [reflexivity|]. simpl. lia.
      - intros _ text' pom' _ Hpom'. congruence. }
  destruct (json_version text) as [version|] eqn:Hjson.
  2:{ exists fs. split; [|split; [done|split; [done|]]].
      - intros t rest <-. cbn [sync_all].
        fold (package_of appsDir name) (pom_of appsDir name).
        unfold exists_file. rewrite Hpkg, Hpom, Hscript, Hplain. cbn [andb].
        rewrite (sync_main_app _ _ _ Hdir Hpkg), Hjson.
        eexists _, _. split; [reflexivity|]. simpl. lia.
      - intros Hsync. destruct (Hsync text Hpkg) as (v & Hv & _). congruence. }
  exists (updatePomVersion fs (join appsDir name) (printed version)).1.
  split; [|split; [|split]].
  - intros t rest <-. cbn [sync_all].
    fold (package_of appsDir name) (pom_of appsDir name).
    unfold exists_file. rewrite Hpkg, Hpom, Hscript, Hplain. cbn [andb].
    rewrite (sync_main_app _ _ _ Hdir Hpkg), Hjson.
    eexists _, _. split; [reflexivity|]. simpl. lia.
  - intros path Hpath. by apply updatePomVersion_frame.
  - intros path. apply updatePomVersion_same_files.
  - intros Hsync text' pom' Htext' Hpom'.
    rewrite updatePomVersion_frame in Htext' by apply not_eq_sym, pom_is_no_package.
    rewrite Hpkg in Htext'. injection Htext' as <-.
    destruct (Hsync text Hpkg) as (v & Hv & Hne & Hvc).
    rewrite Hjson in Hv. injection Hv as ->. exists v. split; [done|].
    cbn [printed] in Hpom'.
    destruct (updatePomVersion_result fs (join appsDir name) v pom Hne Hvc Hpom)
      as [[Hnone Hrun]|(f & pom1 & Hex & Hrun & Hex' & _)];
      rewrite Hrun in Hpom'; cbn [fst] in Hpom'.
    + rewrite Hpom in Hpom'. injection Hpom' as <-. by left.
    + unfold pom_of in Hpom'. rewrite lookup_insert_eq in Hpom'.
      injection Hpom' as <-. right. eexists. split; [done|].
      unfold group. simpl. by rewrite app_nil_r.
Qed.

(** The loop of [sync-all-poms.js], from any state: with paths that are
    plain words it comes to its end. *)
Lemma sync_all_inv (apps : list str) (t : tally) :
  shell_plain syncScript = true ->
  (forall name : str, name ∈ apps ->
     shell_plain (package_of appsDir name) = true) ->
  (forall name : str, name ∈ apps ->
     dirname (package_of appsDir name) = join appsDir name) ->
  exists t' : tally,
    sync_every apps t = Some t' /\
    (forall path : str,
       (forall name : str, name ∈ apps -> path <> pom_of appsDir name) ->
       files_now t' !! path = files_now t !! path) /\
    (forall path : str,
       is_Some (files_now t' !! path) <-> is_Some (files_now t !! path)) /\
    syncedCount t + skippedCount t
      <= syncedCount t' + skippedCount t'
      <= syncedCount t + skippedCount t + length apps /\
    ((forall name : str, name ∈ apps ->
        syncable json_version appsDir (files_now t) name) ->
     forall name : str,
       name ∈ apps \/ in_step json_version appsDir (files_now t) name ->
       in_step json_version appsDir (files_now t') name).
Proof.
  intros Hscript. revert t.
  induction apps as [|a rest IH]; intros t Hplain Hdir.
  { exists t. cbn [sync_all length]. split; [done|]. split; [done|].
    split; [done|]. split; [lia|].
    intros _ name [Hin|?]; [by apply elem_of_nil in Hin|done]. }
  destruct (sync_turn (files_now t) a Hscript
              (Hplain a (list_elem_of_here _ _)) (Hdir a (list_elem_of_here _ _)))
    as (fs' & Hrun & Hframe & Hsame & Hstep).
  destruct (Hrun t rest eq_refl) as (synced & skipped & -> & Hcount).
  destruct (IH (Tally fs' synced skipped)) as (t' & -> & F & E & C & I).
  { intros name Hname. by apply Hplain, list_elem_of_further. }
  { intros name Hname. by apply Hdir, list_elem_of_further. }
  exists t'. cbn [files_now syncedCount skippedCount] in *.
  split; [done|]. split; [|split; [|split]].
  - intros path Hpath. rewrite F.
    + apply Hframe, Hpath, list_elem_of_here.
    + intros name Hname. by apply Hpath, list_elem_of_further.
  - intros path. by rewrite E, Hsame.
  - cbn [length]. lia.
  - intros Hsync name Hname. apply I.
    + intros b Hb text Htext. rewrite Hframe in Htext
        by apply not_eq_sym, pom_is_no_package.
      by apply (Hsync b (list_elem_of_further _ _ _ Hb)).
    + destruct (decide (name = a)) as [->|Hne].
      { right. apply Hstep, Hsync, list_elem_of_here. }
      destruct Hname as [[->|Hin]%elem_of_cons|Hold]; [done|by left|].
      right. intros text pom Htext Hpom.
      rewrite Hframe in Htext by apply not_eq_sym, pom_is_no_package.
      rewrite Hframe in Hpom by (intros Heq; by apply pom_of_inj in Heq).
      by apply Hold.
Qed.

Lemma preview_in_step (apps : list str) (fs : files) :
  (forall name : str, name ∈ apps -> in_step json_version appsDir fs name) ->
  preview json_version appsDir apps fs = Some [].
Proof.
  induction apps as [|a rest IH]; intros Hall; cbn [preview]; [done|].
  rewrite IH by (intros name Hname; by apply Hall, list_elem_of_further).
  fold (package_of appsDir a) (pom_of appsDir a).
  destruct (fs !! package_of appsDir a) as [text|] eqn:Htext; [|done].
  destruct (fs !! pom_of appsDir a) as [pom|] eqn:Hpom; [|done].
  destruct (Hall a (list_elem_of_here _ _) text pom Htext Hpom)
    as (v & -> & [Hnone|(f & Hf & Hv)]);
    change previewRegex with versionRegex.
  - by rewrite Hnone.
  - rewrite Hf, Hv. by rewrite bool_decide_eq_true_2.
Qed.

(** X19: after [sync-all-poms.js], the preview finds nothing left to
    synchronise.  The path of the sync script and the paths of the
    [package.json] files are plain words for the shell (letters, digits,
    [_], [/], [.], [-]), so that the child process gets the path as it
    is.  When every [package.json] of the apps parses and holds a version
    made of version characters, the loop of [sync-all-poms.js] comes to
    its end, and the loop of [preview-release.js] over the files it has
    left reports no app. *)
Theorem synced_apps_pass_preview (apps : list str) (t : tally) :
  shell_plain syncScript = true ->
  (forall name : str, name ∈ apps ->
     shell_plain (package_of appsDir name) = true) ->
  (forall name : str, name ∈ apps ->
     dirname (package_of appsDir name) = join appsDir name) ->
  (forall name : str, name ∈ apps ->
     syncable json_version appsDir (files_now t) name) ->
  exists t' : tally,
    sync_every apps t = Some t' /\
    preview json_version appsDir apps (files_now t') = Some [].
Proof.
  intros Hscript Hplain Hdir Hsync.
  destruct (sync_all_inv apps t Hscript Hplain Hdir)
    as (t' & Hrun & _ & _ & _ & Hstep).
  exists t'. split; [done|]. apply preview_in_step. intros name Hname.
  apply Hstep; [done|by left].
Qed.

(** X20: [sync-all-poms.js] keeps to the [pom.xml] files of the apps.
    With paths that are plain words for the shell, the loop comes to its
    end; a path that is not the [pom.xml] of one of the apps holds what
    it held; no file appears or disappears; and every app is counted at
    most once, as synchronised or as skipped. *)
Theorem sync_all_keeps_to_poms (apps : list str) (t : tally) :
  shell_plain syncScript = true ->
  (forall name : str, name ∈ apps ->
     shell_plain (package_of appsDir name) = true) ->
  (forall name : str, name ∈ apps ->
     dirname (package_of appsDir name) = join appsDir name) ->
  exists t' : tally,
    sync_every apps t = Some t' /\
    (forall path : str,
       (forall name : str, name ∈ apps -> path <> pom_of appsDir name) ->
       files_now t' !! path = files_now t !! path) /\
    (forall path : str,
       is_Some (files_now t' !! path) <-> is_Some (files_now t !! path)) /\
    syncedCount t + skippedCount t
      <= syncedCount t' + skippedCount t'
      <= syncedCount t + skippedCount t + length apps.
Proof.
  intros Hscript Hplain Hdir.
  destruct (sync_all_inv apps t Hscript Hplain Hdir) as (t' & Hrun & F & E & C & _).
  by exists t'.
Qed.

End ScriptFacts.

Section ScriptRun.
Import Js Re Replace ReSpec Pom Files Sync Scripts.

Lemma one_app_dirname (name : str) :
  name ∈ [lit "a"] ->
  drop_package_json (package_of (lit "/w/apps") name) = join (lit "/w/apps") name.
Proof. intros ->%list_elem_of_singleton. by vm_compute. Qed.

Lemma one_app_plain (name : str) :
  name ∈ [lit "a"] -> shell_plain (package_of (lit "/w/apps") name) = true.
Proof. intros ->%list_elem_of_singleton. by vm_compute. Qed.

Lemma one_app_syncable (name : str) :
  name ∈ [lit "a"] -> syncable version_101 (lit "/w/apps") one_app name.
Proof.
  intros ->%list_elem_of_singleton text Htext.
  assert (Hfile : one_app !! package_of (lit "/w/apps") (lit "a") = Some package_101)
    by by vm_compute.
  rewrite Hfile in Htext. injection Htext as <-.
  exists (lit "1.0.1"). by vm_compute.
Qed.

Lemma synced_apps_pass_preview_witness :
  exists t' : tally,
    sync_all drop_package_json version_101
      (lit "/w/scripts/sync-pom-version.js") (lit "/w/apps") [lit "a"]
      (Tally one_app 0 0) = Some t' /\
    preview version_101 (lit "/w/apps") [lit "a"] (files_now t') = Some [].
Proof.
  apply (synced_apps_pass_preview drop_package_json version_101
           (lit "/w/scripts/sync-pom-version.js") (lit "/w/apps")
           [lit "a"] (Tally one_app 0 0)).
  - by vm_compute.
  - exact one_app_plain.
  - exact one_app_dirname.
  - exact one_app_syncable.
Defined.

Lemma sync_all_keeps_to_poms_witness :
  exists t' : tally,
    sync_all drop_package_json version_101
      (lit "/w/scripts/sync-pom-version.js") (lit "/w/apps") [lit "a"]
      (Tally one_app 0 0) = Some t' /\
    (forall path : str,
       (forall name : str, name ∈ [lit "a"] -> path <> pom_of (lit "/w/apps") name) ->
       files_now t' !! path = files_now (Tally one_app 0 0) !! path) /\
    (forall path : str,
       is_Some (files_now t' !! path)
       <-> is_Some (files_now (Tally one_app 0 0) !! path)) /\
    syncedCount (Tally one_app 0 0) + skippedCount (Tally one_app 0 0)
      <= syncedCount t' + skippedCount t'
      <= syncedCount (Tally one_app 0 0) + skippedCount (Tally one_app 0 0)
         + length [lit "a"].
Proof.
  apply (sync_all_keeps_to_poms drop_package_json version_101
           (lit "/w/scripts/sync-pom-version.js") (lit "/w/apps")
           [lit "a"] (Tally one_app 0 0)).
  - by vm_compute.
  - exact one_app_plain.
  - exact one_app_dirname.
Defined.

End ScriptRun.

(** ** The release script and the resolver read the same version *)

Section ReleaseReads.
Import Js Re Files Plans Release Resolver.

Context (json_version : str -> option (option str)).

(** X21: the version the release script reads for the changelog of a
    project is the version the resolver of the generator reads: one
    returns a version exactly when the other returns it, from the
    [pom.xml] if the project has one and from the [package.json]
    otherwise. *)
Theorem release_reads_like_resolver (w : world) (projectRoot v : str) :
  read_version json_version w projectRoot = Some v
  <-> getVersion json_version (files_of w) projectRoot = inl v.
Proof.
  unfold read_version, getVersion, isMavenProject, exists_file,
    getVersionFromPom, getVersionFromPackageJson. cbv zeta.
  change Release.artifact_pattern with artifact_pattern.
  destruct (files_of w !! join projectRoot (lit "pom.xml")) as [pomContent|].
  - destruct (exec artifact_pattern pomContent) as [m|] eqn:Hex;
      cbn [fmap option_fmap option_map]; [|done].
    pose proof (artifact_pattern_version _ _ Hex) as Hne.
    destruct (group 5 1 (parts m)) as [|x g]; [done|]. simpl.
    split; by intros [= <-].
  - destruct (files_of w !! join projectRoot (lit "package.json")) as [text|];
      [|done].
    destruct (json_version text) as [[version|]|]; cbn [mjoin option_join];
      try done.
    destruct (Pom.falsy version); [done|]. split; by intros [= <-].
Qed.

End ReleaseReads.

(** ** The version of a dependency, where the block has one *)

Section DependencyUpdate.
Import Js Re Replace ReSpec Pom.

Lemma expand_cons_plain (matched pre post : str) (caps : list str)
  (x : char) (t : str) :
  (x =? 36)%N = false ->
  expand matched pre post caps (x :: t) = x :: expand matched pre post caps t.
Proof. intros Hx. cbn [expand]. by rewrite Hx. Qed.

Lemma digit_is_not_dollar (z : char) : is_digit z = true -> (z =? 36)%N = false.
Proof.
  unfold is_digit. rewrite andb_true_iff, !N.leb_le, N.eqb_neq. lia.
Qed.

(** Without groups, a [$] that begins none of [$$], [$&], [$`] and [$']
    stands for itself. *)
Lemma expand_dollar_nocaps (matched pre post : str) (y : char) (t : str) :
  (y =? 36)%N = false -> (y =? 38)%N = false ->
  (y =? 96)%N = false -> (y =? 39)%N = false ->
  expand matched pre post [] (36%N :: y :: t)
  = 36%N :: y :: expand matched pre post [] t.
Proof.
  intros H36 H38 H96 H39.
  assert (Hcap : forall i, capture [] i = None) by by intros [|i].
  cbn [expand]. change (36 =? 36)%N with true. cbn [negb].
  rewrite H36, H38, H96, H39.
  destruct (is_digit y) eqn:Hd.
  - rewrite Hcap. destruct t as [|z t3]; [done|].
    destruct (is_digit z) eqn:Hz; [|done].
    destruct (_ <? _); [done|]. rewrite Hcap.
    by rewrite (expand_cons_plain _ _ _ _ z) by by apply digit_is_not_dollar.
  - done.
Qed.

(** A text without replacement patterns stands for itself. *)
Lemma expand_no_pattern (matched pre post t : str) :
  no_pattern t = true -> expand matched pre post [] t = t.
Proof.
  induction t as [|x t IH]; [done|]. cbn [no_pattern].
  intros [Hx Ht]%andb_prop. specialize (IH Ht).
  destruct (N.eqb_spec x 36) as [->|Hne].
  2:{ rewrite expand_cons_plain by by apply N.eqb_neq. by rewrite IH. }
  destruct t as [|y t2]; [done|].
  cbn [negb orb] in Hx. apply negb_true_iff in Hx.
  apply orb_false_elim in Hx as [Hx H39]. apply orb_false_elim in Hx as [Hx H96].
  apply orb_false_elim in Hx as [H36 H38].
  rewrite expand_dollar_nocaps by done.
  rewrite expand_cons_plain in IH by done. by injection IH as ->.
Qed.

Lemma index_of_eq (l s : str) :
  index_of l s
  = match strip_prefix l s with
    | Some rest => Some ([], rest)
    | None =>
        match s with
        | [] => None
        | x :: s' =>
            match index_of l s' with
            | Some (pre, post) => Some (x :: pre, post)
            | None => None
            end
        end
    end.
Proof. by destruct s. Qed.

(** The first occurrence of a text. *)
Lemma index_of_first (l s pre post : str) :
  s = pre ++ l ++ post ->
  (forall pre' post' : str, s = pre' ++ l ++ post' -> length pre <= length pre') ->
  index_of l s = Some (pre, post).
Proof.
  revert s. induction pre as [|x pre IH]; intros s -> Hmin.
  - rewrite index_of_eq. cbn [app]. by rewrite strip_prefix_app.
  - rewrite index_of_eq. cbn [app].
    destruct (strip_prefix l (x :: pre ++ l ++ post)) as [rest|] eqn:Hstrip.
    { apply strip_prefix_Some in Hstrip.
      specialize (Hmin [] rest Hstrip). simpl in Hmin. lia. }
    rewrite (IH (pre ++ l ++ post) eq_refl); [done|].
    intros pre' post' Heq.
    specialize (Hmin (x :: pre') post'). simpl in Hmin.
    rewrite Heq in Hmin. specialize (Hmin eq_refl). lia.
Qed.

(** The text a pattern has matched is found first where it was matched. *)
Lemma index_of_match (r : regex) (s : str) (f : found) :
  exec r s = Some f -> index_of (whole f) s = Some (before f, after f).
Proof.
  intros (Hs & (Hp & _) & Hmin)%exec_leftmost.
  apply index_of_first; [done|].
  intros pre' post' Heq. by apply (Hmin pre' post' (parts f)).
Qed.

Lemma space_is_not_lt (x : char) : is_space x = true -> x <> lt.
Proof.
  unfold is_space, lt.
  rewrite !orb_true_iff, !andb_true_iff, !N.leb_le, !N.eqb_eq. lia.
Qed.

Lemma spaces_free (w : str) : forallb is_space w = true -> lt_free w.
Proof.
  induction w as [|x w IH]; [done|]. simpl. intros [Hx Hw]%andb_prop.
  apply lt_free_cons. split; [by apply space_is_not_lt|by apply IH].
Qed.

Local Opaque open_tag close_tag.

Lemma block_version_parse (qs : pieces) :
  parse block_version_pattern qs ->
  exists ws v ws' : str,
    qs = [open_tag; ws; v; ws'; close_tag] /\
    forallb is_space ws = true /\ v <> [] /\ lt_free v /\
    forallb is_space ws' = true.
Proof.
  intros (p1 & ? & -> & H1 & (p2 & ? & -> & H2 & (p3 & ? & -> & H3
    & (p4 & ? & -> & H4 & (p5 & ? & -> & H5
    & ->%parse_nil_inv)%parse_cons_inv)%parse_cons_inv)%parse_cons_inv
    )%parse_cons_inv)%parse_cons_inv.
  apply bool_decide_eq_true in H1 as ->. apply bool_decide_eq_true in H5 as ->.
  exists p2, p3, p4. simpl in H3. by destruct p3.
Qed.

Lemma prior_cons_inv (a : atom) (r : regex) (p q : str) (ps qs : pieces) :
  prior (a :: r) (p :: ps) (q :: qs) ->
  prefer a p q \/ (p = q /\ prior r ps qs).
Proof. inversion 1; subst; [by left|by right]. Qed.

(** In the first parse the version takes the white space that follows
    it: the white space before the closing tag is empty. *)
Lemma block_version_first (s : str) (ps : pieces) :
  first_parse block_version_pattern s (Some ps) ->
  exists ws v : str,
    ps = [open_tag; ws; v; []; close_tag] /\
    forallb is_space ws = true /\ v <> [] /\ lt_free v.
Proof.
  intros (Hp & Hpre & Hfirst).
  apply block_version_parse in Hp as (ws & v & ws' & -> & Hws & Hv & Hvf & Hws').
  exists ws, (v ++ ws').
  assert (Hparse : parse block_version_pattern
                     [open_tag; ws; v ++ ws'; []; close_tag]).
  { repeat apply parse_cons; try done; [|constructor].
    simpl. destruct v as [|x v]; [done|]. simpl.
    apply lt_free_cons in Hvf as [Hx Hvf]. unfold not_lt.
    assert ((x =? 60)%N = false) as -> by by apply N.eqb_neq.
    simpl. rewrite forallb_app. apply andb_true_intro. split; [done|].
    by apply spaces_free. }
  assert (Hempty : ws' = []).
  { destruct (Hfirst _ Hparse) as [Heq|Hprior].
    - destruct Hpre as [t ->]. exists t. simpl.
      by rewrite !app_nil_r, <- !(assoc_L (++)).
    - injection Heq as Heq _. apply (app_inv_head v). by rewrite app_nil_r.
    - unfold block_version_pattern in Hprior.
      apply prior_cons_inv in Hprior as [[]|[_ Hprior]].
      apply prior_cons_inv in Hprior as [Hlen|[_ Hprior]];
        [simpl in Hlen; lia|].
      apply prior_cons_inv in Hprior as [Hlen|[Heq _]].
      + simpl in Hlen. rewrite length_app in Hlen. lia.
      + apply (app_inv_head v). by rewrite app_nil_r. }
  subst ws'. rewrite app_nil_r. done.
Qed.

(** X22: where the block that is matched for a dependency holds a
    version element, [updateDependencyVersionInPom] puts the new version
    into the first version element of the block, in the place of the text
    [readDependencyVersionFromPom] returns, and changes nothing else: the
    white space before the version is kept (the version read runs up to
    the closing tag).  This is so for a new version without [$] when the
    block that results holds no replacement pattern; the block is put
    back by a search for its text, and the text is found first where it
    was matched. *)
Theorem dependency_version_replaced (pomXml : str) (c : coords)
  (v newVersion : str) :
  readDependencyVersionFromPom pomXml c = Some v ->
  dollar_free newVersion ->
  exists bef pre ws post aft : str,
    pomXml = bef ++ (pre ++ open_tag ++ ws ++ v ++ close_tag ++ post) ++ aft /\
    whole <$> exec (dependency_pattern c) pomXml
    = Some (pre ++ open_tag ++ ws ++ v ++ close_tag ++ post) /\
    forallb is_space ws = true /\ v <> [] /\ lt_free v /\
    (no_pattern (pre ++ open_tag ++ ws ++ newVersion ++ close_tag ++ post)
     = true ->
     updateDependencyVersionInPom pomXml c newVersion
     = Some (bef ++ (pre ++ open_tag ++ ws ++ newVersion ++ close_tag ++ post)
               ++ aft)).
Proof.
  unfold readDependencyVersionFromPom, updateDependencyVersionInPom, test.
  destruct (exec (dependency_pattern c) pomXml) as [f|] eqn:Hdep; [|done].
  destruct (exec block_version_pattern (whole f)) as [g|] eqn:Hblk; [|done].
  cbn [fmap option_fmap option_map]. cbv zeta.
  pose proof (exec_leftmost _ _ _ Hblk) as (Hblock & Hfirst & _).
  apply block_version_first in Hfirst as (ws & v0 & Hparts & Hws & Hv0 & Hv0f).
  assert (Hg : whole g = open_tag ++ ws ++ v0 ++ close_tag).
  { unfold whole. rewrite Hparts. simpl. by rewrite !app_nil_r. }
  rewrite Hg in Hblock. rewrite <- !(assoc_L (++)) in Hblock.
  intros [= <-] Hdollar. rewrite Hparts.
  assert (group 2 1 [open_tag; ws; v0; []; close_tag] = v0) as ->.
  { unfold group. simpl. by rewrite app_nil_r. }
  exists (before f), (before g), ws, (after g), (after f).
  pose proof (exec_leftmost _ _ _ Hdep) as (Hpom & _ & _).
  split; [by rewrite <- Hblock|]. split; [by rewrite Hblock|].
  split; [done|]. split; [done|]. split; [done|].
  intros Hplain. f_equal.
  assert (Hupdated :
    replace_re block_version_pattern block_version_groups
      (version_template newVersion) (whole f)
    = before g ++ open_tag ++ ws ++ newVersion ++ close_tag ++ after g).
  { unfold replace_re. rewrite Hblk, Hparts.
    unfold block_version_groups. cbn [map fst snd].
    rewrite (expand_version_template _ _ _ _ _ _ _ Hdollar).
    unfold group. simpl. by rewrite !app_nil_r, <- !(assoc_L (++)). }
  rewrite Hupdated. unfold replace_str. rewrite (index_of_match _ _ _ Hdep).
  by rewrite expand_no_pattern.
Qed.

Lemma dependency_version_replaced_witness :
  exists bef pre ws post aft : str,
    pom_two
    = bef ++ (pre ++ open_tag ++ ws ++ lit "1.0.0" ++ close_tag ++ post) ++ aft /\
    whole <$> exec (dependency_pattern coords_gb) pom_two
    = Some (pre ++ open_tag ++ ws ++ lit "1.0.0" ++ close_tag ++ post) /\
    forallb is_space ws = true /\ lit "1.0.0" <> [] /\ lt_free (lit "1.0.0") /\
    (no_pattern (pre ++ open_tag ++ ws ++ lit "2.0.0" ++ close_tag ++ post)
     = true ->
     updateDependencyVersionInPom pom_two coords_gb (lit "2.0.0")
     = Some (bef ++ (pre ++ open_tag ++ ws ++ lit "2.0.0" ++ close_tag ++ post)
               ++ aft)).
Proof.
  apply (dependency_version_replaced pom_two coords_gb (lit "1.0.0")
           (lit "2.0.0")); by vm_compute.
Defined.

End DependencyUpdate.

(** ** Writing twice *)

Section LastWrite.
Import Js Re Replace ReSpec Pom Files Resolver.

Context (relative : str -> str).

Local Opaque open_tag close_tag.

Lemma project_update_twice (pomXml : str) (c : coords) (nv1 nv2 p1 : str) :
  nv1 <> [] -> lt_free nv1 -> dollar_free nv1 -> dollar_free nv2 ->
  updateProjectVersionInPom pomXml c nv1 = Some p1 ->
  updateProjectVersionInPom p1 c nv2 = updateProjectVersionInPom pomXml c nv2.
Proof.
  intros Hne Hlt Hd1 Hd2 Hupd.
  destruct (exec (project_pattern c) pomXml) as [f|] eqn:Hex.
  2:{ unfold updateProjectVersionInPom, test in Hupd. by rewrite Hex in Hupd. }
  destruct (project_match _ _ _ Hex)
    as (ps1 & v & Hparts1 & _ & _ & _ & _ & _ & Hout).
  rewrite (Hout nv1 (dollar_free_pattern_free _ Hd1)) in Hupd.
  injection Hupd as <-.
  rewrite (Hout nv2 (dollar_free_pattern_free _ Hd2)).
  rewrite project_pattern_tail in Hex.
  destruct (exec_swap _ _ _ _ nv1 (project_head_shape c)
              (project_words_ok c nv1 Hlt Hne) Hex Hlt Hne)
    as (ps0 & w & Hparts & Hps0 & _ & Hex').
  rewrite Hparts1 in Hparts. apply app_inj_2 in Hparts as [-> _]; [|done].
  rewrite <- project_pattern_tail in Hex'.
  assert (Htext : before f ++ concat ps0 ++ open_tag ++ nv1 ++ close_tag ++ after f
                  = before f ++ concat ps0 ++ elem nv1 (after f)).
  { unfold elem. by rewrite open_tag_eq, close_tag_eq. }
  rewrite Htext.
  destruct (project_match _ _ _ Hex')
    as (ps2 & v2 & Hparts2 & _ & _ & _ & _ & _ & Hout2).
  cbn [parts] in Hparts2. apply app_inj_2 in Hparts2 as [<- _]; [|done].
  by rewrite (Hout2 nv2 (dollar_free_pattern_free _ Hd2)).
Qed.

Lemma artifact_replace_twice (text nv1 nv2 : str) :
  nv1 <> [] -> lt_free nv1 -> dollar_free nv1 -> dollar_free nv2 ->
  replace_re artifact_pattern artifact_groups (artifact_template nv2)
    (replace_re artifact_pattern artifact_groups (artifact_template nv1) text)
  = replace_re artifact_pattern artifact_groups (artifact_template nv2) text.
Proof.
  intros Hne Hlt Hd1 Hd2.
  destruct (exec artifact_pattern text) as [m|] eqn:Hex.
  2:{ unfold replace_re at 2. by rewrite Hex. }
  destruct (artifact_match _ _ Hex) as (ps1 & v & Hparts1 & _ & _ & Hout & _).
  rewrite (Hout nv1 Hd1), (Hout nv2 Hd2).
  rewrite artifact_pattern_tail in Hex.
  destruct (exec_swap _ _ _ _ nv1 artifact_head_shape
              (no_words_ok artifact_head nv1) Hex Hlt Hne)
    as (ps0 & w & Hparts & _ & _ & Hex').
  rewrite Hparts1 in Hparts. apply app_inj_2 in Hparts as [-> _]; [|done].
  rewrite <- artifact_pattern_tail in Hex'.
  assert (Heq : before m ++ concat ps0 ++ open_tag ++ nv1 ++ close_tag ++ after m
                = before m ++ concat ps0 ++ elem nv1 (after m)).
  { unfold elem. by rewrite open_tag_eq, close_tag_eq. }
  rewrite Heq.
  destruct (artifact_match _ _ Hex') as (ps2 & v2 & Hparts2 & _ & _ & Hout2 & _).
  cbn [parts] in Hparts2. apply app_inj_2 in Hparts2 as [<- _]; [|done].
  by rewrite (Hout2 nv2 Hd2).
Qed.

(** X23: of two writes of a version, the last one counts.  For
    [updateProjectVersionInPom] and for [setVersionInPom] of the resolver
    (on disk or with a tree): writing a version that is not empty and
    holds neither [<] nor [$], and then another version without [$],
    gives what writing the other version alone gives. *)
Theorem last_write_wins :
  (forall (pomXml : str) (c : coords) (nv1 nv2 p1 : str),
     nv1 <> [] -> lt_free nv1 -> dollar_free nv1 -> dollar_free nv2 ->
     updateProjectVersionInPom pomXml c nv1 = Some p1 ->
     updateProjectVersionInPom p1 c nv2
     = updateProjectVersionInPom pomXml c nv2) /\
  (forall (st st1 : store) (projectRoot nv1 nv2 : str),
     nv1 <> [] -> lt_free nv1 -> dollar_free nv1 -> dollar_free nv2 ->
     setVersionInPom relative st projectRoot nv1 = inl st1 ->
     setVersionInPom relative st1 projectRoot nv2
     = setVersionInPom relative st projectRoot nv2).
Proof.
  split; [exact project_update_twice|].
  intros st st1 root nv1 nv2 Hne Hlt Hd1 Hd2.
  unfold setVersionInPom. cbv zeta.
  destruct (disk st !! join root (lit "pom.xml")) as [on_disk|] eqn:Hdisk;
    [|done].
  intros [= <-]. unfold write, current_text.
  destruct (tree st) as [t|] eqn:Htree; cbn [disk tree].
  - rewrite Hdisk, lookup_insert_eq, insert_insert_eq.
    by rewrite artifact_replace_twice.
  - rewrite lookup_insert_eq, insert_insert_eq.
    by rewrite artifact_replace_twice.
Qed.

End LastWrite.

(** ** A version plan, written and read *)

Section PlanFiles.
Import Js Re ReSpec Pom Plans.

Lemma lazy_eq (c : char -> bool) (k : str -> option pieces) (s : str) :
  lazy c k s
  = match k s with
    | Some ps => Some ([], ps)
    | None =>
        match s with
        | x :: s' => if c x then push x <$> lazy c k s' else None
        | [] => None
        end
    end.
Proof. by destruct s. Qed.

(** A lazy atom takes the text up to the first place where what follows
    it matches. *)
Lemma lazy_run (c : char -> bool) (k : str -> option pieces) (y t : str)
  (ps : pieces) :
  forallb c y = true ->
  (forall a b : str, y = a ++ b -> b <> [] -> k (b ++ t) = None) ->
  k t = Some ps ->
  lazy c k (y ++ t) = Some (y, ps).
Proof.
  intros Hy Hnone Hk. induction y as [|x y IH].
  - rewrite lazy_eq. simpl. by rewrite Hk.
  - rewrite lazy_eq. rewrite (Hnone [] (x :: y) eq_refl) by done.
    simpl in Hy. apply andb_prop in Hy as [Hx Hy]. cbn [app]. rewrite Hx.
    rewrite IH; [done|done|]. intros a b -> Hb. by apply (Hnone (x :: a) b).
Qed.

Lemma match_here_lazy (c : char -> bool) (r : regex) (y t : str)
  (ps : pieces) :
  forallb c y = true ->
  (forall a b : str, y = a ++ b -> b <> [] -> match_here r (b ++ t) = None) ->
  match_here r t = Some ps ->
  match_here (Lazy c :: r) (y ++ t) = Some (y :: ps).
Proof.
  intros Hy Hnone Hr. cbn [match_here].
  by rewrite (lazy_run c _ y t ps Hy Hnone Hr).
Qed.

(** A greedy atom gives back the one code unit it took when what follows
    it does not match behind it. *)
Lemma match_here_star_back (c : char -> bool) (r : regex) (x q : char)
  (s : str) (ps : pieces) :
  c x = true -> c q = false ->
  match_here r (q :: s) = None ->
  match_here r (x :: q :: s) = Some ps ->
  match_here (Star c :: r) (x :: q :: s) = Some ([] :: ps).
Proof.
  intros Hx Hq Hnone Hr. cbn [match_here greedy]. by rewrite Hx, Hq, Hnone, Hr.
Qed.

Lemma split_run (x : char) (l m X rest : str) :
  x ∉ l -> l ++ m = X ++ x :: rest ->
  exists X' : str, X = l ++ X' /\ m = X' ++ x :: rest.
Proof.
  revert X; induction l as [|y l IH]; intros X Hl H; [by exists X|].
  apply not_elem_of_cons in Hl as [Hy Hl].
  destruct X as [|z X]; simpl in H; injection H as -> H; [done|].
  destruct (IH X Hl H) as (X' & -> & ->). by exists X'.
Qed.

(** The front matter of a text that begins with a line of three dashes:
    the lines up to the next line that begins with three dashes, when the
    first of them does not begin with white space. *)
Lemma header_of (y rest : str) :
  match y with [] => false | q :: _ => negb (is_space q) end = true ->
  (forall a b : str, y = a ++ 10%N :: b ->
     match b with [] => true | x :: _ => negb (x =? 45)%N end = true) ->
  header (lit "---" ++ 10%N :: y ++ 10%N :: lit "---" ++ rest) = Some y.
Proof.
  intros Hhead Hlines. unfold header, header_pattern.
  assert (H4 : match_here [Lit (10%N :: lit "---")] ((10%N :: lit "---") ++ rest)
               = Some [10%N :: lit "---"]) by by apply match_here_lit.
  assert (H3 : match_here [Lazy any; Lit (10%N :: lit "---")]
                 (y ++ (10%N :: lit "---") ++ rest)
               = Some [y; 10%N :: lit "---"]).
  { apply match_here_lazy; [apply forallb_any| |done].
    intros a [|x b] -> Hb; [done|]. cbn [match_here app].
    destruct (strip_prefix _ _) as [rest'|] eqn:Hstrip; [exfalso|done].
    apply strip_prefix_Some in Hstrip.
    change (lit "---") with (45%N :: lit "--") in Hstrip.
    cbn [app] in Hstrip. injection Hstrip as -> Hstrip.
    specialize (Hlines a b eq_refl).
    destruct b as [|x' b]; simpl in Hstrip; [done|].
    injection Hstrip as -> _. done. }
  destruct y as [|q y]; [done|]. apply negb_true_iff in Hhead.
  assert (H2 : match_here [Lit [10%N]; Lazy any; Lit (10%N :: lit "---")]
                 ([10%N] ++ (q :: y) ++ (10%N :: lit "---") ++ rest)
               = Some [[10%N]; q :: y; 10%N :: lit "---"]) by by apply match_here_lit.
  assert (H1 : match_here
                 [Star is_space; Lit [10%N]; Lazy any; Lit (10%N :: lit "---")]
                 (10%N :: q :: y ++ (10%N :: lit "---") ++ rest)
               = Some [[]; [10%N]; q :: y; 10%N :: lit "---"]).
  { apply match_here_star_back; [done|done| |exact H2].
    cbn [match_here strip_prefix].
    destruct (N.eqb_spec 10 q) as [<-|]; [done|done]. }
  change (lit "---" ++ 10%N :: (q :: y) ++ 10%N :: lit "---" ++ rest)
    with (lit "---" ++ 10%N :: q :: y ++ (10%N :: lit "---") ++ rest).
  rewrite (match_here_lit _ _ _ _ H1). cbn [fmap option_fmap option_map].
  unfold group. simpl. by rewrite app_nil_r.
Qed.

Lemma split_on_line (l s : str) :
  10%N ∉ l -> split_on 10%N (l ++ 10%N :: s) = l :: split_on 10%N s.
Proof.
  induction l as [|x l IH]; intros Hl; [done|].
  apply not_elem_of_cons in Hl as [Hx Hl]. cbn [app split_on].
  rewrite (proj2 (N.eqb_neq x 10%N)) by done. by rewrite IH.
Qed.

Lemma split_on_last (l : str) : 10%N ∉ l -> split_on 10%N l = [l].
Proof.
  induction l as [|x l IH]; intros Hl; [done|].
  apply not_elem_of_cons in Hl as [Hx Hl]. cbn [split_on].
  rewrite (proj2 (N.eqb_neq x 10%N)) by done. by rewrite IH.
Qed.

(** Lines without a line feed, joined by line feeds and split again. *)
Lemma split_join (lines : list str) :
  lines <> [] -> Forall (fun l => 10%N ∉ l) lines ->
  split_on 10%N (join_lines lines) = lines.
Proof.
  induction lines as [|l [|l' rest] IH]; intros Hne Hall; [done| |].
  - apply Forall_cons in Hall as [Hl _]. by apply split_on_last.
  - apply Forall_cons in Hall as [Hl Hall]. cbn [join_lines].
    rewrite split_on_line by done. f_equal. by apply IH.
Qed.

(** In lines that begin with a quote and hold no line feed, joined by
    line feeds, a quote follows every line feed. *)
Lemma join_lines_breaks (lines : list str) (a b : str) :
  Forall (fun l => (10%N ∉ l) /\ exists t, l = 39%N :: t) lines ->
  join_lines lines = a ++ 10%N :: b -> exists t, b = 39%N :: t.
Proof.
  revert a; induction lines as [|l [|l' rest] IH]; intros a Hall Hjoin.
  - by destruct a.
  - apply Forall_cons in Hall as [[Hl _] _]. simpl in Hjoin. exfalso.
    apply Hl. rewrite Hjoin. apply elem_of_app. right. apply list_elem_of_here.
  - apply Forall_cons in Hall as [[Hl _] Hall]. cbn [join_lines] in Hjoin.
    destruct (split_run _ _ _ _ _ Hl Hjoin) as ([|z X] & -> & Hrest).
    + simpl in Hrest. injection Hrest as <-.
      pose proof Hall as Hall'.
      apply Forall_cons in Hall' as [[_ [t ->]] _].
      destruct rest; by eexists.
    + simpl in Hrest. injection Hrest as <- Hrest. by apply (IH X).
Qed.

Lemma word_is_not_line_feed (l : str) : forallb is_word l = true -> 10%N ∉ l.
Proof.
  induction l as [|x l IH]; intros Hl; [by apply not_elem_of_nil|].
  simpl in Hl. apply andb_prop in Hl as [Hx Hl].
  apply not_elem_of_cons. split; [|by apply IH]. by intros <-.
Qed.

Lemma name_chars (l : str) :
  forallb (fun x => not_quote x && negb (x =? 10)%N) l = true ->
  forallb not_quote l = true /\ 10%N ∉ l.
Proof.
  induction l as [|x l IH]; intros Hl; [split; [done|apply not_elem_of_nil]|].
  simpl in Hl. apply andb_prop in Hl as [Hx Hl].
  apply andb_prop in Hx as [Hq Hx]. apply negb_true_iff, N.eqb_neq in Hx.
  destruct (IH Hl) as [Hnq Hn]. split; [simpl; by rewrite Hq, Hnq|].
  apply not_elem_of_cons. by split.
Qed.

Lemma rendered_line_flat (e : str * str) :
  well_formed e = true -> 10%N ∉ render_line e.
Proof.
  unfold well_formed, render_line. intros He.
  apply andb_prop in He as [He Hspec]. apply andb_prop in He as [He _].
  apply andb_prop in He as [_ Hname].
  apply name_chars in Hname as [_ Hn].
  apply word_is_not_line_feed in Hspec.
  intros Hin. apply elem_of_cons in Hin as [|Hin]; [done|].
  apply elem_of_app in Hin as [|Hin]; [done|].
  apply elem_of_cons in Hin as [|Hin]; [done|].
  apply elem_of_app in Hin as [Hin|]; [|done].
  apply elem_of_cons in Hin as [|Hin]; [done|].
  apply elem_of_cons in Hin as [|Hin]; [done|].
  by apply elem_of_nil in Hin.
Qed.

(** A line in that form gives its entry back. *)
Lemma rendered_line_entry (e : str * str) :
  well_formed e = true -> line_entry (render_line e) = Some e.
Proof.
  unfold well_formed. intros He.
  apply andb_prop in He as [He Hspec]. apply andb_prop in He as [He Hs].
  apply andb_prop in He as [Hn Hname].
  apply name_chars in Hname as [Hnq _].
  pose (ps := [[39%N]; e.1; [39%N]; []; lit ":"; [32%N]; e.2] : pieces).
  assert (Hhere : match_here line_pattern (concat ps ++ []) = Some ps).
  { apply line_match; try done.
    - by destruct (e.1).
    - by destruct (e.2). }
  apply exec_here in Hhere. unfold line_entry, render_line.
  replace (39%N :: e.1 ++ 39%N :: lit ": " ++ e.2) with (concat ps ++ []).
  2:{ unfold ps. cbn [concat]. by rewrite !app_nil_r. }
  rewrite Hhere. cbn [fmap option_fmap option_map parts]. unfold group, ps.
  cbn [drop take concat]. rewrite !app_nil_r. by destruct e.
Qed.

Lemma add_rendered_lines (entries : list (str * str)) (m : jsmap) :
  forallb well_formed entries = true ->
  add_lines (map render_line entries) m
  = fold_left (fun m e => map_set m e.1 e.2) entries m.
Proof.
  revert m; induction entries as [|e entries IH]; intros m Hall; [done|].
  simpl in Hall. apply andb_prop in Hall as [He Hall].
  cbn [map add_lines fold_left]. rewrite (rendered_line_entry e He).
  destruct e as [name spec]. by apply IH.
Qed.

(** Setting a new key puts the entry at the end. *)
Lemma map_set_new (m : jsmap) (k v : str) :
  k ∉ map fst m -> map_set m k v = m ++ [(k, v)].
Proof.
  induction m as [|[k' v'] m IH]; intros Hk; [done|].
  cbn [map fst] in Hk. apply not_elem_of_cons in Hk as [Hne Hk].
  cbn [map_set app]. rewrite bool_decide_eq_false_2 by done. by rewrite IH.
Qed.

Lemma set_all_new (entries : list (str * str)) (m : jsmap) :
  NoDup (map fst entries) ->
  (forall k, k ∈ map fst entries -> k ∉ map fst m) ->
  fold_left (fun m e => map_set m e.1 e.2) entries m = m ++ entries.
Proof.
  revert m; induction entries as [|[k v] entries IH]; intros m Hnd Hnew.
  - simpl. by rewrite app_nil_r.
  - cbn [map fst] in Hnd, Hnew. apply NoDup_cons in Hnd as [Hk Hnd].
    cbn [fold_left fst snd].
    rewrite map_set_new by (apply Hnew, list_elem_of_here).
    rewrite IH; [by rewrite <- (assoc_L (++))|done|].
    intros k' Hk'. rewrite map_app. cbn [map fst]. intros Hin.
    apply elem_of_app in Hin as [Hin|Hin].
    + by apply (Hnew k'); [apply list_elem_of_further|].
    + apply list_elem_of_singleton in Hin as ->. done.
Qed.

(** A file in the form the parsers are written for sets its entries, in
    their order. *)
Lemma add_rendered_file (entries : list (str * str)) (body : str) (m : jsmap) :
  entries <> [] -> forallb well_formed entries = true ->
  add_file (render_plan entries body) m
  = fold_left (fun m e => map_set m e.1 e.2) entries m.
Proof.
  intros Hne Hall.
  assert (Hlines : Forall (fun l => (10%N ∉ l) /\ exists t, l = 39%N :: t)
                     (map render_line entries)).
  { apply Forall_forall. intros l Hl. apply list_elem_of_fmap in Hl as (e & -> & He).
    rewrite forallb_forall in Hall.
    apply list_elem_of_In in He. split; [by apply rendered_line_flat, Hall|].
    by eexists. }
  unfold add_file, render_plan. rewrite header_of.
  - rewrite split_join.
    + by apply add_rendered_lines.
    + by destruct entries.
    + eapply Forall_impl; [exact Hlines|]. by intros l [Hl _].
  - destruct entries as [|e [|e' rest]]; done.
  - intros a b Hjoin.
    destruct (join_lines_breaks _ a b Hlines Hjoin) as [t ->]. done.
Qed.

(** X24: a version plan in the form the parsers are written for is read
    back.  For entries that are well formed (a name without quote or line
    feed, a specifier of word characters, neither empty) and any text after
    the header, the file sets the entries in their order on the map it is
    added to; when no name comes twice, the release script reads from the
    one file the entries themselves. *)
Theorem rendered_plan_is_read (entries : list (str * str)) (body : str) :
  entries <> [] -> forallb well_formed entries = true ->
  (forall m : jsmap,
     add_file (render_plan entries body) m
     = fold_left (fun m e => map_set m e.1 e.2) entries m)
  /\ (NoDup (map fst entries) ->
      projectsToRelease [render_plan entries body] = entries).
Proof.
  intros Hne Hall.
  split; [intros m; by apply add_rendered_file|]. intros Hnd.
  unfold projectsToRelease. cbn [add_files].
  rewrite add_rendered_file by done. rewrite set_all_new; [done|done|].
  intros k _. apply not_elem_of_nil.
Qed.

End PlanFiles.

Section PlanFilesRun.
Import Js Re ReSpec Pom Plans Release.

Lemma rendered_plan_is_read_witness :
  let entries := [(lit "@selfcare/a", lit "patch"); (lit "b", lit "minor")] in
  let body := 10%N :: 10%N :: lit "Fix the thing" in
  (forall m : jsmap,
     add_file (render_plan entries body) m
     = fold_left (fun m e => map_set m e.1 e.2) entries m)
  /\ (NoDup (map fst entries) ->
      projectsToRelease [render_plan entries body] = entries).
Proof. apply rendered_plan_is_read; [done|by vm_compute]. Defined.

End PlanFilesRun.

(** ** Two plans for one project *)

Section MergedPlans.
Import Js Re ReSpec Pom Plans.

Lemma map_get_set_others (entries : list (str * str)) (m : jsmap) (p : str) :
  p ∉ map fst entries ->
  map_get (fold_left (fun m e => map_set m e.1 e.2) entries m) p = map_get m p.
Proof.
  revert m; induction entries as [|[k v] entries IH]; intros m Hp; [done|].
  cbn [map fst] in Hp. apply not_elem_of_cons in Hp as [Hne Hp].
  cbn [fold_left fst snd]. rewrite IH by done. rewrite map_get_set.
  by rewrite bool_decide_eq_false_2.
Qed.

(** Of the entries set in their order, the last one for a project
    counts. *)
Lemma map_get_set_last (a b : list (str * str)) (m : jsmap) (p k : str) :
  p ∉ map fst b ->
  map_get (fold_left (fun m e => map_set m e.1 e.2) (a ++ (p, k) :: b) m) p
  = Some k.
Proof.
  intros Hp. rewrite fold_left_app. cbn [fold_left fst snd].
  rewrite map_get_set_others by done. rewrite map_get_set.
  by rewrite bool_decide_eq_true_2.
Qed.

(** C7: of two plan files, the one processed last decides.  The files
    are in the form the parsers are written for (a line of three dashes,
    a line with the quoted name, a colon and the keyword for every entry,
    a line of three dashes, the text of the change), with entries that
    are well formed, and they are processed after any other files.  A file
    assigns a keyword to a project by the last line it has for the
    project.  The merged mapping has, for a project, the keyword the
    later file assigns to it, whatever the earlier file and the files
    before assign; and for a project that only the earlier file names,
    the keyword the earlier file assigns is kept.

    For plan files of any text the same holds of what the script reads
    from each: the merged mapping has for a project what the file
    processed last gives alone, and for a project that file gives nothing
    for, what the files before it give. *)
Theorem last_plan_wins :
  (forall (others : list str) (earlier later : list (str * str))
          (body1 body2 : str),
     earlier <> [] -> forallb well_formed earlier = true ->
     later <> [] -> forallb well_formed later = true ->
     let merged :=
       projectsToRelease
         (others ++ [render_plan earlier body1; render_plan later body2]) in
     (forall (p k : str) (a b : list (str * str)),
        later = a ++ (p, k) :: b -> p ∉ map fst b ->
        map_get merged p = Some k) /\
     (forall (q k : str) (a b : list (str * str)),
        earlier = a ++ (q, k) :: b -> q ∉ map fst b -> q ∉ map fst later ->
        map_get merged q = Some k)) /\
  (forall (files : list str) (last p : str),
     map_get (projectsToRelease (files ++ [last])) p
     = match map_get (projectsToRelease [last]) p with
       | Some k => Some k
       | None => map_get (projectsToRelease files) p
       end).
Proof.
  split; [|intros files last p; apply later_file_decides].
  intros others earlier later body1 body2 Hne1 Hall1 Hne2 Hall2 merged.
  assert (Hmerged : merged
    = fold_left (fun m e => map_set m e.1 e.2) later
        (fold_left (fun m e => map_set m e.1 e.2) earlier
           (projectsToRelease others))).
  { unfold merged, projectsToRelease. rewrite add_files_app.
    cbn [add_files]. by rewrite !add_rendered_file. }
  rewrite Hmerged. split.
  - intros p k a b -> Hp. by apply map_get_set_last.
  - intros q k a b -> Hq Hlater. rewrite map_get_set_others by done.
    by apply map_get_set_last.
Qed.

Lemma last_plan_wins_witness :
  map_get (projectsToRelease ([] ++ [plan_minor; plan_major]))
    (lit "@selfcare/onboarding-ms") = Some (lit "major") /\
  map_get (projectsToRelease ([] ++ [plan_minor; plan_major]))
    (lit "@selfcare/product-ms") = Some (lit "patch").
Proof.
  pose proof (proj1 last_plan_wins []
    [(lit "@selfcare/onboarding-ms", lit "minor");
     (lit "@selfcare/product-ms", lit "patch")]
    [(lit "@selfcare/onboarding-ms", lit "major")]
    (10%N :: 10%N :: lit "Add an endpoint")
    (10%N :: 10%N :: lit "Break the interface")
    ltac:(done) ltac:(by vm_compute) ltac:(done) ltac:(by vm_compute))
    as (Hlater & Hearlier).
  split.
  - apply (Hlater _ _ [] []); [done|apply not_elem_of_nil].
  - apply (Hearlier _ _ [(lit "@selfcare/onboarding-ms", lit "minor")] []);
      [done|apply not_elem_of_nil|].
    cbn [map fst]. apply not_elem_of_cons.
    split; [by vm_compute|apply not_elem_of_nil].
Defined.

End MergedPlans.

(** ** The directory of a project in the release script *)

Section ProjectRoots.
Import Js Re Replace ReSpec Files Plans Release.

Context (workspaceRoot : str).

Lemma name_char_not_newline (ms : str) :
  forallb (fun c => is_word c || (c =? 45)%N) ms = true ->
  forallb not_newline ms = true.
Proof.
  induction ms as [|x ms IH]; [done|]. simpl.
  intros [Hx Hms]%andb_prop. rewrite (IH Hms), andb_true_r.
  apply negb_true_iff, not_true_iff_false. revert Hx.
  unfold is_word, is_alpha, is_digit.
  rewrite !orb_true_iff, !andb_true_iff, !N.leb_le, !N.eqb_eq. lia.
Qed.

(** The match of the pattern of an infrastructure project at the start of
    its name: the environment is the run of word characters before the
    first dash after it. *)
Lemma infra_match (env ms : str) :
  env <> [] -> forallb is_word env = true ->
  ms <> [] -> forallb not_newline ms = true ->
  exec infra_pattern (lit "@selfcare/infra-" ++ env ++ lit "-" ++ ms)
  = Some (Found [] [lit "@selfcare/infra-"; env; lit "-"; ms] []).
Proof.
  intros Henv Hword Hms Hline.
  pose (ps := [lit "@selfcare/infra-"; env; lit "-"; ms] : pieces).
  assert (Hhere : match_here infra_pattern (concat ps ++ []) = Some ps).
  { unfold ps. cbn [concat]. rewrite !app_nil_r. unfold infra_pattern.
    apply match_here_lit. apply match_here_plus; [done|done|done|].
    apply match_here_lit. rewrite <- (app_nil_r ms) at 1.
    by apply match_here_plus. }
  apply exec_here in Hhere. unfold ps in Hhere. cbn [concat] in Hhere.
  by rewrite !app_nil_r in Hhere.
Qed.

(** X25: where the release script looks for an infrastructure project.
    For the name [@selfcare/infra-<env>-<ms>], [env] of word characters
    and [ms] of word characters and dashes, neither empty: the directory
    [apps/infra-<env>-<ms>] when it exists; otherwise
    [infra/resources/<env>/<ms>] when that exists; otherwise none.  The
    environment ends at the first dash, the dashes after it belong to
    [ms]. *)
Theorem infra_project_root (w : world) (env ms : str) :
  env <> [] -> forallb is_word env = true ->
  ms <> [] -> forallb (fun c => is_word c || (c =? 45)%N) ms = true ->
  project_root workspaceRoot w (lit "@selfcare/infra-" ++ env ++ lit "-" ++ ms)
  = let appPath :=
      join (join workspaceRoot (lit "apps")) (lit "infra-" ++ env ++ lit "-" ++ ms) in
    let infraPath :=
      join (join (join workspaceRoot (lit "infra/resources")) env) ms in
    if exists_path w appPath then Some appPath
    else if exists_path w infraPath then Some infraPath else None.
Proof.
  intros Henv Hword Hms Hname. unfold project_root.
  assert (Happ : replace_str (lit "@selfcare/") []
                   (lit "@selfcare/infra-" ++ env ++ lit "-" ++ ms)
                 = lit "infra-" ++ env ++ lit "-" ++ ms).
  { unfold replace_str.
    change (lit "@selfcare/infra-" ++ env ++ lit "-" ++ ms)
      with (lit "@selfcare/" ++ lit "infra-" ++ env ++ lit "-" ++ ms).
    rewrite index_of_eq, strip_prefix_app. done. }
  rewrite Happ. cbv zeta.
  destruct (exists_path w _); [done|].
  rewrite (infra_match env ms Henv Hword Hms (name_char_not_newline ms Hname)).
  cbn [parts]. unfold group. cbn [drop take concat]. by rewrite !app_nil_r.
Qed.

End ProjectRoots.

Section ProjectRootsRun.
Import Js Re Replace ReSpec Files Plans Release.

Lemma infra_project_root_witness :
  let w := World ∅ [lit "/w/infra/resources/dev/my-ms"] None in
  project_root (lit "/w") w (lit "@selfcare/infra-" ++ lit "dev" ++ lit "-" ++ lit "my-ms")
  = Some (lit "/w/infra/resources/dev/my-ms").
Proof.
  intros w. rewrite (infra_project_root (lit "/w") w (lit "dev") (lit "my-ms"));
    [by vm_compute|done|by vm_compute|done|by vm_compute].
Defined.

End ProjectRootsRun.
